(** * BERTMasker (DAWM) token-mask layer and the book/hotel data reader

    A shallow embedding of

    - [Replication Code/dawm/bertmasker_lcr.py]: [gumbel_softmax],
      [softmask_with_mask] and [SharedPart.forward];
    - [data_processing/data_book_hotel.py]: [window],
      [replace_nth_occurrence], [replace_nth_occurrence2],
      [_get_data_tuple] and [read_book_hotel].

    Tensors are functions from indices to values, with the shape kept as
    section variables.  Arithmetic is exact real arithmetic, with what
    binary32 adds to it where a property depends on it: a value beyond the
    largest finite binary32 number is non-finite ([exp] and the sum of
    [softmask_with_mask]), and the gate of lines 221-223 is also given in a
    rounded arithmetic, every operation rounding to the format.  A non-finite
    value ([inf], [nan]: a division whose divisor is zero, an overflow) is
    [None].  The random draw of [torch.rand] is an explicit argument.  Python
    exceptions are values of an error type. *)

From Stdlib Require Import Reals Lra Lia ZArith QArith List Bool.
From Stdlib Require Import Ascii String DecimalString Sorted.
Import ListNotations.

(* ================================================================== *)
(** * Part I: bertmasker_lcr.py *)
(* ================================================================== *)

Module Bertmasker.

Local Open Scope R_scope.

(** ** Tensors *)

(** A [B x L] tensor, a [B x L x D] tensor and a [B x L x 2 x K] tensor. *)
Definition T1 := nat -> R.
Definition T2 := nat -> nat -> R.
Definition T3 := nat -> nat -> nat -> R.
Definition T4 := nat -> nat -> nat -> nat -> R.

(** Integer ([long]) tensors: the segment mask is used as a scatter index. *)
Definition Z2 := nat -> nat -> Z.

(** Values that may be non-finite: [None] is torch's [nan]/[inf]. *)
Definition xreal := option R.
Definition X1 := nat -> xreal.
Definition X2 := nat -> nat -> xreal.
Definition X3 := nat -> nat -> nat -> xreal.

Definition xmap (f : R -> R) (x : xreal) : xreal :=
  match x with Some a => Some (f a) | None => None end.

Definition xmap2 (f : R -> R -> R) (x y : xreal) : xreal :=
  match x, y with Some a, Some b => Some (f a b) | _, _ => None end.

Definition xbind (x : xreal) (f : R -> xreal) : xreal :=
  match x with Some a => f a | None => None end.

(** [x / y] of torch: non-finite when the divisor is zero. *)
Definition tdiv (x y : R) : xreal :=
  if Req_dec_T y 0 then None else Some (x / y).

Definition xdiv (x y : xreal) : xreal :=
  match x, y with Some a, Some b => tdiv a b | _, _ => None end.

(** [torch.sum] along one axis of length [n]. *)
Fixpoint rsum (n : nat) (f : nat -> R) : R :=
  match n with
  | O => 0
  | S k => rsum k f + f k
  end.

Fixpoint xsum (n : nat) (f : nat -> xreal) : xreal :=
  match n with
  | O => Some 0
  | S k => xmap2 Rplus (xsum k f) (f k)
  end.

Fixpoint zsum (n : nat) (f : nat -> Z) : Z :=
  match n with
  | O => 0%Z
  | S k => (zsum k f + f k)%Z
  end.

(** [torch.round]: to the nearest integer, a tie going to the even one. *)
Definition round_half_even (x : R) : R :=
  let f := Zfloor x in
  let r := x - IZR f in
  if Rlt_dec r (1 / 2) then IZR f
  else if Rlt_dec (1 / 2) r then IZR (f + 1)
  else if Z.even f then IZR f else IZR (f + 1).

Definition sigmoid (x : R) : R := 1 / (1 + exp (- x)).

(** [nn.functional.softmax(p, dim=-1)] on a last axis of size 2, in exact
    arithmetic: strictly between 0 and 1, where binary32 can saturate to 0
    or 1. *)
Definition softmax2 (p : T3) : T3 :=
  fun b l c => exp (p b l c) / (exp (p b l 0%nat) + exp (p b l 1%nat)).

(** ** binary32 *)

(** The largest finite binary32 number, [(2 - 2^-23) * 2^127]. *)
Definition FLT_MAX : R := (2 - / 2 ^ 23) * 2 ^ 127.

(** A result that leaves the finite range is [inf]. *)
Definition fin32 (x : R) : xreal :=
  if Rle_dec (Rabs x) FLT_MAX then Some x else None.

(** A rounded arithmetic: [rnd] sends the exact result of an operation to
    the number of the format that the operation returns.  The laws are those
    of rounding to nearest that the gate relies on: it is monotone and
    symmetric, leaves the numbers of the format alone, the small multiples
    of 1/2 are numbers of the format, and the difference of two numbers of
    the format within a factor 2 of each other is one as well (Sterbenz).
    binary32 with rounding to nearest even is such an arithmetic on the
    finite range. *)
Record format : Type := Format {
  rnd : R -> R;
  rnd_le : forall x y, x <= y -> rnd x <= rnd y;
  rnd_opp : forall x, rnd (- x) = - rnd x;
  rnd_rnd : forall x, rnd (rnd x) = rnd x;
  rnd_halves : forall k : Z, (-4 <= k <= 4)%Z -> rnd (IZR k / 2) = IZR k / 2;
  rnd_sterbenz : forall x y,
      rnd x = x -> rnd y = y -> y / 2 <= x <= 2 * y -> rnd (x - y) = x - y
}.

(** Exact arithmetic: nothing is rounded. *)
Definition exact_arith : format :=
  Format (fun x => x) (fun _ _ H => H) (fun _ => eq_refl) (fun _ => eq_refl)
         (fun _ _ => eq_refl) (fun _ _ _ _ _ => eq_refl).

(** An arithmetic that does round: to the nearest multiple of [2^-24],
    ties to even, the numbers of binary32 between 1/2 and 1. *)
Definition grid24 : format.
Proof.
  refine (Format (fun x => round_half_even (x * 2 ^ 24) / 2 ^ 24) _ _ _ _ _).
  - (* monotone *)
    intros x y Hxy.
    assert (Hs : 0 < 2 ^ 24) by (apply pow_lt; lra).
    apply Rmult_le_compat_r; [left; apply Rinv_0_lt_compat; exact Hs|].
    assert (Huv : x * 2 ^ 24 <= y * 2 ^ 24)
      by (apply Rmult_le_compat_r; lra).
    set (u := x * 2 ^ 24) in *. set (v := y * 2 ^ 24) in *.
    unfold round_half_even.
    pose proof (Zfloor_bound u) as [Hu1 Hu2].
    pose proof (Zfloor_bound v) as [Hv1 Hv2].
    assert (Hf : (Zfloor u <= Zfloor v)%Z) by (apply Zfloor_lub; lra).
    destruct (Z.eq_dec (Zfloor u) (Zfloor v)) as [E|N].
    + rewrite E in *.
      repeat destruct (Rlt_dec _ _); try lra;
        destruct (Z.even (Zfloor v)); rewrite ?plus_IZR; lra.
    + assert (H1 : (Zfloor u + 1 <= Zfloor v)%Z) by lia.
      apply IZR_le in H1. rewrite plus_IZR in H1.
      repeat destruct (Rlt_dec _ _);
        destruct (Z.even (Zfloor u)); destruct (Z.even (Zfloor v));
        rewrite ?plus_IZR; lra.
  - (* symmetric *)
    intros x.
    replace (- x * 2 ^ 24) with (- (x * 2 ^ 24)) by ring.
    set (u := x * 2 ^ 24).
    assert (Hopp : round_half_even (- u) = - round_half_even u).
    { pose proof (Zfloor_bound u) as [Hu1 Hu2].
      destruct (Req_dec_T u (IZR (Zfloor u))) as [E|N].
      - assert (Hf : Zfloor (- u) = (- Zfloor u)%Z).
        { apply Zfloor_eq. rewrite opp_IZR. lra. }
        unfold round_half_even. rewrite Hf, opp_IZR.
        destruct (Rlt_dec (- u - - IZR (Zfloor u)) (1 / 2)); [|lra].
        destruct (Rlt_dec (u - IZR (Zfloor u)) (1 / 2)); [reflexivity|lra].
      - assert (Hf : Zfloor (- u) = (- Zfloor u - 1)%Z).
        { apply Zfloor_eq. rewrite minus_IZR, opp_IZR. lra. }
        assert (Hev : Z.even (- Zfloor u - 1) = negb (Z.even (Zfloor u))).
        { rewrite Z.even_sub, Z.even_opp. simpl.
          destruct (Z.even (Zfloor u)); reflexivity. }
        unfold round_half_even. rewrite Hf, Hev.
        rewrite !plus_IZR, !minus_IZR, !opp_IZR.
        repeat destruct (Rlt_dec _ _); try lra;
          destruct (Z.even (Zfloor u)); simpl; rewrite ?plus_IZR, ?minus_IZR, ?opp_IZR; lra. }
    rewrite Hopp. unfold Rdiv. ring.
  - (* idempotent *)
    intros x.
    assert (Hint : exists k, round_half_even (x * 2 ^ 24) = IZR k).
    { unfold round_half_even.
      repeat destruct (Rlt_dec _ _); try destruct (Z.even _); eauto. }
    destruct Hint as [k Hk]. rewrite Hk.
    replace (IZR k / 2 ^ 24 * 2 ^ 24) with (IZR k) by field.
    assert (Hfix : round_half_even (IZR k) = IZR k).
    { unfold round_half_even. rewrite (Zfloor_eq k) by lra.
      destruct (Rlt_dec (IZR k - IZR k) (1 / 2)); [reflexivity|lra]. }
    rewrite Hfix. reflexivity.
  - (* the small multiples of 1/2 *)
    intros k _.
    replace (IZR k / 2 * 2 ^ 24) with (IZR (k * 2 ^ 23)).
    + assert (Hfix : round_half_even (IZR (k * 2 ^ 23)) = IZR (k * 2 ^ 23)).
      { unfold round_half_even. rewrite (Zfloor_eq (k * 2 ^ 23)) by lra.
        destruct (Rlt_dec _ (1 / 2)); [reflexivity|lra]. }
      rewrite Hfix, mult_IZR.
      replace (IZR (2 ^ 23)) with (2 ^ 23) by (rewrite (pow_IZR 2 23); reflexivity).
      replace (2 ^ 24) with (2 * 2 ^ 23) by (simpl; ring).
      field.
    + rewrite mult_IZR.
      replace (IZR (2 ^ 23)) with (2 ^ 23) by (rewrite (pow_IZR 2 23); reflexivity).
      replace (2 ^ 24) with (2 * 2 ^ 23) by (simpl; ring).
      field.
  - (* differences stay on the grid *)
    intros x y Hx Hy _.
    assert (Hint : forall u, exists k, round_half_even u = IZR k).
    { intros u. unfold round_half_even.
      repeat destruct (Rlt_dec _ _); try destruct (Z.even _); eauto. }
    destruct (Hint (x * 2 ^ 24)) as [a Ha].
    destruct (Hint (y * 2 ^ 24)) as [b Hb].
    rewrite Ha in Hx. rewrite Hb in Hy. clear Ha Hb. subst x y.
    replace ((IZR a / 2 ^ 24 - IZR b / 2 ^ 24) * 2 ^ 24) with (IZR (a - b))
      by (rewrite minus_IZR; field).
    assert (Hfix : round_half_even (IZR (a - b)) = IZR (a - b)).
    { unfold round_half_even. rewrite (Zfloor_eq (a - b)) by lra.
      destruct (Rlt_dec _ (1 / 2)); [reflexivity|lra]. }
    rewrite Hfix, minus_IZR. field.
Defined.

(** ** gumbel_softmax *)

Definition eps : R := / (10 ^ 20).

(** [rand] is the tensor [torch.rand((B, MAX_LENGTH, 2))] drew. *)
Definition gumbel_softmax (rand : T3) (logits : T3) (tau : R) : T3 :=
  let samples : T3 := fun b l c => - ln (- ln (rand b l c + eps) + eps) in
  let p : T3 := fun b l c => (ln (logits b l c) + samples b l c) / tau in
  softmax2 p.

(** ** softmask_with_mask *)

Definition eps9 : R := / (10 ^ 9).

Section Softmask.
Variable MAX_LENGTH : nat.

(** [inputs] is [B x L x D]; [masks] and [zeros] are [B x L].  [torch.exp]
    overflows to [inf] beyond the finite range, and [inf * 0] is [nan]; so
    does the sum of line 68. *)
Definition softmask_with_mask (inputs : X3) (masks zeros : T2) : X3 :=
  let inputs1 : X3 := fun b l d => xbind (inputs b l d) (fun s => fin32 (exp s)) in
  let inputs2 : X3 :=
    fun b l d => xmap (fun e => e * masks b l * (1 - zeros b l)) (inputs1 b l d) in
  let sum_inputs : X2 :=
    fun b d => xbind (xsum MAX_LENGTH (fun l => inputs2 b l d))
                     (fun s => fin32 (s + eps9)) in
  fun b l d => xdiv (inputs2 b l d) (sum_inputs b d).
End Softmask.

(** ** SharedPart.forward *)

Record Output := mkOutput {
  y_pred : X2;
  summed_hs : T3;
  y_pred2 : X2;
  private_rep : X3;
  mask_perc : X1;
  input_e : T3
}.

Section SharedPart.
(** Shapes: batch size, [MAX_LENGTH] of [config]. *)
Variables (B MAX_LENGTH : nat).

(** The learned networks and the encoder, which the layer only calls. *)
Variable mlps : T4 -> T3.
Variable bert : T3 -> Z2 -> list T3.
Variable dcs : T2 -> X2.
Variable dcp : X2 -> X2.

(** [self.masking] and [self.temp]. *)
Variables (masking temp : R).

(** Lines 221-223: the relaxed binary gate, in exact arithmetic. *)
Definition gate_Ps (rand pi : T3) : T3 :=
  fun b l c => gumbel_softmax rand pi temp b l c - masking.

Definition gate_Ph (rand pi : T3) : T3 :=
  fun b l c => round_half_even (gate_Ps rand pi b l c).

(** [Ph.detach() - Ps.detach() + Ps]: [detach] keeps the value. *)
Definition gate_P (rand pi : T3) : T3 :=
  fun b l c => gate_Ph rand pi b l c - gate_Ps rand pi b l c + gate_Ps rand pi b l c.

(** The same three lines in a rounded arithmetic [F], on the relaxed sample
    [p] that [gumbel_softmax] returned: the subtraction of line 221 and both
    operations of line 223 round; [torch.round] returns an integer, which it
    does not round. *)
Definition gate_Ps_in (F : format) (p : T3) : T3 :=
  fun b l c => rnd F (p b l c - masking).

Definition gate_Ph_in (F : format) (p : T3) : T3 :=
  fun b l c => round_half_even (gate_Ps_in F p b l c).

Definition gate_P_in (F : format) (p : T3) : T3 :=
  fun b l c =>
    rnd F (rnd F (gate_Ph_in F p b l c - gate_Ps_in F p b l c)
           + gate_Ps_in F p b l c).

(** [t.scatter_(1, index, v)] with one index per row; an index outside
    [0, MAX_LENGTH) is a RuntimeError. *)
Definition scatter_1 (t : T2) (index : nat -> Z) (v : R) : option T2 :=
  if forallb (fun b => (0 <=? index b)%Z && (index b <? Z.of_nat MAX_LENGTH)%Z)
             (seq 0 B)
  then Some (fun b l => if (Z.of_nat l =? index b)%Z then v else t b l)
  else None.

(** Lines 226-228: 1 at position 0 and at position [sum - 1]. *)
Definition seg_index (segments_tensor : Z2) : nat -> Z :=
  fun b => (zsum MAX_LENGTH (segments_tensor b) - 1)%Z.

Definition structural (segments_tensor : Z2) : option T2 :=
  match scatter_1 (fun _ _ => 0) (seg_index segments_tensor) 1 with
  | Some z1 => scatter_1 z1 (fun _ => 0%Z) 1
  | None => None
  end.

(** [P[torch.arange(P.size(0)), :, 0]] *)
Definition P0 (P : T3) : T2 := fun b l => P b l 0%nat.

(** Lines 231-233. *)
Definition embedded_inputs (P : T3) (input_embedding mask_embedding : T3)
           (zeros : T2) : T3 :=
  let e1 : T3 := fun b l d =>
    (1 - P0 P b l) * input_embedding b l d + P0 P b l * mask_embedding b l d in
  fun b l d => e1 b l d * (1 - zeros b l) + input_embedding b l d * zeros b l.

(** Lines 241-242: the sum of the last four layers.  [torch.stack] raises
    on an empty sequence of tensors. *)
Definition sum_last4 (hidden_states : list T3) : option T3 :=
  match skipn (List.length hidden_states - 4) hidden_states with
  | [] => None
  | last4 =>
      Some (fun b l d => fold_right (fun h acc => h b l d + acc) 0 last4)
  end.

(** Line 253: [sum]. *)
Definition pool_sum (P : T3) (segments_tensor : Z2) (zeros : T2) : T1 :=
  fun b => rsum MAX_LENGTH
             (fun l => P0 P b l * IZR (segments_tensor b l) * (1 - zeros b l)).

(** Line 254-255: [sum + condition.float()]. *)
Definition pool_divisor (P : T3) (segments_tensor : Z2) (zeros : T2) : T1 :=
  fun b =>
    let s := pool_sum P segments_tensor zeros b in
    s + (if Req_dec_T s 0 then 1 else 0).

(** Lines 252-255. *)
Definition private_rep2 (P : T3) (hidden_embeddings : T3)
           (segments_tensor : Z2) (zeros : T2) : X2 :=
  let emb : T3 := fun b l d => P0 P b l * hidden_embeddings b l d in
  fun b d =>
    tdiv (rsum MAX_LENGTH
            (fun l => emb b l d * IZR (segments_tensor b l) * (1 - zeros b l)))
         (pool_divisor P segments_tensor zeros b).

(** Line 268. *)
Definition mask_percentage (P : T3) (segments_tensor : Z2) (zeros : T2) : X1 :=
  fun b =>
    tdiv (rsum MAX_LENGTH
            (fun l => P0 P b l * IZR (segments_tensor b l) * (1 - zeros b l)))
         (rsum MAX_LENGTH
            (fun l => IZR (segments_tensor b l) * (1 - zeros b l))).

Definition forward (rand : T3)
           (hidden_embeddings input_embedding mask_embedding : T3)
           (segments_tensor : Z2) (z : T4) : option Output :=
  let pi := mlps z in
  let P := gate_P rand pi in
  match structural segments_tensor with
  | None => None
  | Some zeros =>
    let emb := embedded_inputs P input_embedding mask_embedding zeros in
    let outputs := bert emb segments_tensor in
    match sum_last4 outputs with
    | None => None
    | Some hs =>
      let shared_rep : T2 := fun b d => hs b 0%nat d in
      let rep2 := private_rep2 P hidden_embeddings segments_tensor zeros in
      let h_private : X3 := fun b l d =>
        xmap (fun pr => hidden_embeddings b l d * IZR (segments_tensor b l)
                        * (1 - zeros b l) * pr) (rep2 b d) in
      let a := softmask_with_mask MAX_LENGTH
                 (fun b l d => xmap sigmoid (h_private b l d))
                 (fun b l => IZR (segments_tensor b l)) zeros in
      let priv : X3 := fun b l d =>
        xmap (fun w => hidden_embeddings b l d * w * IZR (segments_tensor b l)
                       * (1 - zeros b l)) (a b l d) in
      Some {| y_pred := dcs shared_rep;
              summed_hs := hs;
              y_pred2 := dcp rep2;
              private_rep := priv;
              mask_perc := mask_percentage P segments_tensor zeros;
              input_e := emb |}
    end
  end.
End SharedPart.

(** ** Shapes and masks, as the data model words them *)

(** A [B x L] integer tensor of 0/1 entries. *)
Definition is_mask (B L : nat) (m : Z2) : Prop :=
  forall b l, (b < B)%nat -> (l < L)%nat -> m b l = 0%Z \/ m b l = 1%Z.

Definition is_mask_row (L : nat) (m : T2) (b : nat) : Prop :=
  forall l, (l < L)%nat -> m b l = 0 \/ m b l = 1.

(** A real token that is no structural token. *)
Definition real_nonstructural (masks zeros : T2) (b l : nat) : bool :=
  if Req_dec_T (masks b l) 1
  then if Req_dec_T (zeros b l) 0 then true else false
  else false.

(** The structural-token mask: the first position and the position
    [sum of the segment mask - 1] are flagged. *)
Definition structural_mask (L : nat) (segments_tensor : Z2) : T2 :=
  fun b l =>
    if (Z.of_nat l =? 0)%Z then 1
    else if (Z.of_nat l =? seg_index L segments_tensor b)%Z then 1 else 0.

(** ** Concrete inputs *)

(** Logits [(1/20, 19/20)] at every position, and a uniform draw of [1/2]. *)
Definition pi_skewed : T3 := fun _ _ c => match c with O => 1 / 20 | _ => 19 / 20 end.
Definition pi_even : T3 := fun _ _ _ => 1 / 2.
Definition rand_half : T3 := fun _ _ _ => 1 / 2.

(** One example of length 3: [CLS], [SEP], padding. *)
Definition seg_two : Z2 := fun _ l => if (l <? 2)%nat then 1%Z else 0%Z.
(** One example of length 3 without padding: [CLS], a token, [SEP]. *)
Definition seg_three : Z2 := fun _ _ => 1%Z.

Definition m_first : T2 := fun _ l => match l with O => 1 | _ => 0 end.
Definition z_none : T2 := fun _ _ => 0.

(** Stand-ins for the learned networks and the encoder. *)
Definition mlps_even : T4 -> T3 := fun _ => pi_even.
(** An encoder that hands back no hidden states. *)
Definition bert_none : T3 -> Z2 -> list T3 := fun _ _ => [].
(** An encoder with a single layer that hands its input back. *)
Definition bert_echo : T3 -> Z2 -> list T3 := fun e _ => [e].
Definition dcs_id : T2 -> X2 := fun t b d => Some (t b d).
Definition dcp_id : X2 -> X2 := fun x => x.

Definition t3_zero : T3 := fun _ _ _ => 0.
Definition t3_one : T3 := fun _ _ _ => 1.
Definition t4_zero : T4 := fun _ _ _ _ => 0.

(** Scores 0 at the first position and 200 at the others. *)
Definition scores_big : T3 := fun _ l _ => match l with O => 0 | _ => 200 end.

(** ** concatenate_tensors *)

Definition X4 := nat -> nat -> nat -> nat -> xreal.

Section Concatenate.
(** Batch size, number of domains, hidden width [d]. *)
Variables (B N D : nat).

(** [torch.mean(descriptor, dim=0)], in exact arithmetic: non-finite for an
    empty descriptor. *)
Definition ave_descr (descriptor : T2) : X1 :=
  fun k => tdiv (rsum N (fun i => descriptor i k)) (INR N).

(** [torch.index_select(descriptor, 0, domain_list)]: an index outside
    [0, N) is an error. *)
Definition index_select (descriptor : T2) (domain_list : nat -> Z) : option T2 :=
  if forallb (fun b => (0 <=? domain_list b)%Z && (domain_list b <? Z.of_nat N)%Z)
             (seq 0 B)
  then Some (fun b k => descriptor (Z.to_nat (domain_list b)) k)
  else None.

(** [torch.cat((representation, t), dim=-1)] with [t] broadcast over the
    sequence. *)
Definition cat_last (representation : T3) (t : nat -> nat -> xreal) : X3 :=
  fun b l k => if (k <? D)%nat then Some (representation b l k)
               else t b (k - D)%nat.

(** The last two axes of the result are the stack axis (own domain, mean of
    the domains) and the features. *)
Definition concatenate_tensors (representation : T3) (descriptor : T2)
           (domain_list : nat -> Z) (att_masks : Z2) : option X4 :=
  let ave := ave_descr descriptor in
  match index_select descriptor domain_list with
  | None => None
  | Some domain_descr =>
      let concatenated_tensors : X3 := fun b l k =>
        xmap (fun v => v * IZR (att_masks b l))
             (cat_last representation (fun b k => Some (domain_descr b k)) b l k) in
      let concatenated_tensors2 : X3 := fun b l k =>
        xmap (fun v => v * IZR (att_masks b l))
             (cat_last representation (fun _ k => ave k) b l k) in
      Some (fun b l j k => match j with
                           | O => concatenated_tensors b l k
                           | _ => concatenated_tensors2 b l k
                           end)
  end.
End Concatenate.

(** ** The perturbed log-logits of the gate *)

(** [log(logits) + samples] of lines 33 and 37. *)
Definition perturbed (rand logits : T3) : T3 :=
  fun b l c => ln (logits b l c) + - ln (- ln (rand b l c + eps) + eps).

(** Logits [(19/20, 1/20)]: the gate opens at the default offset. *)
Definition pi_open : T3 := fun _ _ c => match c with O => 19 / 20 | _ => 1 / 20 end.
Definition mlps_open : T4 -> T3 := fun _ => pi_open.

(** Two domains with the same descriptor. *)
Definition descr_same : T2 := fun _ k => match k with O => 1 | _ => 3 end.

(** Two domains with the descriptors (1, 3) and (3, 5). *)
Definition descr_two : T2 :=
  fun i k => match i, k with
             | O, O => 1 | O, _ => 3
             | _, O => 3 | _, _ => 5
             end.

End Bertmasker.

(* ================================================================== *)
(** * Part II: data_book_hotel.py *)
(* ================================================================== *)

Module DataBookHotel.

Local Open Scope string_scope.
Local Open Scope list_scope.
Local Open Scope nat_scope.

(** ** Exceptions and the result of a call *)

Inductive exn :=
| TypeError (msg : string)
| ValueError (msg : string)
| RuntimeError (msg : string)
| IndexError
| KeyError (key : string)
| AttributeError
| ZeroDivisionError
| FileNotFoundError (path : string)
| ParseError.

Inductive result (A : Type) :=
| Ok (a : A)
| Err (e : exn).
Arguments Ok {A} a.
Arguments Err {A} e.

(** What a [raise] statement is given.  Raising an object that is not an
    exception is itself a [TypeError]. *)
Inductive raised :=
| RaiseStr (s : string)
| RaiseExn (e : exn).

Definition py_raise (r : raised) : exn :=
  match r with
  | RaiseStr _ => TypeError "exceptions must derive from BaseException"%string
  | RaiseExn e => e
  end.

(** A state and error monad: the state survives an exception. *)
Definition M (St A : Type) : Type := St -> result A * St.

Definition ret {St A} (a : A) : M St A := fun s => (Ok a, s).

Definition bind {St A B} (m : M St A) (k : A -> M St B) : M St B :=
  fun s => match m s with
           | (Ok a, s') => k a s'
           | (Err e, s') => (Err e, s')
           end.

Definition modify {St} (f : St -> St) : M St unit := fun s => (Ok tt, f s).
Definition lift {St A} (r : result A) : M St A := fun s => (r, s).

Notation "x <- c ;; k" := (bind c (fun x => k))
  (at level 61, c at next level, right associativity).
Notation "c ;;; k" := (bind c (fun _ => k))
  (at level 61, right associativity).

Fixpoint for_each {St A} (xs : list A) (body : A -> M St unit) : M St unit :=
  match xs with
  | [] => ret tt
  | x :: r => body x ;;; for_each r body
  end.

Definition rbind {A B} (r : result A) (k : A -> result B) : result B :=
  match r with Ok a => k a | Err e => Err e end.

Fixpoint rmap {A B} (f : A -> result B) (xs : list A) : result (list B) :=
  match xs with
  | [] => Ok []
  | x :: r => rbind (f x) (fun y => rbind (rmap f r) (fun ys => Ok (y :: ys)))
  end.

(** ** Strings (ASCII text) *)

Definition lower_ascii (c : ascii) : ascii :=
  let n := nat_of_ascii c in
  if (65 <=? n) && (n <=? 90) then ascii_of_nat (n + 32) else c.

(** [s.lower()] *)
Fixpoint lower (s : string) : string :=
  match s with
  | EmptyString => EmptyString
  | String c r => String (lower_ascii c) (lower r)
  end.

(** [sep.join(xs)] *)
Definition join (sep : string) (xs : list string) : string := concat sep xs.

(** [s.find(sub, start)] for [start >= 0]; [None] is Python's [-1]. *)
Definition py_find (s sub : string) (start : nat) : option nat :=
  index start sub s.

(** [sub in s] *)
Definition contains (sub s : string) : bool :=
  match index 0 sub s with Some _ => true | None => false end.

(** [s[:i]] and [s[i:]] for [i >= 0]. *)
Definition slice_to (s : string) (i : nat) : string := substring 0 i s.
Definition slice_from (s : string) (i : nat) : string :=
  substring i (length s - i) s.

(** [\w] *)
Definition is_word (c : ascii) : bool :=
  let n := nat_of_ascii c in
  ((48 <=? n) && (n <=? 57)) || ((65 <=? n) && (n <=? 90))
  || ((97 <=? n) && (n <=? 122)) || (n =? 95).

Definition head_is_word (s : string) : bool :=
  match s with
  | EmptyString => false
  | String c _ => is_word c
  end.

Fixpoint last_is_word (prev : bool) (s : string) : bool :=
  match s with
  | EmptyString => prev
  | String c r => last_is_word (is_word c) r
  end.

(** Whether [\b target \b] matches at the head of [s], where [prev] tells
    whether the character before [s] is a word character. *)
Definition match_here (target : string) (prev : bool) (s : string) : bool :=
  prefix target s
  && xorb prev (head_is_word s)
  && xorb (last_is_word prev target)
          (head_is_word (substring (length target) 1 s)).

(** [re.finditer(r'\b' + re.escape(target) + r'\b', sentence)]: the spans
    of the matches, left to right, none overlapping.  [skip] counts the
    characters still covered by the last match. *)
Fixpoint scan (target : string) (prev : bool) (s : string) (i skip : nat)
  : list (nat * nat) :=
  let here := match skip with
              | O => match_here target prev s
              | S _ => false
              end in
  let found := if here then [(i, i + length target)] else [] in
  match s with
  | EmptyString => found
  | String c r =>
      found ++ scan target (is_word c) r (S i)
                    (if here then length target - 1 else skip - 1)
  end.

Definition finditer (target sentence : string) : list (nat * nat) :=
  scan target false sentence 0 0.

(** [re.sub(' +', ' ', s)] *)
Fixpoint sub_spaces (prev_space : bool) (s : string) : string :=
  match s with
  | EmptyString => EmptyString
  | String c r =>
      if Ascii.eqb c " "%char
      then if prev_space then sub_spaces true r
           else String " "%char (sub_spaces true r)
      else String c (sub_spaces false r)
  end.

Definition re_sub_spaces (s : string) : string := sub_spaces false s.

(** [xs[i]] with Python's negative indices. *)
Definition py_index {A} (xs : list A) (i : Z) : result A :=
  let n := Z.of_nat (List.length xs) in
  let j := if (i <? 0)%Z then (n + i)%Z else i in
  if (j <? 0)%Z then Err IndexError
  else match nth_error xs (Z.to_nat j) with
       | Some x => Ok x
       | None => Err IndexError
       end.

(** ** window *)

(** The generator takes [size] items first; when the iterable is shorter,
    the [StopIteration] of [next] leaves the generator as a [RuntimeError].
    Each further item shifts the window. *)
Fixpoint window_rest {A} (win : list A) (rest : list A) : list (list A) :=
  match rest with
  | [] => []
  | e :: r => let win' := tl win ++ [e] in win' :: window_rest win' r
  end.

Definition window {A} (iterable : list A) (size : nat) : result (list (list A)) :=
  if List.length iterable <? size
  then Err (RuntimeError "generator raised StopIteration")
  else let win := firstn size iterable in
       Ok (win :: window_rest win (skipn size iterable)).

(** ** replace_nth_occurrence2 *)

(** The [while occurrence_count < n] loop, by recursion on
    [remaining = n - occurrence_count].  [None] is the early return of the
    unchanged sentence; otherwise the loop leaves [start]. *)
Fixpoint find_nth (sentence2 old_phrase : string) (start remaining : nat)
  : option nat :=
  match remaining with
  | O => Some start
  | S remaining' =>
      match py_find sentence2 old_phrase start with
      | None => None
      | Some start' =>
          match remaining' with
          | O => Some start'
          | S _ => find_nth sentence2 old_phrase (start' + length old_phrase)
                            remaining'
          end
      end
  end.

Definition replace_nth_occurrence2 (sentence old_phrase new_phrase : string)
           (n : Z) : string :=
  let sentence2 := lower sentence in
  match find_nth sentence2 old_phrase 0 (Z.to_nat n) with
  | None => sentence
  | Some start =>
      let end_ := start + length old_phrase in
      (slice_to sentence start ++ new_phrase ++ slice_from sentence end_)%string
  end.

(** ** replace_nth_occurrence *)

(** The diagnostic [print] calls write to standard output only and are left
    out. *)
Definition replace_nth_occurrence (sentence target replacement : string)
           (n : Z) : result string :=
  let matches := finditer target sentence in
  if (Z.of_nat (List.length matches) <? n)%Z
  then Ok (replace_nth_occurrence2 sentence target replacement n)
  else rbind (py_index matches (n - 1))
         (fun m => let '(start, end_) := m in
                   Ok (slice_to sentence start ++ replacement
                       ++ slice_from sentence end_)%string).

(** ** _get_data_tuple *)

(** The [for _i, group in enumerate(window(...))] loop with its [break]. *)
Fixpoint find_aspect (asp_term : string) (k : nat) (groups : list (list string))
         (_i : nat) : list nat :=
  match groups with
  | [] => []
  | group :: r =>
      let joined := join " " (map lower group) in
      if String.eqb asp_term joined then seq _i k
      else if contains asp_term joined then seq _i k
      else find_aspect asp_term k r (S _i)
  end.

(** [abs(a - b)] on indices. *)
Definition abs_diff (a b : nat) : nat := (a - b) + (b - a).

(** [min(xs)] *)
Definition py_min (xs : list nat) : result nat :=
  match xs with
  | [] => Err (ValueError "min() arg is an empty sequence")
  | x :: r => Ok (fold_left Nat.min r x)
  end.

(** Lines 113-121; [lab] is still [None] when the message is built. *)
Definition label_of (label : option string) : result Z :=
  match label with
  | Some l =>
      if String.eqb l "negative" then Ok (-1)%Z
      else if String.eqb l "neutral" then Ok 0%Z
      else if String.eqb l "positive" then Ok 1%Z
      else Err (py_raise (RaiseExn (ValueError "Unknown label: None")))
  | None => Err (py_raise (RaiseExn (ValueError "Unknown label: None")))
  end.

(** Lines 98-111: the aspect indices, then the distance of every token to
    the nearest of them. *)
Definition position_info (sptoks asp_term_in : list string)
  : result (list nat) :=
  let asp_term := lower (join " " asp_term_in) in
  rbind (window sptoks (List.length asp_term_in)) (fun groups =>
  let aspect_is := find_aspect asp_term (List.length asp_term_in) groups 0 in
  rmap (fun _i => py_min (map (fun i => abs_diff _i i) aspect_is))
       (seq 0 (List.length sptoks))).

Definition _get_data_tuple (sptoks asp_term_in : list string)
           (label : option string) : result (list nat * Z) :=
  rbind (position_info sptoks asp_term_in) (fun pos_info =>
  rbind (label_of label) (fun lab =>
  Ok (pos_info, lab))).

(** ** The parsed corpus: xml.etree.ElementTree *)

#[warnings="-register-all"]
Inductive element :=
| Element (tag : string) (attrib : list (string * string))
          (text : option string) (children : list element).

Definition tag_of (e : element) : string :=
  match e with Element t _ _ _ => t end.
Definition attrib_of (e : element) : list (string * string) :=
  match e with Element _ a _ _ => a end.
Definition text_of (e : element) : option string :=
  match e with Element _ _ x _ => x end.
Definition children_of (e : element) : list element :=
  match e with Element _ _ _ c => c end.

(** [e.iter()]: the element and its descendants in document order. *)
Fixpoint iter_all (e : element) : list element :=
  match e with
  | Element _ _ _ cs => e :: flat_map iter_all cs
  end.

(** [e.iter(tag)], [e.findall(tag)], [e.find(tag)] and [e.get(key)]. *)
Definition iter (tag : string) (e : element) : list element :=
  filter (fun x => String.eqb (tag_of x) tag) (iter_all e).
Definition findall (tag : string) (e : element) : list element :=
  filter (fun x => String.eqb (tag_of x) tag) (children_of e).
Definition find (tag : string) (e : element) : option element :=
  hd_error (findall tag e).
Fixpoint assoc {V} (key : string) (kvs : list (string * V)) : option V :=
  match kvs with
  | [] => None
  | (k, v) :: r => if String.eqb k key then Some v else assoc key r
  end.
Definition get (key : string) (e : element) : option string :=
  assoc key (attrib_of e).

(** ** Dictionaries and collections.Counter *)

Definition dict := list (string * nat).

(** [if key not in d: d[key] = len(d)] *)
Definition add_key (d : dict) (key : string) : dict :=
  match assoc key d with
  | Some _ => d
  | None => d ++ [(key, List.length d)]
  end.

(** [d[key]] *)
Definition dict_get (d : dict) (key : string) : result nat :=
  match assoc key d with
  | Some v => Ok v
  | None => Err (KeyError key)
  end.

Fixpoint count_add (key : string) (c : list (string * nat)) : list (string * nat) :=
  match c with
  | [] => [(key, 1)]
  | (k, n) :: r => if String.eqb k key then (k, S n) :: r
                   else (k, n) :: count_add key r
  end.

(** [Counter(xs)], the keys in the order of first occurrence. *)
Definition Counter (xs : list string) : list (string * nat) :=
  fold_left (fun c x => count_add x c) xs [].

Fixpoint insert_by_count (x : string * nat) (l : list (string * nat))
  : list (string * nat) :=
  match l with
  | [] => [x]
  | y :: r => if snd x <=? snd y then y :: insert_by_count x r
              else x :: y :: r
  end.

(** [c.most_common()]: by falling count, a tie keeping the first-met order. *)
Definition most_common (c : list (string * nat)) : list (string * nat) :=
  fold_left (fun acc x => insert_by_count x acc) c [].

(** ** read_book_hotel *)

(** The file system: a path names a regular file with its content, or not. *)
Definition fs := string -> option string.

Definition isfile (w : fs) (path : string) : bool :=
  match w path with Some _ => true | None => false end.

Definition write_file (w : fs) (path content : string) : fs :=
  fun p => if String.eqb p path then Some content else w p.

Definition newline : string := String (ascii_of_nat 10) EmptyString.

(** [str(lab)] *)
Definition str_int (z : Z) : string := NilZero.string_of_int (Z.to_int z).

(** [a / b] of Python on integers, as an exact rational. *)
Definition py_div (a b : nat) : result Q :=
  if b =? 0 then Err ZeroDivisionError
  else Ok (inject_Z (Z.of_nat a) / inject_Z (Z.of_nat b))%Q.

Record pass1 := mkPass1 {
  source_words : list string;
  target_words : list string;
  max_sent_len : nat;
  max_target_len : nat;
  target_phrases : list string;
  count_implicit : nat;
  count_confl : nat
}.

Record pass2 := mkPass2 {
  source_data : list (list nat);
  source_loc_data : list (list Q);
  target_data : list nat;
  target_label : list Z;
  out_f : string
}.

(** The value [read_book_hotel] returns. *)
Definition corpus : Type :=
  (list (list nat) * list (list Q) * list nat * list Z * nat * list (list Q) * nat)%type.

Section Reader.
(** [nltk.word_tokenize], [ET.parse] on the content of the file, and
    [int] on a string. *)
Variable word_tokenize : string -> list string.
Variable ET_parse : string -> option element.
Variable py_int : string -> option Z.

(** [sentence.find('text').text], then handed to [re.sub]. *)
Definition sentence_text (sentence : element) : result string :=
  match find "text" sentence with
  | None => Err AttributeError
  | Some t =>
      match text_of t with
      | None => Err (TypeError "expected string or bytes-like object")
      | Some s => Ok s
      end
  end.

Definition is_conflict (opinion : element) : bool :=
  match get "polarity" opinion with
  | Some p => String.eqb p "conflict"
  | None => false
  end.

(** [asp != 'NULL' and asp is not None] *)
Definition explicit_target (opinion : element) : option string :=
  match get "target" opinion with
  | Some asp => if String.eqb asp "NULL" then None else Some asp
  | None => None
  end.

(** Lines 163-186. *)
Definition first_opinion (opinion : element) : M pass1 unit :=
  if is_conflict opinion then
    modify (fun s => mkPass1 (source_words s) (target_words s) (max_sent_len s)
                       (max_target_len s) (target_phrases s) (count_implicit s)
                       (count_confl s + 1))
  else
    match explicit_target opinion with
    | Some asp =>
        let asp_new := re_sub_spaces asp in
        let t_sptoks := word_tokenize asp_new in
        modify (fun s =>
          mkPass1 (source_words s) (target_words s ++ map lower t_sptoks)
                  (max_sent_len s)
                  (if max_target_len s <? List.length t_sptoks
                   then List.length t_sptoks else max_target_len s)
                  (target_phrases s ++ [lower (join " " t_sptoks)])
                  (count_implicit s) (count_confl s))
    | None =>
        modify (fun s => mkPass1 (source_words s) (target_words s) (max_sent_len s)
                           (max_target_len s) (target_phrases s)
                           (count_implicit s + 1) (count_confl s))
    end.

Definition first_sentence (sentence : element) : M pass1 unit :=
  sent <- lift (sentence_text sentence) ;;
  let sentence_new := re_sub_spaces sent in
  let sptoks := word_tokenize sentence_new in
  modify (fun s =>
    mkPass1 (source_words s ++ map lower sptoks) (target_words s)
            (if max_sent_len s <? List.length sptoks
             then List.length sptoks else max_sent_len s)
            (max_target_len s) (target_phrases s) (count_implicit s)
            (count_confl s)) ;;;
  for_each (iter "Opinions" sentence) (fun opinions =>
    for_each (findall "Opinion" opinions) first_opinion).

Definition out_write (x : string) : M pass2 unit :=
  modify (fun s => mkPass2 (source_data s) (source_loc_data s) (target_data s)
                     (target_label s) (out_f s ++ x)%string).

(** [int(opinion.get('occurrence'))] *)
Definition occurrence_of (opinion : element) : result Z :=
  match get "occurrence" opinion with
  | None => Err (TypeError "int() argument must be a string")
  | Some o =>
      match py_int o with
      | Some n => Ok n
      | None => Err (ValueError "invalid literal for int()")
      end
  end.

(** Lines 212-236. *)
Definition second_opinion (target_phrase2idx : dict) (sent : string)
           (sptoks : list string) (idx : list nat) (opinion : element)
  : M pass2 unit :=
  if is_conflict opinion then ret tt
  else
    match explicit_target opinion with
    | None => ret tt
    | Some asp =>
        let asp_new := re_sub_spaces asp in
        let t_sptoks := word_tokenize asp_new in
        modify (fun s => mkPass2 (source_data s ++ [idx]) (source_loc_data s)
                           (target_data s) (target_label s) (out_f s)) ;;;
        let outputtarget := lower asp in
        n <- lift (occurrence_of opinion) ;;
        outputtext <- lift (replace_nth_occurrence (lower sent) (lower asp) "$T$" n) ;;
        out_write outputtext ;;;
        out_write newline ;;;
        out_write outputtarget ;;;
        out_write newline ;;;
        pl <- lift (_get_data_tuple sptoks t_sptoks (get "polarity" opinion)) ;;
        pos_info <- lift (rmap (fun i => rbind (py_div i (List.length idx))
                                           (fun q => Ok (1 - q)%Q)) (fst pl)) ;;
        modify (fun s => mkPass2 (source_data s) (source_loc_data s ++ [pos_info])
                           (target_data s) (target_label s) (out_f s)) ;;;
        let targetdata := lower (join " " t_sptoks) in
        t <- lift (dict_get target_phrase2idx targetdata) ;;
        modify (fun s => mkPass2 (source_data s) (source_loc_data s)
                           (target_data s ++ [t]) (target_label s) (out_f s)) ;;;
        modify (fun s => mkPass2 (source_data s) (source_loc_data s)
                           (target_data s) (target_label s ++ [snd pl]) (out_f s)) ;;;
        out_write (str_int (snd pl)) ;;;
        out_write newline
    end.

(** Lines 203-236. *)
Definition second_sentence (source_word2idx target_phrase2idx : dict)
           (sentence : element) : M pass2 unit :=
  sent <- lift (sentence_text sentence) ;;
  let sentence_new := re_sub_spaces sent in
  let sptoks := word_tokenize sentence_new in
  if List.length sptoks =? 0 then ret tt
  else
    idx <- lift (rmap (fun sptok => dict_get source_word2idx (lower sptok)) sptoks) ;;
    for_each (iter "Opinions" sentence) (fun opinions =>
      for_each (findall "Opinion" opinions)
               (second_opinion target_phrase2idx sent sptoks idx)).

Definition pass1_init : pass1 := mkPass1 [] [] 0 0 [] 0 0.
Definition pass2_init : pass2 := mkPass2 [] [] [] [] "".

(** Lines 187-198. *)
Definition build_source_word2idx (source_count : list (string * nat))
           (source_word2idx : dict) (p : pass1) : dict :=
  let source_count1 :=
    if List.length source_count =? 0 then source_count ++ [("<pad>", 0)]
    else source_count in
  let source_count2 :=
    source_count1 ++ most_common (Counter (source_words p ++ target_words p)) in
  fold_left add_key (map fst source_count2) source_word2idx.

Definition build_target_phrase2idx (target_count : list (string * nat))
           (target_phrase2idx : dict) (p : pass1) : dict :=
  let target_count1 := target_count ++ most_common (Counter (target_phrases p)) in
  fold_left add_key (map fst target_count1) target_phrase2idx.

(** Lines 239-245: the divisions of the report; the text goes to standard
    output. *)
Definition report (p1 : pass1) (p2 : pass2) : result unit :=
  if count_implicit p1 + count_confl p1 + List.length (source_data p2) =? 0
  then Err ZeroDivisionError
  else if List.length (target_label p2) =? 0 then Err ZeroDivisionError
  else Ok tt.

(** [ET.parse(in_file)] followed by [getroot()]. *)
Definition ET_parse_file (w : fs) (in_file : string) : result element :=
  match w in_file with
  | None => Err (FileNotFoundError in_file)
  | Some content =>
      match ET_parse content with
      | Some root => Ok root
      | None => Err ParseError
      end
  end.

Definition read_book_hotel (in_file : string)
           (source_count : list (string * nat)) (source_word2idx : dict)
           (target_count : list (string * nat)) (target_phrase2idx : dict)
           (out_file : string) : M fs corpus :=
  fun w =>
    if negb (isfile w in_file)
    then (Err (py_raise (RaiseStr ("[!] Data " ++ in_file ++ " not found"))), w)
    else
      match ET_parse_file w in_file with
      | Err e => (Err e, w)
      | Ok root =>
          let w1 := write_file w out_file "" in
          match for_each (iter "sentence" root) first_sentence pass1_init with
          | (Err e, _) => (Err e, w1)
          | (Ok _, p1) =>
              let word2idx :=
                build_source_word2idx source_count source_word2idx p1 in
              let phrase2idx :=
                build_target_phrase2idx target_count target_phrase2idx p1 in
              match for_each (iter "sentence" root)
                             (second_sentence word2idx phrase2idx) pass2_init with
              | (Err e, p2) => (Err e, write_file w1 out_file (out_f p2))
              | (Ok _, p2) =>
                  let w2 := write_file w1 out_file (out_f p2) in
                  match report p1 p2 with
                  | Err e => (Err e, w2)
                  | Ok _ =>
                      (Ok (source_data p2, source_loc_data p2, target_data p2,
                           target_label p2, max_sent_len p1, source_loc_data p2,
                           max_target_len p1), w2)
                  end
              end
          end
      end.
(** The token counts the two maxima range over: one per sentence with a
    text, one per opinion that is no conflict and has an explicit target. *)
Definition sentence_lengths (root : element) : list nat :=
  flat_map (fun sentence =>
              match sentence_text sentence with
              | Ok sent => [List.length (word_tokenize (re_sub_spaces sent))]
              | Err _ => []
              end)
           (iter "sentence" root).

Definition opinion_target_lengths (opinion : element) : list nat :=
  if is_conflict opinion then []
  else match explicit_target opinion with
       | Some asp => [List.length (word_tokenize (re_sub_spaces asp))]
       | None => []
       end.

Definition sentence_target_lengths (sentence : element) : list nat :=
  flat_map (fun opinions =>
              flat_map opinion_target_lengths (findall "Opinion" opinions))
           (iter "Opinions" sentence).

Definition target_lengths (root : element) : list nat :=
  flat_map sentence_target_lengths (iter "sentence" root).

End Reader.

(** ** Invariants of a stateful computation *)

(** [m] keeps [Inv], whether it returns or raises. *)
Definition preserves {St A} (Inv : St -> Prop) (m : M St A) : Prop :=
  forall s r s', m s = (r, s') -> Inv s -> Inv s'.

(** Every exception [m] raises satisfies [Q]. *)
Definition raises_only {St A} (Q : exn -> Prop) (m : M St A) : Prop :=
  forall s e s', m s = (Err e, s') -> Q e.

(** The exception Python raises when the operand of [raise] is a string. *)
Definition raise_str_error : exn :=
  TypeError "exceptions must derive from BaseException".

(** ** The distance features, as the specification words them *)

(** [1 - d / len] for a token distance [d] smaller than the sentence
    length [len]. *)
Definition distance_feature (len : nat) (q : Q) : Prop :=
  exists d, d < len
            /\ q = (1 - inject_Z (Z.of_nat d) / inject_Z (Z.of_nat len))%Q.

(** One feature per token of the sentence. *)
Definition distance_list (loc : list Q) : Prop :=
  Forall (distance_feature (List.length loc)) loc.

(** ** The label mapping, as the specification words it *)

(** "negative" -> -1, "neutral" -> 0, "positive" -> 1, and nothing else. *)
Definition polarity_map (label : option string) : option Z :=
  match label with
  | Some "negative" => Some (-1)%Z
  | Some "neutral" => Some 0%Z
  | Some "positive" => Some 1%Z
  | _ => None
  end.

(** ** Concrete inputs *)

Definition coffee_sentence : string := "The coffee was great and the coffee was hot".

Definition empty_fs : fs := fun _ => None.

(** A tokenizer that splits at spaces, standing in for [nltk.word_tokenize]. *)
Fixpoint split_spaces (word : string) (s : string) : list string :=
  match s with
  | EmptyString => match word with EmptyString => [] | _ => [word] end
  | String c r =>
      if Ascii.eqb c " "%char
      then match word with
           | EmptyString => split_spaces EmptyString r
           | _ => word :: split_spaces EmptyString r
           end
      else split_spaces (word ++ String c EmptyString)%string r
  end.
Definition tokenize_spaces (s : string) : list string := split_spaces "" s.

Definition int_digit (s : string) : option Z :=
  if String.eqb s "1" then Some 1%Z
  else if String.eqb s "2" then Some 2%Z else None.

(** A corpus of one sentence with one opinion. *)
Definition coffee_corpus : element :=
  Element "sentences" [] None
    [Element "sentence" [] None
       [Element "text" [] (Some coffee_sentence) [];
        Element "Opinions" [] None
          [Element "Opinion"
             [("target", "coffee"); ("polarity", "positive"); ("occurrence", "2")]
             None []]]].

Definition coffee_fs : fs := write_file empty_fs "book.xml" "<sentences/>".

(** What the reader returns on it. *)
Definition coffee_loc : list (list Q) :=
  [[8 # 9; 9 # 9; 8 # 9; 7 # 9; 6 # 9; 5 # 9; 4 # 9; 3 # 9; 2 # 9]]%Q.
Definition coffee_result : corpus :=
  ([[2; 1; 3; 4; 5; 2; 1; 3; 6]], coffee_loc, [0], [1%Z], 9, coffee_loc, 1).

(** ** Spans, windows and distances, as plain functions *)

(** Two spans in the order of the text that do not overlap. *)
Definition span_before (a b : nat * nat) : Prop :=
  fst a < fst b /\ snd a <= fst b.

(** Whether a window equals or contains the aspect term (lines 102-105). *)
Definition window_matches (asp_term : string) (group : list string) : bool :=
  String.eqb asp_term (join " " (map lower group))
  || contains asp_term (join " " (map lower group)).

(** The distance of token [j] to the tokens [i .. i+k-1]. *)
Definition aspect_distance (i k j : nat) : nat :=
  if j <? i then i - j
  else if j <? i + k then 0
  else j - (i + k - 1).

Definition label_ok (lab : Z) : Prop := (lab = -1 \/ lab = 0 \/ lab = 1)%Z.

(** ** The examples of a corpus, as a plain list *)

(** An opinion that yields an example: no conflict, an explicit target. *)
Definition is_example (opinion : element) : bool :=
  negb (is_conflict opinion)
  && match explicit_target opinion with Some _ => true | None => false end.

Section CorpusExamples.
Variable word_tokenize : string -> list string.

(** The opinions of a sentence that yield examples, in document order; a
    sentence without tokens yields none. *)
Definition sentence_examples (sentence : element) : list element :=
  match sentence_text sentence with
  | Ok sent =>
      if List.length (word_tokenize (re_sub_spaces sent)) =? 0 then []
      else flat_map (fun opinions => filter is_example (findall "Opinion" opinions))
                    (iter "Opinions" sentence)
  | Err _ => []
  end.

Definition corpus_examples (root : element) : list element :=
  flat_map sentence_examples (iter "sentence" root).
End CorpusExamples.

End DataBookHotel.

(* ================================================================== *)
(** * Part III: properties of the token-mask layer *)
(* ================================================================== *)

Module BertmaskerFacts.
Import Bertmasker.

Local Open Scope R_scope.

(** ** Sums *)

Lemma rsum_ext n f g :
  (forall l, (l < n)%nat -> f l = g l) -> rsum n f = rsum n g.
Proof.
  induction n as [|n IH]; intros H; simpl; [reflexivity|].
  rewrite IH by (intros; apply H; lia).
  rewrite H by lia. reflexivity.
Qed.

Lemma rsum_le n f g :
  (forall l, (l < n)%nat -> f l <= g l) -> rsum n f <= rsum n g.
Proof.
  induction n as [|n IH]; intros H; simpl; [lra|].
  assert (rsum n f <= rsum n g) by (apply IH; intros; apply H; lia).
  assert (f n <= g n) by (apply H; lia). lra.
Qed.

Lemma rsum_zero n : rsum n (fun _ => 0) = 0.
Proof. induction n; simpl; lra. Qed.

Lemma rsum_nonneg n f :
  (forall l, (l < n)%nat -> 0 <= f l) -> 0 <= rsum n f.
Proof.
  intros H. rewrite <- (rsum_zero n). apply rsum_le. exact H.
Qed.

Lemma rsum_plus n f g :
  rsum n (fun l => f l + g l) = rsum n f + rsum n g.
Proof. induction n as [|n IH]; simpl; [lra | rewrite IH; lra]. Qed.

Lemma rsum_opp n f : rsum n (fun l => - f l) = - rsum n f.
Proof. induction n as [|n IH]; simpl; [lra | rewrite IH; lra]. Qed.

Lemma rsum_scal n c f : rsum n (fun l => f l * c) = rsum n f * c.
Proof. induction n as [|n IH]; simpl; [lra | rewrite IH; lra]. Qed.

Lemma rsum_const n c : rsum n (fun _ => c) = INR n * c.
Proof.
  induction n as [|n IH]; [simpl; ring|].
  cbn [rsum]. rewrite IH, S_INR. ring.
Qed.

(** A sum of non-negative terms is at least each of them. *)
Lemma rsum_ge_term n f k :
  (forall l, (l < n)%nat -> 0 <= f l) -> (k < n)%nat -> f k <= rsum n f.
Proof.
  induction n as [|n IH]; intros Hpos Hk; [lia|]. simpl.
  assert (0 <= f n) by (apply Hpos; lia).
  assert (0 <= rsum n f) by (apply rsum_nonneg; intros; apply Hpos; lia).
  destruct (Nat.eq_dec k n) as [->|Hne]; [lra|].
  assert (f k <= rsum n f) by (apply IH; [intros; apply Hpos|]; lia). lra.
Qed.

(** A vanishing sum of non-negative terms has only vanishing terms. *)
Lemma rsum_nonneg_zero n f :
  (forall l, (l < n)%nat -> 0 <= f l) -> rsum n f = 0 ->
  forall l, (l < n)%nat -> f l = 0.
Proof.
  intros Hpos Hz l Hl.
  pose proof (rsum_ge_term n f l Hpos Hl).
  pose proof (Hpos l Hl). lra.
Qed.


(** A summand supported on one index, with values in [0, 1]. *)
Lemma rsum_single_le n f k :
  (forall l, (l < n)%nat -> l <> k -> f l = 0) ->
  (forall l, (l < n)%nat -> 0 <= f l <= 1) ->
  rsum n f <= 1.
Proof.
  intros Hsupp Hrange.
  destruct (lt_dec k n) as [Hk|Hk].
  - assert (Hgen : forall m, (m <= n)%nat ->
                     rsum m f = if (k <? m)%nat then f k else 0).
    { induction m as [|m IH]; intros Hm; simpl; [reflexivity|].
      rewrite IH by lia.
      destruct (Nat.eq_dec m k) as [->|Hne].
      - rewrite Nat.ltb_irrefl.
        replace (k <? S k)%nat with true by (symmetry; apply Nat.ltb_lt; lia). lra.
      - rewrite (Hsupp m) by lia.
        destruct (k <? m)%nat eqn:E1, (k <? S m)%nat eqn:E2; try lra;
          apply Nat.ltb_lt in E1 || apply Nat.ltb_ge in E1;
          apply Nat.ltb_lt in E2 || apply Nat.ltb_ge in E2; lia. }
    rewrite Hgen by lia.
    replace (k <? n)%nat with true by (symmetry; apply Nat.ltb_lt; lia).
    apply Hrange; lia.
  - rewrite (rsum_ext n f (fun _ => 0)).
    + rewrite rsum_zero. lra.
    + intros l Hl. apply Hsupp; lia.
Qed.

Lemma rsum_IZR n (f : nat -> Z) :
  rsum n (fun l => IZR (f l)) = IZR (zsum n f).
Proof.
  induction n as [|n IH]; simpl; [reflexivity|].
  rewrite IH, plus_IZR. reflexivity.
Qed.

Lemma xsum_some n (f : nat -> xreal) (g : nat -> R) :
  (forall l, (l < n)%nat -> f l = Some (g l)) -> xsum n f = Some (rsum n g).
Proof.
  induction n as [|n IH]; intros H; simpl; [reflexivity|].
  rewrite IH by (intros; apply H; lia).
  rewrite H by lia. reflexivity.
Qed.


Lemma tdiv_some x y : y <> 0 -> tdiv x y = Some (x / y).
Proof. intros H. unfold tdiv. destruct (Req_dec_T y 0); [contradiction|reflexivity]. Qed.

Lemma tdiv_zero x : tdiv x 0 = None.
Proof. unfold tdiv. destruct (Req_dec_T 0 0); [reflexivity|contradiction]. Qed.

(** ** Rounding *)

Lemma round_half_even_near (x : R) (k : Z) :
  IZR k - 1 / 2 < x < IZR k + 1 / 2 -> round_half_even x = IZR k.
Proof.
  intros [Hlo Hhi]. unfold round_half_even.
  destruct (Rle_dec (IZR k) x) as [Hge|Hlt].
  - rewrite (Zfloor_eq k x) by lra.
    destruct (Rlt_dec (x - IZR k) (1 / 2)); [reflexivity|lra].
  - assert (Hf : Zfloor x = (k - 1)%Z).
    { apply Zfloor_eq. rewrite minus_IZR. lra. }
    rewrite Hf, minus_IZR.
    destruct (Rlt_dec (x - (IZR k - 1)) (1 / 2)); [lra|].
    destruct (Rlt_dec (1 / 2) (x - (IZR k - 1))); [|lra].
    f_equal. lia.
Qed.

Lemma round_half_even_tie (k : Z) :
  round_half_even (IZR k + 1 / 2) = if Z.even k then IZR k else IZR (k + 1).
Proof.
  unfold round_half_even.
  rewrite (Zfloor_eq k) by lra.
  destruct (Rlt_dec (IZR k + 1 / 2 - IZR k) (1 / 2)); [lra|].
  destruct (Rlt_dec (1 / 2) (IZR k + 1 / 2 - IZR k)); [lra|reflexivity].
Qed.




(** ** The relaxed gate *)

Lemma softmax2_range (p : T3) b l c :
  (c < 2)%nat -> 0 < softmax2 p b l c < 1.
Proof.
  intros Hc. unfold softmax2.
  pose proof (exp_pos (p b l 0%nat)) as H0.
  pose proof (exp_pos (p b l 1%nat)) as H1.
  assert (Hs : 0 < exp (p b l 0%nat) + exp (p b l 1%nat)) by lra.
  destruct c as [|[|c]]; [| |lia].
  - split.
    + apply Rdiv_lt_0_compat; lra.
    + apply (Rmult_lt_reg_r (exp (p b l 0%nat) + exp (p b l 1%nat))); trivial.
      unfold Rdiv. rewrite Rmult_assoc, Rinv_l by lra. lra.
  - split.
    + apply Rdiv_lt_0_compat; lra.
    + apply (Rmult_lt_reg_r (exp (p b l 0%nat) + exp (p b l 1%nat))); trivial.
      unfold Rdiv. rewrite Rmult_assoc, Rinv_l by lra. lra.
Qed.

Lemma gate_Ps_range masking temp rand pi b l c :
  (c < 2)%nat ->
  - masking < gate_Ps masking temp rand pi b l c < 1 - masking.
Proof.
  intros Hc. unfold gate_Ps, gumbel_softmax.
  match goal with |- context [softmax2 ?p b l c] =>
    pose proof (softmax2_range p b l c Hc) end.
  lra.
Qed.

Lemma gate_P_is_Ph masking temp rand pi b l c :
  gate_P masking temp rand pi b l c = gate_Ph masking temp rand pi b l c.
Proof. unfold gate_P. ring. Qed.

Lemma gate_P_binary masking temp rand pi b l c :
  - (1 / 2) <= masking <= 1 / 2 -> (c < 2)%nat ->
  gate_P masking temp rand pi b l c = 0 \/ gate_P masking temp rand pi b l c = 1.
Proof.
  intros Hm Hc. rewrite gate_P_is_Ph. unfold gate_Ph.
  pose proof (gate_Ps_range masking temp rand pi b l c Hc) as Hr.
  set (x := gate_Ps masking temp rand pi b l c) in *.
  destruct (Rtotal_order x (1 / 2)) as [Hlt|[Heq|Hgt]].
  - left. apply (round_half_even_near x 0). simpl. lra.
  - left. rewrite Heq.
    replace (1 / 2) with (IZR 0 + 1 / 2) by (simpl; lra).
    rewrite round_half_even_tie. reflexivity.
  - right. apply (round_half_even_near x 1). simpl. lra.
Qed.


(** The relaxed probability at the skewed logits: the noise cancels. *)
Lemma gumbel_softmax_skewed b l :
  gumbel_softmax rand_half pi_skewed 1 b l 0%nat = 1 / 20.
Proof.
  unfold gumbel_softmax, softmax2, pi_skewed, rand_half.
  set (g := - ln (- ln (1 / 2 + eps) + eps)).
  rewrite !Rdiv_1_r, !exp_plus, !exp_ln by lra.
  pose proof (exp_pos g). field. lra.
Qed.

(** ** The concrete inputs *)

(** The concrete inputs lie where [ln] and the division by the temperature
    are those of torch: positive logits, a draw in [0,1). *)
Lemma rand_half_range b l c : 0 <= rand_half b l c < 1.
Proof. unfold rand_half. lra. Qed.

Lemma pi_skewed_pos b l c : 0 < pi_skewed b l c.
Proof. destruct c; unfold pi_skewed; lra. Qed.


Lemma pi_open_pos b l c : 0 < pi_open b l c.
Proof. destruct c; unfold pi_open; lra. Qed.


Lemma gumbel_softmax_open b l :
  gumbel_softmax rand_half pi_open 1 b l 0%nat = 19 / 20.
Proof.
  unfold gumbel_softmax, softmax2, pi_open, rand_half.
  set (g := - ln (- ln (1 / 2 + eps) + eps)).
  rewrite !Rdiv_1_r, !exp_plus, !exp_ln by lra.
  pose proof (exp_pos g). field. lra.
Qed.

Lemma gate_P_open b l : gate_P (1 / 10) 1 rand_half pi_open b l 0%nat = 1.
Proof.
  rewrite gate_P_is_Ph. unfold gate_Ph, gate_Ps.
  rewrite gumbel_softmax_open.
  apply (round_half_even_near _ 1). simpl. lra.
Qed.


(** ** The gate in a rounded arithmetic *)

Lemma rnd_zero F : rnd F 0 = 0.
Proof.
  pose proof (rnd_halves F 0 ltac:(lia)) as H.
  replace (IZR 0 / 2) with 0 in H by lra. exact H.
Qed.

Lemma rnd_one F : rnd F 1 = 1.
Proof.
  pose proof (rnd_halves F 2 ltac:(lia)) as H.
  replace (IZR 2 / 2) with 1 in H by lra. exact H.
Qed.

Lemma rnd_minus_half F : rnd F (- (1 / 2)) = - (1 / 2).
Proof.
  pose proof (rnd_halves F (-1) ltac:(lia)) as H.
  replace (IZR (-1) / 2) with (- (1 / 2)) in H by lra. exact H.
Qed.

Lemma round_half_even_low x : - (1 / 2) <= x <= 1 / 2 -> round_half_even x = 0.
Proof.
  intros [Hlo Hhi].
  destruct (Req_dec_T x (- (1 / 2))) as [->|Hn].
  { replace (- (1 / 2)) with (IZR (-1) + 1 / 2) by lra.
    rewrite round_half_even_tie. reflexivity. }
  destruct (Req_dec_T x (1 / 2)) as [->|Hp].
  { replace (1 / 2) with (IZR 0 + 1 / 2) by lra.
    rewrite round_half_even_tie. reflexivity. }
  apply (round_half_even_near x 0). simpl. lra.
Qed.

Lemma round_half_even_high x : 1 / 2 < x < 3 / 2 -> round_half_even x = 1.
Proof. intros H. apply (round_half_even_near x 1). simpl. lra. Qed.

(** [grid24] does round: [2^-25] lies halfway between 0 and [2^-24]. *)
Lemma grid24_rounds : rnd grid24 (/ 2 ^ 25) = 0.
Proof.
  cbn [rnd grid24].
  replace (/ 2 ^ 25 * 2 ^ 24) with (IZR 0 + 1 / 2)
    by (replace (2 ^ 25) with (2 * 2 ^ 24) by (simpl; ring); field).
  rewrite round_half_even_tie. simpl. lra.
Qed.

(** The shifted sample stays between the ties -1/2 and 3/2. *)
Lemma gate_Ps_in_range F (p : T3) masking b l c :
  masking <= 1 / 2 -> rnd F (1 - masking) < 3 / 2 ->
  0 <= p b l c <= 1 ->
  - (1 / 2) <= gate_Ps_in masking F p b l c < 3 / 2.
Proof.
  intros Hm Hhi Hp. unfold gate_Ps_in. split.
  - rewrite <- (rnd_minus_half F). apply rnd_le. lra.
  - apply Rle_lt_trans with (rnd F (1 - masking)); [|exact Hhi].
    apply rnd_le. lra.
Qed.

(** Line 223 gives the hard decision back, in every rounded arithmetic:
    [0 - Ps] is exact by symmetry, [1 - Ps] by Sterbenz. *)
Lemma gate_P_in_is_Ph F (p : T3) masking b l c :
  masking <= 1 / 2 -> rnd F (1 - masking) < 3 / 2 ->
  0 <= p b l c <= 1 ->
  gate_P_in masking F p b l c = gate_Ph_in masking F p b l c
  /\ (gate_Ph_in masking F p b l c = 0 \/ gate_Ph_in masking F p b l c = 1).
Proof.
  intros Hm Hhi Hp.
  pose proof (gate_Ps_in_range F p masking b l c Hm Hhi Hp) as [Hlo Hup].
  assert (Hx : rnd F (gate_Ps_in masking F p b l c)
               = gate_Ps_in masking F p b l c) by apply rnd_rnd.
  unfold gate_P_in, gate_Ph_in.
  set (x := gate_Ps_in masking F p b l c) in *.
  destruct (Rle_dec x (1 / 2)) as [Hle|Hgt].
  - rewrite (round_half_even_low x) by lra.
    replace (0 - x) with (- x) by ring.
    rewrite rnd_opp, Hx.
    replace (- x + x) with 0 by ring.
    rewrite rnd_zero. split; [reflexivity|now left].
  - rewrite (round_half_even_high x) by lra.
    rewrite (rnd_sterbenz F 1 x (rnd_one F) Hx) by lra.
    replace (1 - x + x) with 1 by ring.
    rewrite rnd_one. split; [reflexivity|now right].
Qed.

(** In exact arithmetic the gate of [forward] is this gate, on the relaxed
    sample of [gumbel_softmax]. *)
Lemma gate_P_exact masking temp rand pi b l c :
  gate_P masking temp rand pi b l c
  = gate_P_in masking exact_arith (gumbel_softmax rand pi temp) b l c.
Proof. reflexivity. Qed.

Lemma gumbel_softmax_unit rand pi temp b l c :
  (c < 2)%nat -> 0 <= gumbel_softmax rand pi temp b l c <= 1.
Proof.
  intros Hc. unfold gumbel_softmax.
  match goal with |- context [softmax2 ?q b l c] =>
    pose proof (softmax2_range q b l c Hc) end.
  lra.
Qed.

(** A relaxed sample that binary32 saturates to 1 is doubled by the offset
    -1/2: [Ps = 3/2] is a tie, which rounds to the even 2. *)
Lemma gate_saturated_sample :
  gate_P_in (- (1 / 2)) exact_arith (fun _ _ _ => 1) 0%nat 0%nat 0%nat = 2.
Proof.
  unfold gate_P_in, gate_Ph_in, gate_Ps_in. cbn [rnd exact_arith].
  replace (1 - - (1 / 2)) with (IZR 1 + 1 / 2) by lra.
  rewrite round_half_even_tie. simpl. lra.
Qed.

(** C1, as stated, fails: with the masking offset 3/5 (inside the range
    (0,1) the gate documents), temperature 1 and the positive logits
    (1/20, 19/20), the relaxed probability is 1/20, [Ps = -11/20], and the
    forward value of the gate is -1, outside {0,1}. *)
Lemma relaxed_gate_offset_counterexample :
  0 < 1 /\ (forall b l c, 0 < pi_skewed b l c)
  /\ (forall b l c, 0 <= rand_half b l c < 1)
  /\ gate_P (3 / 5) 1 rand_half pi_skewed 0%nat 0%nat 0%nat = -1
  /\ gate_P_in (3 / 5) exact_arith (gumbel_softmax rand_half pi_skewed 1)
               0%nat 0%nat 0%nat = -1
  /\ ~ (gate_P (3 / 5) 1 rand_half pi_skewed 0%nat 0%nat 0%nat = 0
        \/ gate_P (3 / 5) 1 rand_half pi_skewed 0%nat 0%nat 0%nat = 1).
Proof.
  assert (E : gate_P (3 / 5) 1 rand_half pi_skewed 0%nat 0%nat 0%nat = -1).
  { rewrite gate_P_is_Ph. unfold gate_Ph, gate_Ps.
    rewrite gumbel_softmax_skewed.
    apply (round_half_even_near _ (-1)). simpl. lra. }
  split; [lra|]. split.
  { intros b l [|c]; unfold pi_skewed; lra. }
  split.
  { intros; unfold rand_half; lra. }
  split; [exact E|]. split; [rewrite <- gate_P_exact; exact E|].
  rewrite E. intros [H|H]; lra.
Qed.

(** C1 (amended): let [p] be the relaxed sample
    [softmax((log(logits) + noise) / tau)] that [gumbel_softmax] returned, a
    number between 0 and 1 (0 and 1 included: binary32 saturates), and [m] a
    masking offset with [m <= 1/2] for which [1 - m] still rounds below 3/2
    (in exact arithmetic [-1/2 < m <= 1/2]; every [m] from 0 to 1/2 in every
    arithmetic).  Then, in every rounded arithmetic, the forward value [P] of
    the gate equals [round(p - m)], is 0 or 1, and equals the hard decision
    [Ph]: the two operations of [Ph - Ps + Ps] lose nothing.  In exact
    arithmetic, for positive logits, [tau > 0] and a uniform draw, the sample
    of [gumbel_softmax] is such a [p], the gate of [forward] is this gate,
    and it is 0 or 1. *)
Theorem relaxed_gate_binary (F : format) (p : T3) (masking : R) (b l c : nat) :
  masking <= 1 / 2 -> rnd F (1 - masking) < 3 / 2 ->
  0 <= p b l c <= 1 ->
  (gate_P_in masking F p b l c
   = round_half_even (rnd F (p b l c - masking))
   /\ (gate_P_in masking F p b l c = 0 \/ gate_P_in masking F p b l c = 1)
   /\ gate_P_in masking F p b l c = gate_Ph_in masking F p b l c)
  /\ forall temp rand pi,
       0 < temp ->
       (forall b l c, 0 < pi b l c) ->
       (forall b l c, 0 <= rand b l c < 1) ->
       (c < 2)%nat ->
       0 <= gumbel_softmax rand pi temp b l c <= 1
       /\ gate_P masking temp rand pi b l c
          = gate_P_in masking exact_arith (gumbel_softmax rand pi temp) b l c
       /\ (gate_P masking temp rand pi b l c = 0
           \/ gate_P masking temp rand pi b l c = 1).
Proof.
  intros Hm Hhi Hp.
  destruct (gate_P_in_is_Ph F p masking b l c Hm Hhi Hp) as [E Hbin].
  split.
  - split; [exact E|]. split; [rewrite E; exact Hbin|exact E].
  - intros temp rand pi _ _ _ Hc.
    pose proof (gumbel_softmax_unit rand pi temp b l c Hc) as Hunit.
    assert (Hhi' : rnd exact_arith (1 - masking) < 3 / 2).
    { cbn [rnd exact_arith].
      destruct (Rlt_dec (1 - masking) (3 / 2)) as [Hlt|Hge]; [exact Hlt|].
      exfalso. apply Rnot_lt_le in Hge.
      pose proof (rnd_le F _ _ Hge) as Hle.
      pose proof (rnd_halves F 3 ltac:(lia)) as H3.
      replace (IZR 3 / 2) with (3 / 2) in H3 by lra. lra. }
    destruct (gate_P_in_is_Ph exact_arith (gumbel_softmax rand pi temp) masking
                b l c Hm Hhi' Hunit) as [E' Hbin'].
    split; [exact Hunit|]. split; [apply gate_P_exact|].
    rewrite gate_P_exact, E'. exact Hbin'.
Qed.

(** The offset 1/10 on the sample of [gumbel_softmax], in the arithmetic
    that rounds to the multiples of [2^-24]. *)
Lemma relaxed_gate_binary_witness :
  1 / 10 <= 1 / 2 /\ rnd grid24 (1 - 1 / 10) < 3 / 2
  /\ 0 <= gumbel_softmax rand_half pi_even 1 0%nat 0%nat 0%nat <= 1
  /\ (gate_P_in (1 / 10) grid24 (gumbel_softmax rand_half pi_even 1)
                0%nat 0%nat 0%nat = 0
      \/ gate_P_in (1 / 10) grid24 (gumbel_softmax rand_half pi_even 1)
                   0%nat 0%nat 0%nat = 1).
Proof.
  assert (H1 : 1 / 10 <= 1 / 2) by lra.
  assert (H2 : rnd grid24 (1 - 1 / 10) < 3 / 2).
  { apply Rle_lt_trans with (rnd grid24 1); [apply rnd_le; lra|].
    rewrite rnd_one. lra. }
  assert (H3 : 0 <= gumbel_softmax rand_half pi_even 1 0%nat 0%nat 0%nat <= 1)
    by (apply gumbel_softmax_unit; lia).
  split; [exact H1|]. split; [exact H2|]. split; [exact H3|].
  exact (proj1 (proj2 (proj1 (relaxed_gate_binary
                                grid24 (gumbel_softmax rand_half pi_even 1)
                                (1 / 10) 0%nat 0%nat 0%nat H1 H2 H3)))).
Defined.

(** ** softmask_with_mask *)

Lemma FLT_MAX_pos : 0 < FLT_MAX.
Proof.
  unfold FLT_MAX. apply Rmult_lt_0_compat; [|apply pow_lt; lra].
  assert (/ 2 ^ 23 <= 1).
  { rewrite <- Rinv_1. apply Rinv_le_contravar; [lra|]. apply pow_R1_Rle. lra. }
  lra.
Qed.

Lemma FLT_MAX_lt : FLT_MAX < 2 ^ 128.
Proof.
  unfold FLT_MAX. replace (2 ^ 128) with (2 * 2 ^ 127) by (simpl; ring).
  apply Rmult_lt_compat_r; [apply pow_lt; lra|].
  assert (0 < / 2 ^ 23) by (apply Rinv_0_lt_compat, pow_lt; lra). lra.
Qed.

Lemma fin32_some x : 0 <= x <= FLT_MAX -> fin32 x = Some x.
Proof.
  intros [H0 H1]. unfold fin32. rewrite Rabs_pos_eq by exact H0.
  destruct (Rle_dec x FLT_MAX); [reflexivity|contradiction].
Qed.

Lemma fin32_none x : FLT_MAX < x -> fin32 x = None.
Proof.
  intros H. pose proof FLT_MAX_pos. unfold fin32.
  rewrite Rabs_pos_eq by lra.
  destruct (Rle_dec x FLT_MAX); [lra|reflexivity].
Qed.

Lemma exp_INR n : exp (INR n) = exp 1 ^ n.
Proof.
  induction n as [|n IH]; [simpl; apply exp_0|].
  rewrite S_INR, exp_plus, IH. simpl. ring.
Qed.

(** [exp(200)] is beyond the finite range of binary32. *)
Lemma exp_200_overflows : fin32 (exp 200) = None.
Proof.
  apply fin32_none. apply Rlt_le_trans with (2 ^ 128); [exact FLT_MAX_lt|].
  replace 200 with (INR 200) by (rewrite INR_IZR_INZ; reflexivity).
  rewrite exp_INR.
  apply Rle_trans with (2 ^ 200).
  - apply Rle_pow; [lra|lia].
  - apply pow_incr. pose proof (exp_ineq1 1 ltac:(lra)). lra.
Qed.

Section SoftmaskFacts.
Variable L : nat.
Variables (scores : T3) (masks zeros : T2).
Variables (b d : nat).

Let term (l : nat) : R := exp (scores b l d) * masks b l * (1 - zeros b l).
Let total : R := rsum L term.

Hypothesis Hmasks : is_mask_row L masks b.
Hypothesis Hzeros : is_mask_row L zeros b.

Lemma softmask_term_nonneg l : (l < L)%nat -> 0 <= term l.
Proof.
  intros Hl. unfold term. pose proof (exp_pos (scores b l d)).
  destruct (Hmasks l Hl) as [E|E], (Hzeros l Hl) as [E'|E'];
    rewrite E, E'; lra.
Qed.

Lemma softmask_total_nonneg : 0 <= total.
Proof. apply rsum_nonneg, softmask_term_nonneg. Qed.

Lemma softmask_divisor_pos : 0 < total + eps9.
Proof.
  pose proof softmask_total_nonneg. unfold eps9.
  assert (0 < / 10 ^ 9) by (apply Rinv_0_lt_compat; lra). lra.
Qed.

(** No exponential and no sum leaves the finite range. *)
Hypothesis Hexp : forall l, (l < L)%nat -> exp (scores b l d) <= FLT_MAX.
Hypothesis Htotal : total + eps9 <= FLT_MAX.

Lemma softmask_value l :
  (l < L)%nat ->
  softmask_with_mask L (fun b l d => Some (scores b l d)) masks zeros b l d
  = Some (term l / (total + eps9)).
Proof.
  intros Hl. unfold softmask_with_mask. cbn [xbind].
  rewrite (xsum_some L _ term).
  - cbn [xbind]. fold total.
    pose proof softmask_divisor_pos as Hpos.
    rewrite (fin32_some (total + eps9)) by lra.
    rewrite (fin32_some (exp (scores b l d)))
      by (split; [left; apply exp_pos|apply Hexp; exact Hl]).
    cbn [xmap xdiv]. apply tdiv_some. lra.
  - intros l' Hl'.
    rewrite (fin32_some (exp (scores b l' d)))
      by (split; [left; apply exp_pos|apply Hexp; exact Hl']).
    reflexivity.
Qed.

Lemma softmask_term_outside l :
  (l < L)%nat -> real_nonstructural masks zeros b l = false -> term l = 0.
Proof.
  intros Hl. unfold real_nonstructural, term.
  destruct (Req_dec_T (masks b l) 1) as [E1|N1].
  - destruct (Req_dec_T (zeros b l) 0) as [E0|N0]; [discriminate|].
    intros _. destruct (Hzeros l Hl) as [E|E]; [contradiction|].
    rewrite E. ring.
  - intros _. destruct (Hmasks l Hl) as [E|E]; [|contradiction].
    rewrite E. ring.
Qed.

Lemma softmask_sum_real_nonstructural :
  xsum L (fun l =>
            if real_nonstructural masks zeros b l
            then softmask_with_mask L (fun b l d => Some (scores b l d))
                                    masks zeros b l d
            else Some 0)
  = Some (total / (total + eps9)).
Proof.
  rewrite (xsum_some L _ (fun l => term l * / (total + eps9))).
  - rewrite rsum_scal. reflexivity.
  - intros l Hl.
    destruct (real_nonstructural masks zeros b l) eqn:E.
    + rewrite softmask_value by assumption. reflexivity.
    + rewrite (softmask_term_outside l Hl E). f_equal. ring.
Qed.

Lemma softmask_total_pos l :
  (l < L)%nat -> masks b l = 1 -> zeros b l = 0 -> 0 < total.
Proof.
  intros Hl E1 E0.
  pose proof (rsum_ge_term L term l softmask_term_nonneg Hl) as Hge.
  fold total in Hge. unfold term at 1 in Hge. rewrite E1, E0 in Hge.
  pose proof (exp_pos (scores b l d)). lra.
Qed.

(** A real non-structural position with a score of at least 0 contributes
    at least 1 to the sum. *)
Lemma softmask_total_ge_1 l :
  (l < L)%nat -> masks b l = 1 -> zeros b l = 0 -> 0 <= scores b l d ->
  1 <= total.
Proof.
  intros Hl E1 E0 Hs.
  pose proof (rsum_ge_term L term l softmask_term_nonneg Hl) as Hge.
  fold total in Hge. unfold term at 1 in Hge. rewrite E1, E0 in Hge.
  pose proof (exp_ineq1_le (scores b l d)). lra.
Qed.
End SoftmaskFacts.

Lemma m_first_mask : is_mask_row 2 m_first 0%nat.
Proof. intros [|l] _; unfold m_first; [right|left]; reflexivity. Qed.

Lemma z_none_mask : is_mask_row 2 z_none 0%nat.
Proof. intros l _. left. reflexivity. Qed.

(** C2, as stated, fails: with the scores (0, 200), the first position real
    and the second padding, [exp(200)] is [inf] in binary32, its product
    with the mask 0 is [nan], and so are the sum and every entry of the
    output: the padding position does not get the weight 0, and the entry
    of the real position is no number either. *)
Lemma softmask_overflow_counterexample :
  is_mask_row 2 m_first 0%nat /\ is_mask_row 2 z_none 0%nat
  /\ (exists l, (l < 2)%nat /\ m_first 0%nat l = 1 /\ z_none 0%nat l = 0)
  /\ m_first 0%nat 1%nat = 0
  /\ softmask_with_mask 2 (fun b l d => Some (scores_big b l d)) m_first z_none
                        0%nat 1%nat 0%nat = None
  /\ softmask_with_mask 2 (fun b l d => Some (scores_big b l d)) m_first z_none
                        0%nat 0%nat 0%nat = None
  /\ softmask_with_mask 2 (fun b l d => Some (scores_big b l d)) m_first z_none
                        0%nat 1%nat 0%nat <> Some 0.
Proof.
  assert (E : forall l,
             softmask_with_mask 2 (fun b l d => Some (scores_big b l d)) m_first
                                z_none 0%nat l 0%nat = None).
  { intros l. unfold softmask_with_mask. cbn [xbind xsum].
    replace (fin32 (exp (scores_big 0%nat 1%nat 0%nat))) with (@None R)
      by (symmetry; exact exp_200_overflows).
    cbn [xmap xmap2 xbind].
    destruct (xmap _ (fin32 (exp (scores_big 0%nat 0%nat 0%nat))));
      cbn [xmap2 xbind]; destruct (xmap _ _); reflexivity. }
  split; [exact m_first_mask|]. split; [exact z_none_mask|]. split.
  { exists 0%nat. split; [lia|]. split; reflexivity. }
  split; [reflexivity|]. split; [apply E|]. split; [apply E|].
  rewrite E. discriminate.
Qed.

(** C2 (amended): for 0/1 masks [masks] and [zeros] and scores whose
    exponentials and whose masked sum stay below half the largest finite
    binary32 number, clear of any overflow (as the sigmoid values that
    [forward] passes do), every entry of
    [softmask_with_mask] is defined (the divisor [sum + 1e-9] is positive),
    the entry is exactly 0 wherever [masks = 0] or [zeros = 1], and, when
    some position has [masks = 1] and [zeros = 0], the entries at the real
    non-structural positions of an example sum, in exact arithmetic, to
    [sum / (sum + 1e-9)], a value between 0 and 1 that misses 1 by
    [1e-9 / (sum + 1e-9)]: by at most 1e-9 once [sum >= 1], as when one of
    those positions has a score of at least 0. *)
Theorem softmask_normalised (L : nat) (scores : T3) (masks zeros : T2)
        (b d : nat) :
  is_mask_row L masks b -> is_mask_row L zeros b ->
  let out := softmask_with_mask L (fun b l d => Some (scores b l d)) masks zeros in
  let total := rsum L (fun l => exp (scores b l d) * masks b l * (1 - zeros b l)) in
  (forall l, (l < L)%nat -> 2 * exp (scores b l d) <= FLT_MAX) ->
  2 * (total + eps9) <= FLT_MAX ->
  (forall l, (l < L)%nat ->
     total + eps9 <> 0
     /\ out b l d
        = Some (exp (scores b l d) * masks b l * (1 - zeros b l) / (total + eps9)))
  /\ (forall l, (l < L)%nat -> masks b l = 0 \/ zeros b l = 1 ->
        out b l d = Some 0)
  /\ ((exists l, (l < L)%nat /\ masks b l = 1 /\ zeros b l = 0) ->
        xsum L (fun l => if real_nonstructural masks zeros b l
                         then out b l d else Some 0)
        = Some (total / (total + eps9))
        /\ 0 <= total / (total + eps9) <= 1
        /\ 1 - total / (total + eps9) = eps9 / (total + eps9)
        /\ (1 <= total -> 1 - eps9 <= total / (total + eps9))
        /\ ((exists l, (l < L)%nat /\ masks b l = 1 /\ zeros b l = 0
                       /\ 0 <= scores b l d) -> 1 <= total)).
Proof.
  intros Hm Hz out total Hexp2 Htot2.
  pose proof (softmask_divisor_pos L scores masks zeros b d Hm Hz) as Hpos.
  fold total in Hpos.
  assert (Hexp : forall l, (l < L)%nat -> exp (scores b l d) <= FLT_MAX).
  { intros l Hl. specialize (Hexp2 l Hl).
    pose proof (exp_pos (scores b l d)). lra. }
  assert (Htot : total + eps9 <= FLT_MAX) by lra.
  assert (He : 0 < eps9).
  { unfold eps9. apply Rinv_0_lt_compat. lra. }
  split; [|split].
  - intros l Hl. split; [lra|].
    apply (softmask_value L scores masks zeros b d Hm Hz Hexp Htot l Hl).
  - intros l Hl Hout. unfold out.
    rewrite (softmask_value L scores masks zeros b d Hm Hz Hexp Htot l Hl).
    f_equal. destruct Hout as [E|E]; rewrite E; unfold Rdiv; ring.
  - intros (l & Hl & E1 & E0).
    pose proof (softmask_total_pos L scores masks zeros b d Hm Hz l Hl E1 E0)
      as Htotal.
    fold total in Htotal.
    assert (Hinv : 0 < / (total + eps9)) by (apply Rinv_0_lt_compat; lra).
    split; [|split; [split|split; [|split]]].
    + apply (softmask_sum_real_nonstructural L scores masks zeros b d Hm Hz
               Hexp Htot).
    + left. apply Rdiv_lt_0_compat; lra.
    + apply (Rmult_le_reg_r (total + eps9)); [lra|].
      unfold Rdiv. rewrite Rmult_assoc, Rinv_l by lra. lra.
    + field. lra.
    + intros H1. apply (Rmult_le_reg_r (total + eps9)); [lra|].
      unfold Rdiv. rewrite Rmult_assoc, Rinv_l by lra. nra.
    + intros (l' & Hl' & E1' & E0' & Hs).
      apply (softmask_total_ge_1 L scores masks zeros b d Hm Hz l' Hl' E1' E0' Hs).
Qed.

Lemma softmask_normalised_witness :
  is_mask_row 2 m_first 0%nat /\ is_mask_row 2 z_none 0%nat
  /\ (forall l, (l < 2)%nat -> 2 * exp (t3_zero 0%nat l 0%nat) <= FLT_MAX)
  /\ 2 * (rsum 2 (fun l => exp (t3_zero 0%nat l 0%nat) * m_first 0%nat l
                           * (1 - z_none 0%nat l)) + eps9) <= FLT_MAX
  /\ softmask_with_mask 2 (fun b l d => Some (t3_zero b l d)) m_first z_none
                        0%nat 1%nat 0%nat = Some 0
  /\ softmask_with_mask 2 (fun b l d => Some (t3_zero b l d)) m_first z_none
                        0%nat 0%nat 0%nat = Some (1 / (1 + eps9)).
Proof.
  assert (Hbig : 4 <= FLT_MAX).
  { unfold FLT_MAX.
    assert (/ 2 ^ 23 <= 1).
    { rewrite <- Rinv_1. apply Rinv_le_contravar; [lra|]. apply pow_R1_Rle. lra. }
    assert (H2 : 2 ^ 2 <= 2 ^ 127) by (apply Rle_pow; [lra|lia]).
    simpl (2 ^ 2) in H2. nra. }
  assert (He : 0 < eps9 <= 1).
  { unfold eps9. split; [apply Rinv_0_lt_compat; lra|].
    rewrite <- Rinv_1. apply Rinv_le_contravar; lra. }
  assert (H3 : forall l, (l < 2)%nat ->
                 2 * exp (t3_zero 0%nat l 0%nat) <= FLT_MAX).
  { intros l _. unfold t3_zero. rewrite exp_0. lra. }
  assert (Hsum : rsum 2 (fun l => exp (t3_zero 0%nat l 0%nat) * m_first 0%nat l
                                  * (1 - z_none 0%nat l)) = 1).
  { unfold t3_zero, m_first, z_none. simpl. rewrite exp_0. lra. }
  assert (H4 : 2 * (rsum 2 (fun l => exp (t3_zero 0%nat l 0%nat)
                                     * m_first 0%nat l
                                     * (1 - z_none 0%nat l)) + eps9)
               <= FLT_MAX)
    by (rewrite Hsum; lra).
  split; [exact m_first_mask|]. split; [exact z_none_mask|].
  split; [exact H3|]. split; [exact H4|].
  pose proof (softmask_normalised 2 t3_zero m_first z_none 0%nat 0%nat
                m_first_mask z_none_mask H3 H4) as (Hval & Hout & _).
  split.
  - apply (Hout 1%nat); [lia|]. left. reflexivity.
  - destruct (Hval 0%nat ltac:(lia)) as [_ E]. rewrite E, Hsum.
    unfold t3_zero, m_first, z_none. rewrite exp_0. f_equal. lra.
Defined.

(** ** The structural-token mask *)

Lemma structural_some B L seg :
  (forall b, (b < B)%nat -> (1 <= zsum L (seg b) <= Z.of_nat L)%Z) ->
  structural B L seg = Some (structural_mask L seg).
Proof.
  intros Hs. unfold structural, scatter_1.
  assert (E1 : forallb (fun b => (0 <=? seg_index L seg b)%Z
                                 && (seg_index L seg b <? Z.of_nat L)%Z)
                       (seq 0 B) = true).
  { apply forallb_forall. intros b Hb. apply in_seq in Hb.
    specialize (Hs b ltac:(lia)). unfold seg_index.
    apply andb_true_intro. split; [apply Z.leb_le | apply Z.ltb_lt]; lia. }
  assert (E2 : forallb (fun _ : nat => (0 <=? 0)%Z && (0 <? Z.of_nat L)%Z)
                       (seq 0 B) = true).
  { apply forallb_forall. intros b Hb. apply in_seq in Hb.
    specialize (Hs b ltac:(lia)).
    apply andb_true_intro. split; [apply Z.leb_le | apply Z.ltb_lt]; lia. }
  rewrite E1, E2. reflexivity.
Qed.

(** Whenever both scatters succeed, the mask has only the values 0 and 1. *)
Lemma structural_values B L seg zeros :
  structural B L seg = Some zeros ->
  forall b l, zeros b l = 0 \/ zeros b l = 1.
Proof.
  unfold structural, scatter_1. intros H b l.
  destruct (forallb _ _); [|discriminate].
  destruct (forallb _ _); [|discriminate].
  injection H as <-.
  destruct (Z.of_nat l =? 0)%Z; [now right|].
  destruct (Z.of_nat l =? seg_index L seg b)%Z; [now right|now left].
Qed.


(** ** Masked input embeddings *)

Lemma embedded_inputs_structural P inp memb (zeros : T2) b l d :
  zeros b l = 1 -> embedded_inputs P inp memb zeros b l d = inp b l d.
Proof. intros E. unfold embedded_inputs. rewrite E. ring. Qed.

Lemma embedded_inputs_free P inp memb (zeros : T2) b l d :
  zeros b l = 0 ->
  embedded_inputs P inp memb zeros b l d
  = (1 - P b l 0%nat) * inp b l d + P b l 0%nat * memb b l d.
Proof. intros E. unfold embedded_inputs, P0. rewrite E. ring. Qed.

Lemma seg_three_mask : is_mask 1 3 seg_three.
Proof. intros b l _ _. right. reflexivity. Qed.

Lemma seg_two_mask : is_mask 1 3 seg_two.
Proof.
  intros b l _ _. unfold seg_two. destruct (l <? 2)%nat; [now right|now left].
Qed.

Lemma seg_three_structural :
  structural 1 3 seg_three = Some (structural_mask 3 seg_three).
Proof.
  apply structural_some. intros b _. simpl. lia.
Qed.

Lemma seg_three_sums b : (b < 1)%nat -> (1 <= zsum 3 (seg_three b) <= Z.of_nat 3)%Z.
Proof. intros _. simpl. lia. Qed.

Lemma structural_some_inv B L seg zeros :
  structural B L seg = Some zeros ->
  forall b, (b < B)%nat -> (1 <= zsum L (seg b) <= Z.of_nat L)%Z.
Proof.
  unfold structural, scatter_1. intros H b Hb.
  destruct (forallb _ (seq 0 B)) eqn:E1; [|discriminate].
  rewrite forallb_forall in E1.
  assert (Hin : In b (seq 0 B)) by (apply in_seq; lia).
  specialize (E1 b Hin). apply andb_prop in E1 as [H1 H2].
  apply Z.leb_le in H1. apply Z.ltb_lt in H2. unfold seg_index in *. lia.
Qed.

(** ** What forward returns *)

Lemma sum_last4_some hs : hs <> [] -> exists t, sum_last4 hs = Some t.
Proof.
  intros Hne. unfold sum_last4.
  destruct (skipn (List.length hs - 4) hs) as [|h r] eqn:E; [|eauto].
  exfalso. apply (f_equal (@List.length T3)) in E.
  rewrite length_skipn in E. destruct hs; [contradiction|].
  cbn [List.length] in E. lia.
Qed.

Lemma sum_last4_nil : sum_last4 [] = None.
Proof. reflexivity. Qed.

Lemma bert_echo_layers e s : bert_echo e s <> [].
Proof. unfold bert_echo. discriminate. Qed.

Ltac forward_inv Hf hs :=
  match type of Hf with
  | context [sum_last4 ?o] =>
      destruct (sum_last4 o) as [hs|]; [|discriminate Hf]
  end.

Lemma forward_some
      (B L : nat) (mlps : T4 -> T3) (bert : T3 -> Z2 -> list T3)
      (dcs : T2 -> X2) (dcp : X2 -> X2) (masking temp : R)
      (rand hidden inp memb : T3) (seg : Z2) (z : T4) :
  (forall e s, bert e s <> []) ->
  (forall b, (b < B)%nat -> (1 <= zsum L (seg b) <= Z.of_nat L)%Z) ->
  exists out,
    forward B L mlps bert dcs dcp masking temp rand hidden inp memb seg z
    = Some out.
Proof.
  intros Hbert H. unfold forward. rewrite (structural_some B L seg H).
  destruct (sum_last4_some _ (Hbert
              (embedded_inputs (gate_P masking temp rand (mlps z)) inp memb
                               (structural_mask L seg)) seg)) as [hs E].
  rewrite E. eauto.
Qed.

(** Without hidden states line 241 raises, whatever the segment mask. *)
Lemma forward_without_layers
      (B L : nat) (mlps : T4 -> T3) (dcs : T2 -> X2) (dcp : X2 -> X2)
      (masking temp : R) (rand hidden inp memb : T3) (seg : Z2) (z : T4) :
  forward B L mlps bert_none dcs dcp masking temp rand hidden inp memb seg z
  = None.
Proof. unfold forward. destruct (structural B L seg); reflexivity. Qed.

(** The fields of the result that do not go through the encoder. *)
Lemma forward_fields
      (B L : nat) (mlps : T4 -> T3) (bert : T3 -> Z2 -> list T3)
      (dcs : T2 -> X2) (dcp : X2 -> X2) (masking temp : R)
      (rand hidden inp memb : T3) (seg : Z2) (z : T4) zeros out :
  structural B L seg = Some zeros ->
  forward B L mlps bert dcs dcp masking temp rand hidden inp memb seg z
  = Some out ->
  let P := gate_P masking temp rand (mlps z) in
  input_e out = embedded_inputs P inp memb zeros
  /\ mask_perc out = mask_percentage L P seg zeros
  /\ y_pred2 out = dcp (private_rep2 L P hidden seg zeros)
  /\ private_rep out
     = (fun b l d =>
          xmap (fun w => hidden b l d * w * IZR (seg b l) * (1 - zeros b l))
               (softmask_with_mask L
                  (fun b l d =>
                     xmap sigmoid
                          (xmap (fun pr => hidden b l d * IZR (seg b l)
                                           * (1 - zeros b l) * pr)
                                (private_rep2 L P hidden seg zeros b d)))
                  (fun b l => IZR (seg b l)) zeros b l d)).
Proof.
  intros Hst Hf P. unfold forward in Hf. rewrite Hst in Hf.
  forward_inv Hf hs. injection Hf as <-. cbn. repeat split; reflexivity.
Qed.



(** ** Degenerate pooling *)

Section Pooling.
Variables (B L : nat) (masking temp : R) (rand pi hidden : T3).
Variables (seg : Z2) (zeros : T2) (b : nat).

Let P := gate_P masking temp rand pi.
Let term (l : nat) : R := P0 P b l * IZR (seg b l) * (1 - zeros b l).

Hypothesis Hseg : is_mask B L seg.
Hypothesis Hb : (b < B)%nat.
Hypothesis Hzeros : forall l, zeros b l = 0 \/ zeros b l = 1.



Lemma pool_divisor_nonzero : pool_divisor L P seg zeros b <> 0.
Proof.
  unfold pool_divisor.
  destruct (Req_dec_T (pool_sum L P seg zeros b) 0) as [E|N]; lra.
Qed.


End Pooling.





(** ** The mask percentage *)

Section MaskPercentage.
Variables (B L : nat) (seg : Z2) (b : nat).
Hypothesis Hseg : is_mask B L seg.
Hypothesis Hb : (b < B)%nat.

Let zeros := structural_mask L seg.
Let at_first (l : nat) : R := if (Z.of_nat l =? 0)%Z then 1 else 0.
Let at_last (l : nat) : R :=
  if (Z.of_nat l =? seg_index L seg b)%Z then 1 else 0.

Lemma structural_mask_values l : zeros b l = 0 \/ zeros b l = 1.
Proof.
  unfold zeros, structural_mask.
  destruct (Z.of_nat l =? 0)%Z; [now right|].
  destruct (Z.of_nat l =? seg_index L seg b)%Z; [now right|now left].
Qed.

(** At most two real tokens are structural. *)
Lemma real_nonstructural_count :
  IZR (zsum L (seg b)) - 2
  <= rsum L (fun l => IZR (seg b l) * (1 - zeros b l)).
Proof.
  assert (H1 : rsum L at_first <= 1).
  { apply (rsum_single_le L at_first 0).
    - intros l _ Hl. unfold at_first.
      replace (Z.of_nat l =? 0)%Z with false; [reflexivity|].
      symmetry. apply Z.eqb_neq. lia.
    - intros l _. unfold at_first. destruct (_ =? _)%Z; lra. }
  assert (H2 : rsum L at_last <= 1).
  { apply (rsum_single_le L at_last (Z.to_nat (seg_index L seg b))).
    - intros l _ Hl. unfold at_last.
      replace (Z.of_nat l =? seg_index L seg b)%Z with false; [reflexivity|].
      symmetry. apply Z.eqb_neq. unfold seg_index in *. lia.
    - intros l _. unfold at_last. destruct (_ =? _)%Z; lra. }
  assert (H3 : rsum L (fun l => IZR (seg b l) + (- at_first l + - at_last l))
               <= rsum L (fun l => IZR (seg b l) * (1 - zeros b l))).
  { apply rsum_le. intros l Hl.
    unfold zeros, structural_mask, at_first, at_last.
    destruct (Hseg b l Hb Hl) as [E|E]; rewrite E;
      destruct (Z.of_nat l =? 0)%Z;
      destruct (Z.of_nat l =? seg_index L seg b)%Z; simpl; lra. }
  rewrite rsum_plus, rsum_plus, !rsum_opp, rsum_IZR in H3. lra.
Qed.

Variables (masking temp : R) (rand pi : T3).
Hypothesis Hmasking : - (1 / 2) <= masking <= 1 / 2.
Let P := gate_P masking temp rand pi.

End MaskPercentage.

(** Line 268 has no guard like that of line 254: an example whose segment
    mask sums to exactly 2 ([CLS] and [SEP] only) has no real non-structural
    position, the divisor is 0, and [mask_perc] is the non-finite 0/0. *)
Lemma mask_perc_unguarded_divisor :
  exists out,
    forward 1 3 mlps_even bert_echo dcs_id dcp_id (1 / 10) 1 rand_half
            t3_one t3_one t3_zero seg_two t4_zero = Some out
    /\ mask_perc out 0%nat = None.
Proof.
  assert (Hrange : forall b, (b < 1)%nat ->
                     (1 <= zsum 3 (seg_two b) <= Z.of_nat 3)%Z).
  { intros b _. simpl. lia. }
  destruct (forward_some 1 3 mlps_even bert_echo dcs_id dcp_id (1 / 10) 1
              rand_half t3_one t3_one t3_zero seg_two t4_zero
              bert_echo_layers Hrange) as [out Hf].
  exists out. split; [exact Hf|].
  destruct (forward_fields 1 3 mlps_even bert_echo dcs_id dcp_id (1 / 10) 1
              rand_half t3_one t3_one t3_zero seg_two t4_zero _ out
              (structural_some 1 3 seg_two Hrange) Hf) as (_ & Hp & _).
  rewrite Hp. unfold mask_percentage.
  replace (rsum 3 (fun l => IZR (seg_two 0%nat l)
                            * (1 - structural_mask 3 seg_two 0%nat l)))
    with 0; [apply tdiv_zero|].
  unfold structural_mask, seg_index, seg_two. simpl. lra.
Qed.




(** ** Further properties of gumbel_softmax and the gate *)

Lemma eps_pos : 0 < eps.
Proof. unfold eps. apply Rinv_0_lt_compat, pow_lt. lra. Qed.

Lemma ln_one_plus_lt x : 0 < x -> ln (1 + x) < x.
Proof.
  intros Hx. rewrite <- (ln_exp x) at 2.
  apply ln_increasing; [lra|]. apply exp_ineq1. lra.
Qed.

Lemma softmax2_sum (p : T3) b l :
  softmax2 p b l 0%nat + softmax2 p b l 1%nat = 1.
Proof.
  unfold softmax2.
  pose proof (exp_pos (p b l 0%nat)). pose proof (exp_pos (p b l 1%nat)).
  field. lra.
Qed.

(** X1: for positive logits, a temperature [tau > 0] and a uniform draw in
    [0,1), the two logarithms of line 33 are taken of positive numbers (the
    two [eps] guards suffice), and the relaxed sample is, in exact
    arithmetic, a probability vector over the two channels: each entry lies
    strictly between 0 and 1 and the two entries sum to 1. *)
Theorem gumbel_softmax_distribution (rand logits : T3) (tau : R) (b l : nat) :
  0 < tau ->
  (forall c, (c < 2)%nat -> 0 < logits b l c) ->
  (forall c, (c < 2)%nat -> 0 <= rand b l c < 1) ->
  (forall c, (c < 2)%nat ->
     0 < rand b l c + eps
     /\ 0 < - ln (rand b l c + eps) + eps
     /\ 0 < gumbel_softmax rand logits tau b l c < 1)
  /\ gumbel_softmax rand logits tau b l 0%nat
     + gumbel_softmax rand logits tau b l 1%nat = 1.
Proof.
  intros _ _ Hr. pose proof eps_pos as He. split.
  - intros c Hc. destruct (Hr c Hc) as [H0 H1].
    split; [lra|]. split.
    + assert (ln (rand b l c + eps) < ln (1 + eps))
        by (apply ln_increasing; lra).
      pose proof (ln_one_plus_lt eps He). lra.
    + apply softmax2_range. exact Hc.
  - apply softmax2_sum.
Qed.

Lemma gumbel_softmax_distribution_witness :
  0 < 1
  /\ (forall c, (c < 2)%nat -> 0 < pi_skewed 0%nat 0%nat c)
  /\ (forall c, (c < 2)%nat -> 0 <= rand_half 0%nat 0%nat c < 1)
  /\ gumbel_softmax rand_half pi_skewed 1 0%nat 0%nat 0%nat
     + gumbel_softmax rand_half pi_skewed 1 0%nat 0%nat 1%nat = 1.
Proof.
  assert (Hp : forall c, (c < 2)%nat -> 0 < pi_skewed 0%nat 0%nat c)
    by (intros c _; apply pi_skewed_pos).
  assert (H : forall c, (c < 2)%nat -> 0 <= rand_half 0%nat 0%nat c < 1)
    by (intros c _; apply rand_half_range).
  split; [exact Rlt_0_1|]. split; [exact Hp|]. split; [exact H|].
  exact (proj2 (gumbel_softmax_distribution rand_half pi_skewed 1 0%nat 0%nat
                  Rlt_0_1 Hp H)).
Defined.

Lemma gate_P_threshold (masking temp : R) (rand pi : T3) (b l c : nat) :
  - (1 / 2) <= masking <= 1 / 2 -> (c < 2)%nat ->
  (gate_P masking temp rand pi b l c = 1
   <-> 1 / 2 + masking < gumbel_softmax rand pi temp b l c)
  /\ (gate_P masking temp rand pi b l c = 0
      <-> gumbel_softmax rand pi temp b l c <= 1 / 2 + masking).
Proof.
  intros Hm Hc.
  pose proof (gate_Ps_range masking temp rand pi b l c Hc) as Hr.
  rewrite gate_P_is_Ph. unfold gate_Ph. unfold gate_Ps in *.
  set (p := gumbel_softmax rand pi temp b l c) in *.
  destruct (Rtotal_order (p - masking) (1 / 2)) as [Hlt|[Heq|Hgt]].
  - rewrite (round_half_even_near (p - masking) 0) by (simpl; lra).
    simpl. split; split; intros; lra.
  - rewrite Heq. replace (1 / 2) with (IZR 0 + 1 / 2) at 1 3 by (simpl; lra).
    rewrite round_half_even_tie. simpl. split; split; intros; lra.
  - rewrite (round_half_even_near (p - masking) 1) by (simpl; lra).
    split; split; intros; lra.
Qed.

(** X2: for positive logits, a temperature [tau > 0], a uniform draw in
    [0,1) and a masking offset [m] with [-1/2 <= m <= 1/2], the gate is a
    threshold on the relaxed probability: its forward value is 1 exactly
    when the probability exceeds [1/2 + m], and 0 otherwise (a probability
    of exactly [1/2 + m] gives 0). *)
Theorem gate_threshold (masking temp : R) (rand pi : T3) (b l c : nat) :
  0 < temp ->
  (forall b l c, 0 < pi b l c) ->
  (forall b l c, 0 <= rand b l c < 1) ->
  - (1 / 2) <= masking <= 1 / 2 -> (c < 2)%nat ->
  (gate_P masking temp rand pi b l c = 1
   <-> 1 / 2 + masking < gumbel_softmax rand pi temp b l c)
  /\ (gate_P masking temp rand pi b l c = 0
      <-> gumbel_softmax rand pi temp b l c <= 1 / 2 + masking).
Proof. intros _ _ _. apply gate_P_threshold. Qed.

Lemma gate_threshold_witness :
  0 < 1
  /\ (forall b l c, 0 < pi_skewed b l c)
  /\ (forall b l c, 0 <= rand_half b l c < 1)
  /\ - (1 / 2) <= 1 / 10 <= 1 / 2 /\ (0 < 2)%nat
  /\ (gate_P (1 / 10) 1 rand_half pi_skewed 0%nat 0%nat 0%nat = 0
      <-> gumbel_softmax rand_half pi_skewed 1 0%nat 0%nat 0%nat
          <= 1 / 2 + 1 / 10).
Proof.
  assert (H1 : - (1 / 2) <= 1 / 10 <= 1 / 2) by lra.
  split; [exact Rlt_0_1|]. split; [exact pi_skewed_pos|].
  split; [exact rand_half_range|].
  split; [exact H1|]. split; [exact (Nat.lt_0_succ 1)|].
  exact (proj2 (gate_threshold (1 / 10) 1 rand_half pi_skewed 0%nat 0%nat 0%nat
                  Rlt_0_1 pi_skewed_pos rand_half_range H1 (Nat.lt_0_succ 1))).
Defined.

Lemma half_share e0 e1 :
  0 < e0 -> 0 < e1 -> (1 / 2 + 0 < e0 / (e0 + e1) <-> e1 < e0).
Proof.
  intros H0 H1.
  assert (E : e0 / (e0 + e1) = 1 / 2 + (e0 - e1) * / (2 * (e0 + e1)))
    by (field; lra).
  assert (Hi : 0 < / (2 * (e0 + e1))) by (apply Rinv_0_lt_compat; lra).
  rewrite E. split; intros H; nra.
Qed.

(** X3: without offset ([masking = 0]), for positive logits, a uniform
    draw in [0,1) and any temperature [tau > 0], the hard decision is the
    Gumbel-max rule: channel 0 of the gate is 1 exactly when its perturbed
    log-logit [log(logits) + noise] is strictly larger than that of
    channel 1; the temperature does not change the decision. *)
Theorem gate_argmax (temp : R) (rand pi : T3) (b l : nat) :
  0 < temp ->
  (forall b l c, 0 < pi b l c) ->
  (forall b l c, 0 <= rand b l c < 1) ->
  (gate_P 0 temp rand pi b l 0%nat = 1
   <-> perturbed rand pi b l 1%nat < perturbed rand pi b l 0%nat).
Proof.
  intros Ht _ _.
  assert (Hm : - (1 / 2) <= 0 <= 1 / 2) by lra.
  rewrite (proj1 (gate_P_threshold 0 temp rand pi b l 0%nat Hm (Nat.lt_0_succ 1))).
  unfold gumbel_softmax, softmax2. fold (perturbed rand pi b l 0%nat).
  fold (perturbed rand pi b l 1%nat).
  set (x0 := perturbed rand pi b l 0%nat). set (x1 := perturbed rand pi b l 1%nat).
  pose proof (exp_pos (x0 / temp)) as E0. pose proof (exp_pos (x1 / temp)) as E1.
  pose proof (half_share _ _ E0 E1) as Hdiv.
  rewrite Hdiv. split; intros H.
  - apply exp_lt_inv in H.
    apply (Rmult_lt_reg_r (/ temp)); [apply Rinv_0_lt_compat; exact Ht|].
    exact H.
  - apply exp_increasing.
    apply (Rmult_lt_compat_r (/ temp)); [apply Rinv_0_lt_compat; exact Ht|].
    exact H.
Qed.

Lemma gate_argmax_witness :
  0 < 1
  /\ (forall b l c, 0 < pi_skewed b l c)
  /\ (forall b l c, 0 <= rand_half b l c < 1)
  /\ (gate_P 0 1 rand_half pi_skewed 0%nat 0%nat 0%nat = 1
      <-> perturbed rand_half pi_skewed 0%nat 0%nat 1%nat
          < perturbed rand_half pi_skewed 0%nat 0%nat 0%nat).
Proof.
  split; [exact Rlt_0_1|]. split; [exact pi_skewed_pos|].
  split; [exact rand_half_range|].
  exact (gate_argmax 1 rand_half pi_skewed 0%nat 0%nat Rlt_0_1 pi_skewed_pos
           rand_half_range).
Defined.

(** ** Further properties of SharedPart.forward *)

(** X4: with an encoder that hands back at least one layer of hidden
    states (the networks themselves are taken to return), [forward] returns
    exactly when the segment mask of every example of the batch sums to a
    value between 1 and [MAX_LENGTH]; an example that is all padding
    (sum 0) makes the scatter of line 228 fail.  When it returns, the
    structural mask it built flags position 0 and position [sum - 1]. *)
Theorem forward_returns_iff
        (B L : nat) (mlps : T4 -> T3) (bert : T3 -> Z2 -> list T3)
        (dcs : T2 -> X2) (dcp : X2 -> X2) (masking temp : R)
        (rand hidden inp memb : T3) (seg : Z2) (z : T4) :
  (forall e s, bert e s <> []) ->
  ((exists out,
      forward B L mlps bert dcs dcp masking temp rand hidden inp memb seg z
      = Some out)
   <-> forall b, (b < B)%nat -> (1 <= zsum L (seg b) <= Z.of_nat L)%Z)
  /\ ((exists b, (b < B)%nat /\ zsum L (seg b) = 0%Z) ->
      forward B L mlps bert dcs dcp masking temp rand hidden inp memb seg z
      = None)
  /\ (forall zeros, structural B L seg = Some zeros ->
        forall b l, (b < B)%nat ->
          zeros b l = 1 <-> (l = 0%nat \/ Z.of_nat l = zsum L (seg b) - 1)%Z).
Proof.
  intros Hbert.
  assert (Hiff : (exists out,
      forward B L mlps bert dcs dcp masking temp rand hidden inp memb seg z
      = Some out)
   <-> forall b, (b < B)%nat -> (1 <= zsum L (seg b) <= Z.of_nat L)%Z).
  { split.
    - intros [out H]. unfold forward in H.
      destruct (structural B L seg) as [zeros|] eqn:E; [|discriminate].
      apply (structural_some_inv B L seg zeros E).
    - intros H. apply forward_some; assumption. }
  split; [exact Hiff|]. split.
  - intros (b & Hb & Hz).
    destruct (forward B L mlps bert dcs dcp masking temp rand hidden inp memb
                      seg z) as [out|]; [|reflexivity].
    exfalso. pose proof (proj1 Hiff (ex_intro _ out eq_refl) b Hb). lia.
  - intros zeros Hst b l Hb.
    pose proof (structural_some_inv B L seg zeros Hst) as Hs.
    rewrite (structural_some B L seg Hs) in Hst. injection Hst as <-.
    unfold structural_mask, seg_index.
    destruct (Z.of_nat l =? 0)%Z eqn:E0.
    + apply Z.eqb_eq in E0. split; [intros _; left; lia|reflexivity].
    + apply Z.eqb_neq in E0.
      destruct (Z.of_nat l =? zsum L (seg b) - 1)%Z eqn:E1.
      * apply Z.eqb_eq in E1. split; [intros _; right; exact E1|reflexivity].
      * apply Z.eqb_neq in E1. split; [intros H; lra|intros [H|H]; lia].
Qed.

Lemma forward_returns_iff_witness :
  (forall e s, bert_echo e s <> [])
  /\ exists out,
       forward 1 3 mlps_even bert_echo dcs_id dcp_id (1 / 10) 1 rand_half
               t3_one t3_one t3_zero seg_three t4_zero = Some out.
Proof.
  split; [exact bert_echo_layers|].
  apply (proj2 (proj1 (forward_returns_iff 1 3 mlps_even bert_echo dcs_id dcp_id
                         (1 / 10) 1 rand_half t3_one t3_one t3_zero seg_three
                         t4_zero bert_echo_layers))).
  exact seg_three_sums.
Defined.

(** X5: for positive logits, a temperature [tau > 0] and a uniform draw in
    [0,1), with a masking offset from 0 to 1/2 (a 0/1-valued gate) the token
    mask layer replaces embeddings outright: at a non-structural position
    with gate value 1 the returned embedding is the mask-token embedding,
    at every other position it is the original input embedding; no
    position receives a mixture. *)
Theorem hard_replacement
        (B L : nat) (mlps : T4 -> T3) (bert : T3 -> Z2 -> list T3)
        (dcs : T2 -> X2) (dcp : X2 -> X2) (masking temp : R)
        (rand hidden inp memb : T3) (seg : Z2) (z : T4)
        (zeros : T2) (out : Output) :
  0 < temp ->
  (forall b l c, 0 < mlps z b l c) ->
  (forall b l c, 0 <= rand b l c < 1) ->
  0 <= masking <= 1 / 2 ->
  structural B L seg = Some zeros ->
  forward B L mlps bert dcs dcp masking temp rand hidden inp memb seg z
  = Some out ->
  forall b l d,
    let g := gate_P masking temp rand (mlps z) b l 0%nat in
    (g = 1 -> zeros b l = 0 -> input_e out b l d = memb b l d)
    /\ (g = 0 \/ zeros b l = 1 -> input_e out b l d = inp b l d)
    /\ (input_e out b l d = inp b l d \/ input_e out b l d = memb b l d).
Proof.
  intros _ _ _ Hm Hst Hf b l d g.
  assert (Hm' : - (1 / 2) <= masking <= 1 / 2) by lra.
  rewrite (proj1 (forward_fields B L mlps bert dcs dcp masking temp rand hidden
                    inp memb seg z zeros out Hst Hf)).
  assert (H1 : g = 1 -> zeros b l = 0 ->
               embedded_inputs (gate_P masking temp rand (mlps z)) inp memb
                               zeros b l d = memb b l d).
  { intros Hg Hz. rewrite embedded_inputs_free by exact Hz.
    fold g. rewrite Hg. ring. }
  assert (H2 : g = 0 \/ zeros b l = 1 ->
               embedded_inputs (gate_P masking temp rand (mlps z)) inp memb
                               zeros b l d = inp b l d).
  { intros [Hg|Hz].
    - unfold embedded_inputs, P0. fold g. rewrite Hg. ring.
    - apply embedded_inputs_structural. exact Hz. }
  split; [exact H1|]. split; [exact H2|].
  destruct (structural_values B L seg zeros Hst b l) as [Hz|Hz]; [|left; auto].
  destruct (gate_P_binary masking temp rand (mlps z) b l 0%nat Hm'
              (Nat.lt_0_succ 1)) as [Hg|Hg]; fold g in Hg; [left|right]; auto.
Qed.

(** With the open gate the middle token of three gets the mask-token
    embedding 1 in place of its own embedding 0. *)
Lemma hard_replacement_witness :
  0 < 1
  /\ (forall b l c, 0 < mlps_open t4_zero b l c)
  /\ (forall b l c, 0 <= rand_half b l c < 1)
  /\ 0 <= 1 / 10 <= 1 / 2
  /\ structural 1 3 seg_three = Some (structural_mask 3 seg_three)
  /\ exists out,
       forward 1 3 mlps_open bert_echo dcs_id dcp_id (1 / 10) 1 rand_half
               t3_one t3_zero t3_one seg_three t4_zero = Some out
       /\ input_e out 0%nat 1%nat 0%nat = 1
       /\ input_e out 0%nat 0%nat 0%nat = 0.
Proof.
  assert (H1 : 0 <= 1 / 10 <= 1 / 2) by lra.
  split; [exact Rlt_0_1|]. split; [exact pi_open_pos|].
  split; [exact rand_half_range|].
  split; [exact H1|]. split; [exact seg_three_structural|].
  destruct (forward_some 1 3 mlps_open bert_echo dcs_id dcp_id (1 / 10) 1
              rand_half t3_one t3_zero t3_one seg_three t4_zero
              bert_echo_layers seg_three_sums) as [out Hf].
  exists out. split; [exact Hf|].
  pose proof (hard_replacement 1 3 mlps_open bert_echo dcs_id dcp_id
                (1 / 10) 1 rand_half t3_one t3_zero t3_one seg_three
                t4_zero (structural_mask 3 seg_three) out Rlt_0_1
                pi_open_pos rand_half_range H1 seg_three_structural Hf)
    as Hrep.
  split.
  - apply (proj1 (Hrep 0%nat 1%nat 0%nat)); [|reflexivity].
    unfold mlps_open. apply gate_P_open.
  - apply (proj1 (proj2 (Hrep 0%nat 0%nat 0%nat))). right. reflexivity.
Defined.

(** X6: for positive logits, a temperature [tau > 0] and a uniform draw in
    [0,1), with a masking offset in [-1/2, 1/2] (a 0/1-valued gate) and a
    pooling denominator other than 0, [private_rep2] is the average of the hidden states over the positions
    with gate value 1, real-token mask 1 and structural flag 0: whenever
    those hidden states lie between [lo] and [hi] in a coordinate, so does
    [private_rep2]. *)
Theorem private_rep2_average
        (B L : nat) (masking temp : R) (rand pi hidden : T3)
        (seg : Z2) (zeros : T2) (b d : nat) (lo hi : R) :
  0 < temp ->
  (forall b l c, 0 < pi b l c) ->
  (forall b l c, 0 <= rand b l c < 1) ->
  is_mask B L seg -> (b < B)%nat ->
  structural B L seg = Some zeros ->
  - (1 / 2) <= masking <= 1 / 2 ->
  let P := gate_P masking temp rand pi in
  pool_sum L P seg zeros b <> 0 ->
  (forall l, (l < L)%nat ->
     P0 P b l = 1 -> seg b l = 1%Z -> zeros b l = 0 ->
     lo <= hidden b l d <= hi) ->
  exists v, private_rep2 L P hidden seg zeros b d = Some v /\ lo <= v <= hi.
Proof.
  intros _ _ _ Hseg Hb Hst Hm P Hne Hrange.
  pose proof (structural_values B L seg zeros Hst) as Hz.
  set (w := fun l => P0 P b l * IZR (seg b l) * (1 - zeros b l)).
  assert (Hw : forall l, (l < L)%nat ->
                 (w l = 0) \/ (w l = 1 /\ lo <= hidden b l d <= hi)).
  { intros l Hl. unfold w.
    destruct (gate_P_binary masking temp rand pi b l 0%nat Hm (Nat.lt_0_succ 1))
      as [Hg|Hg]; unfold P0, P; [rewrite Hg; left; ring|].
    destruct (Hseg b l Hb Hl) as [E|E]; [rewrite E; left; simpl; ring|].
    destruct (Hz b l) as [E0|E0]; [|rewrite E0; left; ring].
    right. split; [rewrite Hg, E, E0; simpl; ring|].
    apply Hrange; assumption. }
  assert (Hden0 : 0 <= rsum L w).
  { apply rsum_nonneg. intros l Hl. destruct (Hw l Hl) as [E|[E _]]; lra. }
  assert (Hsum : pool_sum L P seg zeros b = rsum L w) by reflexivity.
  assert (Hden : 0 < rsum L w) by lra.
  assert (Hdiv : pool_divisor L P seg zeros b = rsum L w).
  { unfold pool_divisor. rewrite Hsum.
    destruct (Req_dec_T (rsum L w) 0); lra. }
  set (num := rsum L (fun l => P0 P b l * hidden b l d * IZR (seg b l)
                               * (1 - zeros b l))).
  assert (Hlo : lo * rsum L w <= num).
  { rewrite Rmult_comm, <- rsum_scal. apply rsum_le. intros l Hl.
    replace (P0 P b l * hidden b l d * IZR (seg b l) * (1 - zeros b l))
      with (w l * hidden b l d) by (unfold w; ring).
    destruct (Hw l Hl) as [E|[E Hr]]; rewrite E; lra. }
  assert (Hhi : num <= hi * rsum L w).
  { rewrite (Rmult_comm hi), <- rsum_scal. apply rsum_le. intros l Hl.
    replace (P0 P b l * hidden b l d * IZR (seg b l) * (1 - zeros b l))
      with (w l * hidden b l d) by (unfold w; ring).
    destruct (Hw l Hl) as [E|[E Hr]]; rewrite E; lra. }
  exists (num / rsum L w). split.
  - unfold private_rep2. rewrite Hdiv. fold num. apply tdiv_some. lra.
  - split.
    + apply (Rmult_le_reg_r (rsum L w)); [exact Hden|].
      unfold Rdiv. rewrite Rmult_assoc, Rinv_l by lra. lra.
    + apply (Rmult_le_reg_r (rsum L w)); [exact Hden|].
      unfold Rdiv. rewrite Rmult_assoc, Rinv_l by lra. lra.
Qed.

Lemma pool_sum_open :
  pool_sum 3 (gate_P (1 / 10) 1 rand_half pi_open) seg_three
           (structural_mask 3 seg_three) 0%nat = 1.
Proof.
  unfold pool_sum, P0. simpl rsum. rewrite !gate_P_open.
  unfold structural_mask, seg_index, seg_three. simpl. lra.
Qed.

Lemma private_rep2_average_witness :
  0 < 1
  /\ (forall b l c, 0 < pi_open b l c)
  /\ (forall b l c, 0 <= rand_half b l c < 1)
  /\ is_mask 1 3 seg_three /\ (0 < 1)%nat
  /\ structural 1 3 seg_three = Some (structural_mask 3 seg_three)
  /\ - (1 / 2) <= 1 / 10 <= 1 / 2
  /\ pool_sum 3 (gate_P (1 / 10) 1 rand_half pi_open) seg_three
              (structural_mask 3 seg_three) 0%nat <> 0
  /\ exists v,
       private_rep2 3 (gate_P (1 / 10) 1 rand_half pi_open) t3_one seg_three
                    (structural_mask 3 seg_three) 0%nat 0%nat = Some v
       /\ 1 <= v <= 1.
Proof.
  assert (H4 : - (1 / 2) <= 1 / 10 <= 1 / 2) by lra.
  assert (H5 : pool_sum 3 (gate_P (1 / 10) 1 rand_half pi_open) seg_three
                        (structural_mask 3 seg_three) 0%nat <> 0)
    by (rewrite pool_sum_open; lra).
  split; [exact Rlt_0_1|]. split; [exact pi_open_pos|].
  split; [exact rand_half_range|].
  split; [exact seg_three_mask|]. split; [exact (Nat.lt_0_succ 0)|].
  split; [exact seg_three_structural|]. split; [exact H4|]. split; [exact H5|].
  apply (private_rep2_average 1 3 (1 / 10) 1 rand_half pi_open t3_one seg_three
           (structural_mask 3 seg_three) 0%nat 0%nat 1 1 Rlt_0_1 pi_open_pos
           rand_half_range seg_three_mask
           (Nat.lt_0_succ 0) seg_three_structural H4 H5).
  intros l _ _ _ _. unfold t3_one. lra.
Defined.

(** ** The attention weights and the private representation *)

Lemma xsum_ext n f g :
  (forall l, (l < n)%nat -> f l = g l) -> xsum n f = xsum n g.
Proof.
  induction n as [|n IH]; intros H; simpl; [reflexivity|].
  rewrite IH by (intros; apply H; lia). rewrite H by lia. reflexivity.
Qed.

(** [softmask_with_mask] reads its input only along the sequence axis. *)
Lemma softmask_with_mask_ext L (inputs inputs' : X3) masks zeros b l d :
  (forall l', (l' < L)%nat -> inputs b l' d = inputs' b l' d) ->
  (l < L)%nat ->
  softmask_with_mask L inputs masks zeros b l d
  = softmask_with_mask L inputs' masks zeros b l d.
Proof.
  intros H Hl. unfold softmask_with_mask.
  rewrite (H l Hl). f_equal. f_equal.
  apply xsum_ext. intros l' Hl'. rewrite (H l' Hl'). reflexivity.
Qed.

Lemma softmask_weight_range L scores masks zeros b l d :
  is_mask_row L masks b -> is_mask_row L zeros b ->
  (forall l', (l' < L)%nat -> exp (scores b l' d) <= FLT_MAX) ->
  rsum L (fun l' => exp (scores b l' d) * masks b l' * (1 - zeros b l')) + eps9
  <= FLT_MAX ->
  (l < L)%nat ->
  exists a,
    softmask_with_mask L (fun b l d => Some (scores b l d)) masks zeros b l d
    = Some a
    /\ 0 <= a <= 1
    /\ (masks b l = 0 \/ zeros b l = 1 -> a = 0)
    /\ (masks b l = 1 -> zeros b l = 0 -> 0 < a).
Proof.
  intros Hm Hz Hexp Htot Hl.
  pose proof (softmask_divisor_pos L scores masks zeros b d Hm Hz) as Hpos.
  pose proof (softmask_term_nonneg L scores masks zeros b d Hm Hz l Hl) as Ht.
  pose proof (rsum_ge_term L _ l
                (softmask_term_nonneg L scores masks zeros b d Hm Hz) Hl) as Hle.
  cbv beta in Hle.
  assert (He : 0 < eps9) by (unfold eps9; apply Rinv_0_lt_compat; lra).
  assert (Hinv : 0 < / (rsum L (fun l0 => exp (scores b l0 d) * masks b l0
                                          * (1 - zeros b l0)) + eps9))
    by (apply Rinv_0_lt_compat; exact Hpos).
  eexists. split;
    [apply (softmask_value L scores masks zeros b d Hm Hz Hexp Htot l Hl)|].
  split; [split|split].
  - apply Rmult_le_pos; [exact Ht|]. left. exact Hinv.
  - apply (Rmult_le_reg_r (rsum L (fun l0 => exp (scores b l0 d) * masks b l0
                                             * (1 - zeros b l0)) + eps9));
      [exact Hpos|].
    unfold Rdiv. rewrite Rmult_assoc, Rinv_l by lra. lra.
  - intros [E|E]; rewrite E; unfold Rdiv; ring.
  - intros E1 E0. rewrite E1, E0. apply Rmult_lt_0_compat; [|exact Hinv].
    pose proof (exp_pos (scores b l d)). lra.
Qed.

Lemma sigmoid_range x : 0 < sigmoid x < 1.
Proof.
  unfold sigmoid. pose proof (exp_pos (- x)) as He.
  split.
  - apply Rdiv_lt_0_compat; lra.
  - apply (Rmult_lt_reg_r (1 + exp (- x))); [lra|].
    unfold Rdiv. rewrite Rmult_assoc, Rinv_l by lra. lra.
Qed.

Lemma exp_sigmoid_le x : exp (sigmoid x) <= 3.
Proof.
  apply Rle_trans with (exp 1); [|exact exp_le_3].
  left. apply exp_increasing. apply sigmoid_range.
Qed.

Lemma FLT_MAX_ge : 2 ^ 127 <= FLT_MAX.
Proof.
  unfold FLT_MAX. rewrite <- (Rmult_1_l (2 ^ 127)) at 1.
  apply Rmult_le_compat_r; [left; apply pow_lt; lra|].
  assert (/ 2 ^ 23 <= 1).
  { rewrite <- Rinv_1. apply Rinv_le_contravar; [lra|]. apply pow_R1_Rle. lra. }
  lra.
Qed.

(** Fewer than [2^120] exponentials of sigmoid values sum to a finite
    binary32 number. *)
Lemma sigmoid_scores_finite L (x : nat -> R) (w : nat -> R) :
  INR L <= 2 ^ 120 ->
  (forall l, (l < L)%nat -> 0 <= w l <= 1) ->
  (forall l, exp (sigmoid (x l)) <= FLT_MAX)
  /\ rsum L (fun l => exp (sigmoid (x l)) * w l) + eps9 <= FLT_MAX.
Proof.
  intros HL Hw.
  pose proof FLT_MAX_ge as Hmax.
  assert (H120 : 1 <= 2 ^ 120) by (apply pow_R1_Rle; lra).
  assert (H127 : 2 ^ 127 = 128 * 2 ^ 120).
  { replace 127%nat with (7 + 120)%nat by reflexivity.
    rewrite pow_add. simpl (2 ^ 7). ring. }
  split.
  - intros l. pose proof (exp_sigmoid_le (x l)). lra.
  - assert (Hs : rsum L (fun l => exp (sigmoid (x l)) * w l) <= INR L * 3).
    { rewrite <- rsum_const. apply rsum_le. intros l Hl.
      pose proof (exp_sigmoid_le (x l)). pose proof (exp_pos (sigmoid (x l))).
      specialize (Hw l Hl). nra. }
    assert (He : eps9 <= 1).
    { unfold eps9. rewrite <- Rinv_1. apply Rinv_le_contravar; lra. }
    lra.
Qed.

(** X7: for positive logits, a temperature [tau > 0], a uniform draw in
    [0,1) and fewer than [2^120] positions, every entry of the private
    representation that [forward] returns is finite, and it is the hidden
    state of the position scaled by an attention weight [a] with
    [0 <= a <= 1] and by the two masks; the weight is positive at a real
    non-structural position, and at a padding position and at a structural
    position the entry is exactly 0. *)
Theorem private_rep_weights
        (B L : nat) (mlps : T4 -> T3) (bert : T3 -> Z2 -> list T3)
        (dcs : T2 -> X2) (dcp : X2 -> X2) (masking temp : R)
        (rand hidden inp memb : T3) (seg : Z2) (z : T4)
        (zeros : T2) (out : Output) (b l d : nat) :
  0 < temp ->
  (forall b l c, 0 < mlps z b l c) ->
  (forall b l c, 0 <= rand b l c < 1) ->
  INR L <= 2 ^ 120 ->
  is_mask B L seg -> (b < B)%nat -> (l < L)%nat ->
  structural B L seg = Some zeros ->
  forward B L mlps bert dcs dcp masking temp rand hidden inp memb seg z
  = Some out ->
  exists a,
    0 <= a <= 1
    /\ private_rep out b l d
       = Some (hidden b l d * a * IZR (seg b l) * (1 - zeros b l))
    /\ (seg b l = 1%Z -> zeros b l = 0 -> 0 < a)
    /\ (seg b l = 0%Z \/ zeros b l = 1 -> private_rep out b l d = Some 0).
Proof.
  intros _ _ _ HL Hseg Hb Hl Hst Hf.
  rewrite (proj2 (proj2 (proj2 (forward_fields B L mlps bert dcs dcp masking
                                  temp rand hidden inp memb seg z zeros out
                                  Hst Hf)))).
  pose proof (structural_values B L seg zeros Hst) as Hz.
  set (P := gate_P masking temp rand (mlps z)).
  destruct (private_rep2 L P hidden seg zeros b d) as [v|] eqn:Ev.
  2:{ exfalso. unfold private_rep2 in Ev.
      rewrite tdiv_some in Ev; [discriminate|].
      apply (pool_divisor_nonzero L masking temp rand (mlps z) seg zeros b). }
  set (scores := fun b' l' (d' : nat) =>
                   sigmoid (hidden b' l' d' * IZR (seg b' l')
                            * (1 - zeros b' l') * v)).
  assert (Hmask : is_mask_row L (fun b l => IZR (seg b l)) b).
  { intros l' Hl'. destruct (Hseg b l' Hb Hl') as [E|E]; rewrite E;
      [left|right]; reflexivity. }
  assert (Hzero : is_mask_row L zeros b) by (intros l' _; apply Hz).
  assert (Hw : forall l', (l' < L)%nat ->
                 0 <= IZR (seg b l') * (1 - zeros b l') <= 1).
  { intros l' Hl'. destruct (Hmask l' Hl') as [E|E], (Hz b l') as [E'|E'];
      rewrite E, E'; lra. }
  destruct (sigmoid_scores_finite L
              (fun l' => hidden b l' d * IZR (seg b l') * (1 - zeros b l') * v)
              (fun l' => IZR (seg b l') * (1 - zeros b l')) HL Hw)
    as [Hexp Htot].
  assert (Htot' : rsum L (fun l' => exp (scores b l' d) * IZR (seg b l')
                                    * (1 - zeros b l')) + eps9 <= FLT_MAX).
  { rewrite (rsum_ext L _ (fun l' =>
               exp (sigmoid (hidden b l' d * IZR (seg b l')
                             * (1 - zeros b l') * v))
               * (IZR (seg b l') * (1 - zeros b l'))))
      by (intros; unfold scores; ring).
    exact Htot. }
  destruct (softmask_weight_range L scores (fun b l => IZR (seg b l)) zeros
              b l d Hmask Hzero (fun l' _ => Hexp l') Htot' Hl)
    as (a & Ha & Hrange & Hout & Hin).
  assert (Hext : softmask_with_mask L
                   (fun b0 l0 d0 =>
                      xmap sigmoid
                        (xmap (fun pr => hidden b0 l0 d0 * IZR (seg b0 l0)
                                         * (1 - zeros b0 l0) * pr)
                              (private_rep2 L P hidden seg zeros b0 d0)))
                   (fun b0 l0 => IZR (seg b0 l0)) zeros b l d = Some a).
  { rewrite <- Ha. apply softmask_with_mask_ext; [|exact Hl].
    intros l' _. rewrite Ev. reflexivity. }
  exists a. split; [exact Hrange|].
  rewrite Hext. cbn [xmap]. split; [reflexivity|]. split.
  - intros E1 E0. apply Hin; [rewrite E1; reflexivity|exact E0].
  - intros [E|E]; f_equal; rewrite E; simpl; ring.
Qed.

(** With the open gate the middle token of three carries a positive
    attention weight; the structural positions carry none. *)
Lemma private_rep_weights_witness :
  0 < 1
  /\ (forall b l c, 0 < mlps_open t4_zero b l c)
  /\ (forall b l c, 0 <= rand_half b l c < 1)
  /\ INR 3 <= 2 ^ 120
  /\ is_mask 1 3 seg_three /\ (0 < 1)%nat /\ (1 < 3)%nat
  /\ structural 1 3 seg_three = Some (structural_mask 3 seg_three)
  /\ exists out,
       forward 1 3 mlps_open bert_echo dcs_id dcp_id (1 / 10) 1 rand_half
               t3_one t3_one t3_zero seg_three t4_zero = Some out
       /\ exists a, 0 < a <= 1
                    /\ private_rep out 0%nat 1%nat 0%nat = Some a.
Proof.
  assert (HL : INR 3 <= 2 ^ 120).
  { assert (2 ^ 2 <= 2 ^ 120) by (apply Rle_pow; [lra|lia]).
    simpl INR. simpl (2 ^ 2) in *. lra. }
  split; [exact Rlt_0_1|]. split; [exact pi_open_pos|].
  split; [exact rand_half_range|]. split; [exact HL|].
  split; [exact seg_three_mask|]. split; [exact (Nat.lt_0_succ 0)|].
  split; [exact (Nat.lt_lt_succ_r 1 2 (Nat.lt_succ_diag_r 1))|].
  split; [exact seg_three_structural|].
  destruct (forward_some 1 3 mlps_open bert_echo dcs_id dcp_id (1 / 10) 1
              rand_half t3_one t3_one t3_zero seg_three t4_zero
              bert_echo_layers seg_three_sums) as [out Hf].
  exists out. split; [exact Hf|].
  destruct (private_rep_weights 1 3 mlps_open bert_echo dcs_id dcp_id (1 / 10) 1
              rand_half t3_one t3_one t3_zero seg_three t4_zero
              (structural_mask 3 seg_three) out 0%nat 1%nat 0%nat
              Rlt_0_1 pi_open_pos rand_half_range HL
              seg_three_mask (Nat.lt_0_succ 0)
              (Nat.lt_lt_succ_r 1 2 (Nat.lt_succ_diag_r 1))
              seg_three_structural Hf) as (a & Ha & E & Hpos & _).
  exists a. split.
  - split; [|exact (proj2 Ha)]. apply Hpos; reflexivity.
  - rewrite E. f_equal.
    unfold t3_one, structural_mask, seg_index, seg_three. simpl. lra.
Defined.

(** ** The extremes of the mask percentage *)

Lemma tdiv_eq_iff num den c :
  0 < den -> (tdiv num den = Some c <-> num = c * den).
Proof.
  intros Hd. rewrite tdiv_some by lra. split.
  - intros [= <-]. field. lra.
  - intros ->. f_equal. field. lra.
Qed.

(** X8: for positive logits, a temperature [tau > 0] and a uniform draw in
    [0,1), for an example whose 0/1 segment mask sums to at least 3 and a
    masking offset from 0 to 1/2 (a 0/1-valued gate), [mask_perc] is 0 exactly when no real non-structural
    position has gate value 1, and it is 1 exactly when every real
    non-structural position has gate value 1. *)
Theorem mask_perc_extremes
        (B L : nat) (mlps : T4 -> T3) (bert : T3 -> Z2 -> list T3)
        (dcs : T2 -> X2) (dcp : X2 -> X2) (masking temp : R)
        (rand hidden inp memb : T3) (seg : Z2) (z : T4)
        (out : Output) (b : nat) :
  0 < temp ->
  (forall b l c, 0 < mlps z b l c) ->
  (forall b l c, 0 <= rand b l c < 1) ->
  is_mask B L seg -> (b < B)%nat -> (3 <= zsum L (seg b))%Z ->
  0 <= masking <= 1 / 2 ->
  forward B L mlps bert dcs dcp masking temp rand hidden inp memb seg z
  = Some out ->
  let P := gate_P masking temp rand (mlps z) in
  let zeros := structural_mask L seg in
  (mask_perc out b = Some 0
   <-> forall l, (l < L)%nat ->
         ~ (P0 P b l = 1 /\ seg b l = 1%Z /\ zeros b l = 0))
  /\ (mask_perc out b = Some 1
      <-> forall l, (l < L)%nat ->
            seg b l = 1%Z -> zeros b l = 0 -> P0 P b l = 1).
Proof.
  intros _ _ _ Hseg Hb H3 Hm0 Hf P zeros.
  assert (Hm : - (1 / 2) <= masking <= 1 / 2) by lra.
  assert (Hst : structural B L seg = Some (structural_mask L seg)).
  { unfold forward in Hf.
    destruct (structural B L seg) as [zeros'|] eqn:Hst; [|discriminate].
    pose proof (structural_some_inv B L seg zeros' Hst) as Hs.
    rewrite <- Hst. apply (structural_some B L seg Hs). }
  rewrite (proj1 (proj2 (forward_fields B L mlps bert dcs dcp masking temp rand
                           hidden inp memb seg z _ out Hst Hf))).
  fold P. fold zeros.
  unfold mask_percentage.
  set (w := fun l => IZR (seg b l) * (1 - zeros b l)).
  assert (Hden : 1 <= rsum L w).
  { pose proof (real_nonstructural_count B L seg b Hseg Hb) as Hc.
    apply IZR_le in H3. fold zeros in Hc. unfold w. lra. }
  assert (Hw : forall l, (l < L)%nat ->
                 (w l = 0 /\ (seg b l = 0%Z \/ zeros b l = 1))
                 \/ (w l = 1 /\ seg b l = 1%Z /\ zeros b l = 0)).
  { intros l Hl. unfold w.
    destruct (Hseg b l Hb Hl) as [E|E]; rewrite E;
      destruct (structural_mask_values L seg b l) as [E0|E0];
      fold zeros in E0; rewrite E0; simpl;
      [left|left|right|left]; repeat split; auto; try lra. }
  assert (Hw01 : forall l, (l < L)%nat -> w l = 0 \/ w l = 1).
  { intros l Hl. destruct (Hw l Hl) as [[E _]|[E _]]; auto. }
  assert (Hg : forall l, P0 P b l = 0 \/ P0 P b l = 1).
  { intros l. apply gate_P_binary; [exact Hm|lia]. }
  fold (w) in |- *.
  replace (rsum L (fun l => P0 P b l * IZR (seg b l) * (1 - zeros b l)))
    with (rsum L (fun l => P0 P b l * w l))
    by (apply rsum_ext; intros; unfold w; ring).
  rewrite !tdiv_eq_iff by lra. split.
  - rewrite Rmult_0_l. split.
    + intros Hz l Hl (H1 & H2 & H0).
      assert (Ht : P0 P b l * w l = 0).
      { apply (rsum_nonneg_zero L (fun l => P0 P b l * w l)); trivial.
        intros l' Hl'.
        destruct (Hg l') as [E|E], (Hw01 l' Hl') as [E2|E2]; rewrite E, E2; lra. }
      destruct (Hw l Hl) as [[_ [E|E]]|[E _]]; [lia|lra|].
      rewrite H1, E in Ht. lra.
    + intros Hnone. rewrite (rsum_ext L _ (fun _ => 0)); [apply rsum_zero|].
      intros l Hl. destruct (Hg l) as [E|E]; [rewrite E; ring|].
      destruct (Hw l Hl) as [[E' _]|[_ [E1 E0]]]; [rewrite E'; ring|].
      exfalso. apply (Hnone l Hl). auto.
  - rewrite Rmult_1_l. split.
    + intros Heq l Hl E1 E0.
      assert (Hz : rsum L (fun l => (1 - P0 P b l) * w l) = 0).
      { rewrite (rsum_ext L _ (fun l => w l + - (P0 P b l * w l)))
          by (intros; ring).
        rewrite rsum_plus, rsum_opp. lra. }
      assert (Ht : (1 - P0 P b l) * w l = 0).
      { apply (rsum_nonneg_zero L (fun l => (1 - P0 P b l) * w l)); trivial.
        intros l' Hl'.
        destruct (Hg l') as [E|E], (Hw01 l' Hl') as [E2|E2]; rewrite E, E2; lra. }
      destruct (Hw l Hl) as [[_ [E|E]]|[E _]]; [lia|lra|].
      rewrite E in Ht. lra.
    + intros Hall. apply rsum_ext. intros l Hl.
      destruct (Hw l Hl) as [[E' _]|[E' [E1 E0]]]; [rewrite E'; ring|].
      rewrite (Hall l Hl E1 E0). ring.
Qed.

Lemma mask_perc_extremes_witness :
  0 < 1
  /\ (forall b l c, 0 < mlps_open t4_zero b l c)
  /\ (forall b l c, 0 <= rand_half b l c < 1)
  /\ is_mask 1 3 seg_three /\ (0 < 1)%nat /\ (3 <= zsum 3 (seg_three 0%nat))%Z
  /\ 0 <= 1 / 10 <= 1 / 2
  /\ exists out,
       forward 1 3 mlps_open bert_echo dcs_id dcp_id (1 / 10) 1 rand_half
               t3_one t3_one t3_zero seg_three t4_zero = Some out
       /\ mask_perc out 0%nat = Some 1.
Proof.
  assert (H3 : (3 <= zsum 3 (seg_three 0%nat))%Z) by (simpl; lia).
  assert (H4 : 0 <= 1 / 10 <= 1 / 2) by lra.
  split; [exact Rlt_0_1|]. split; [exact pi_open_pos|].
  split; [exact rand_half_range|].
  split; [exact seg_three_mask|]. split; [exact (Nat.lt_0_succ 0)|].
  split; [exact H3|]. split; [exact H4|].
  destruct (forward_some 1 3 mlps_open bert_echo dcs_id dcp_id (1 / 10) 1
              rand_half t3_one t3_one t3_zero seg_three t4_zero
              bert_echo_layers seg_three_sums) as [out Hf].
  exists out. split; [exact Hf|].
  apply (proj2 (mask_perc_extremes 1 3 mlps_open bert_echo dcs_id dcp_id
                  (1 / 10) 1 rand_half t3_one t3_one t3_zero seg_three t4_zero
                  out 0%nat Rlt_0_1 pi_open_pos rand_half_range
                  seg_three_mask (Nat.lt_0_succ 0) H3 H4 Hf)).
  intros l _ _ _. unfold P0, mlps_open. apply gate_P_open.
Defined.

(** ** concatenate_tensors *)

Lemma index_select_some_iff B N descriptor domain_list :
  (exists t, index_select B N descriptor domain_list = Some t)
  <-> forall b, (b < B)%nat -> (0 <= domain_list b < Z.of_nat N)%Z.
Proof.
  unfold index_select. split.
  - intros [t H] b Hb.
    destruct (forallb _ _) eqn:E; [|discriminate].
    rewrite forallb_forall in E.
    assert (Hin : In b (seq 0 B)) by (apply in_seq; lia).
    apply E in Hin. apply andb_prop in Hin as [H1 H2].
    apply Z.leb_le in H1. apply Z.ltb_lt in H2. lia.
  - intros H.
    replace (forallb _ _) with true; [eauto|].
    symmetry. apply forallb_forall. intros b Hb. apply in_seq in Hb.
    specialize (H b ltac:(lia)).
    apply andb_true_intro. split; [apply Z.leb_le|apply Z.ltb_lt]; lia.
Qed.

(** X9: [concatenate_tensors] returns exactly when every domain label of
    the batch indexes a row of the descriptor matrix.  In its result the
    first [d] features of both stacked branches are the token
    representation times the attention mask, the remaining features of the
    first branch are the descriptor of the example's own domain times the
    mask, and, with at least one domain, every feature of both branches is
    exactly 0 at a padding position. *)
Theorem concatenate_tensors_spec
        (B N D : nat) (representation : T3) (descriptor : T2)
        (domain_list : nat -> Z) (att_masks : Z2) :
  ((exists zt, concatenate_tensors B N D representation descriptor domain_list
                                   att_masks = Some zt)
   <-> forall b, (b < B)%nat -> (0 <= domain_list b < Z.of_nat N)%Z)
  /\ forall zt,
       concatenate_tensors B N D representation descriptor domain_list att_masks
       = Some zt ->
       forall b l k,
         ((k < D)%nat ->
            zt b l 0%nat k = Some (representation b l k * IZR (att_masks b l))
            /\ zt b l 1%nat k = zt b l 0%nat k)
         /\ ((D <= k)%nat ->
               zt b l 0%nat k
               = Some (descriptor (Z.to_nat (domain_list b)) (k - D)%nat
                       * IZR (att_masks b l)))
         /\ ((0 < N)%nat -> att_masks b l = 0%Z ->
               forall j, zt b l j k = Some 0).
Proof.
  split.
  - rewrite <- (index_select_some_iff B N descriptor domain_list).
    unfold concatenate_tensors.
    destruct (index_select B N descriptor domain_list) as [t|];
      split; intros [x H]; try discriminate; eauto.
  - intros zt H b l k. unfold concatenate_tensors in H.
    unfold index_select in H.
    destruct (forallb _ _); [|discriminate]. injection H as <-.
    unfold cat_last. split; [|split].
    + intros Hk. apply Nat.ltb_lt in Hk. rewrite Hk. split; reflexivity.
    + intros Hk. apply Nat.ltb_ge in Hk. rewrite Hk. reflexivity.
    + intros HN Hmask j. rewrite Hmask.
      assert (Have : exists v, ave_descr N descriptor (k - D)%nat = Some v).
      { unfold ave_descr. eexists. apply tdiv_some.
        apply not_0_INR. lia. }
      destruct Have as [v Hv].
      destruct j as [|j]; destruct (k <? D)%nat; cbn [xmap];
        try rewrite Hv; cbn [xmap]; f_equal; simpl; ring.
Qed.

(** X10: in exact arithmetic, when all domains carry the same descriptor
    row, the mean descriptor is that row, and the two stacked branches of
    [concatenate_tensors] coincide at every entry.  (A rounded sum of three
    or more equal rows, divided by their number, need not give the row
    back.) *)
Theorem concatenate_tensors_equal_domains
        (B N D : nat) (representation : T3) (descriptor : T2)
        (domain_list : nat -> Z) (att_masks : Z2) (row : nat -> R)
        (zt : X4) :
  (0 < N)%nat ->
  (forall i k, (i < N)%nat -> descriptor i k = row k) ->
  concatenate_tensors B N D representation descriptor domain_list att_masks
  = Some zt ->
  (forall k, ave_descr N descriptor k = Some (row k))
  /\ forall b l k, (b < B)%nat -> zt b l 1%nat k = zt b l 0%nat k.
Proof.
  intros HN Hrow H.
  assert (Have : forall k, ave_descr N descriptor k = Some (row k)).
  { intros k. unfold ave_descr.
    rewrite (rsum_ext N _ (fun _ => row k)) by (intros; apply Hrow; assumption).
    rewrite rsum_const, tdiv_some by (apply not_0_INR; lia).
    f_equal. field. apply not_0_INR. lia. }
  split; [exact Have|].
  intros b l k Hb.
  assert (Hsel : forall b', (b' < B)%nat ->
                   (0 <= domain_list b' < Z.of_nat N)%Z).
  { apply (proj1 (index_select_some_iff B N descriptor domain_list)).
    unfold concatenate_tensors in H.
    destruct (index_select B N descriptor domain_list) as [t|];
      [eauto|discriminate]. }
  unfold concatenate_tensors, index_select in H.
  destruct (forallb _ _); [|discriminate]. injection H as <-.
  unfold cat_last. destruct (k <? D)%nat; [reflexivity|].
  rewrite Have. cbn [xmap]. rewrite Hrow; [reflexivity|].
  specialize (Hsel b Hb). lia.
Qed.

(** Two domains with the descriptor (1, 3), an example of the second. *)
Lemma concatenate_tensors_equal_domains_witness :
  (0 < 2)%nat
  /\ (forall i k, (i < 2)%nat -> descr_same i k = descr_same 0%nat k)
  /\ exists zt,
       concatenate_tensors 1 2 1 t3_one descr_same (fun _ => 1%Z) seg_three
       = Some zt
       /\ ave_descr 2 descr_same 1%nat = Some 3
       /\ zt 0%nat 0%nat 1%nat 1%nat = zt 0%nat 0%nat 0%nat 1%nat.
Proof.
  assert (H2 : forall i k, (i < 2)%nat -> descr_same i k = descr_same 0%nat k)
    by reflexivity.
  split; [exact (Nat.lt_0_succ 1)|]. split; [exact H2|].
  eexists. split; [reflexivity|].
  destruct (concatenate_tensors_equal_domains 1 2 1 t3_one descr_same
              (fun _ => 1%Z) seg_three (descr_same 0%nat) _
              (Nat.lt_0_succ 1) H2 eq_refl) as [Have Hzt].
  split; [exact (Have 1%nat)|].
  exact (Hzt 0%nat 0%nat 1%nat (Nat.lt_0_succ 0)).
Defined.

End BertmaskerFacts.

(* ================================================================== *)
(** * Part IV: properties of the data reader *)
(* ================================================================== *)

Module DataBookHotelFacts.
Import DataBookHotel.

Local Open Scope string_scope.
Local Open Scope list_scope.
Local Open Scope nat_scope.

(** ** replace_nth_occurrence *)

(** C6: on "The coffee was great and the coffee was hot" with target
    "coffee", replacement "$T$" and n = 2, the whole-word matches are the
    spans (4,10) and (29,35), and [replace_nth_occurrence] returns
    "The coffee was great and the $T$ was hot": the text before position 29
    and after position 35 is that of the sentence. *)
Theorem replace_second_coffee :
  finditer "coffee" coffee_sentence = [(4, 10); (29, 35)]
  /\ replace_nth_occurrence coffee_sentence "coffee" "$T$" 2
     = Ok "The coffee was great and the $T$ was hot"
  /\ ("The coffee was great and the $T$ was hot"
      = slice_to coffee_sentence 29 ++ "$T$" ++ slice_from coffee_sentence 35)%string
  /\ substring 29 6 coffee_sentence = "coffee"
  /\ substring 4 6 (slice_to coffee_sentence 29) = "coffee".
Proof. repeat split; vm_compute; reflexivity. Qed.

(** The fallback of line 54: fewer whole-word matches than [n] hands the
    call to [replace_nth_occurrence2], which ignores word boundaries and
    returns the sentence unchanged when it finds too few occurrences. *)
Example replace_fallback_substring :
  replace_nth_occurrence "the coffeepot was great" "coffee" "$T$" 1
  = Ok "the $T$pot was great".
Proof. vm_compute. reflexivity. Qed.

Example replace_fallback_unchanged :
  replace_nth_occurrence coffee_sentence "coffee" "$T$" 3 = Ok coffee_sentence.
Proof. vm_compute. reflexivity. Qed.

Example replace_index_error :
  replace_nth_occurrence "abc" "x" "$T$" 0 = Err IndexError.
Proof. vm_compute. reflexivity. Qed.

Example window_pairs :
  window ["a"; "b"; "c"; "d"] 2 = Ok [["a"; "b"]; ["b"; "c"]; ["c"; "d"]].
Proof. reflexivity. Qed.

Example window_too_short :
  window ["a"] 2 = Err (RuntimeError "generator raised StopIteration").
Proof. reflexivity. Qed.

Example get_data_tuple_coffee :
  _get_data_tuple ["the"; "Coffee"; "was"; "hot"] ["coffee"] (Some "positive")
  = Ok ([1; 0; 1; 2], 1%Z).
Proof. vm_compute. reflexivity. Qed.

(** ** Results *)

Lemma rbind_ok {A B} (r : result A) (k : A -> result B) (b : B) :
  rbind r k = Ok b -> exists a, r = Ok a /\ k a = Ok b.
Proof. destruct r as [a|e]; simpl; [eauto|discriminate]. Qed.

Lemma rmap_length {A B} (f : A -> result B) xs ys :
  rmap f xs = Ok ys -> List.length ys = List.length xs.
Proof.
  revert ys. induction xs as [|x xs IH]; simpl; intros ys H.
  - injection H as <-. reflexivity.
  - apply rbind_ok in H as (y & Hy & H).
    apply rbind_ok in H as (ys' & Hys & H).
    injection H as <-. simpl. f_equal. apply IH, Hys.
Qed.

Lemma rmap_Forall2 {A B} (f : A -> result B) xs ys :
  rmap f xs = Ok ys -> Forall2 (fun x y => f x = Ok y) xs ys.
Proof.
  revert ys. induction xs as [|x xs IH]; simpl; intros ys H.
  - injection H as <-. constructor.
  - apply rbind_ok in H as (y & Hy & H).
    apply rbind_ok in H as (ys' & Hys & H).
    injection H as <-. constructor; auto.
Qed.

(** ** _get_data_tuple: the label *)

Lemma polarity_map_spec label lab :
  polarity_map label = Some lab <->
  (label = Some "negative" /\ lab = (-1)%Z)
  \/ (label = Some "neutral" /\ lab = 0%Z)
  \/ (label = Some "positive" /\ lab = 1%Z).
Proof.
  split.
  - destruct label as [l|]; [|discriminate].
    unfold polarity_map. intros H.
    destruct (String.eqb l "negative") eqn:E1.
    { apply String.eqb_eq in E1. subst l. injection H as <-. auto. }
    destruct (String.eqb l "neutral") eqn:E2.
    { apply String.eqb_eq in E2. subst l. injection H as <-. auto. }
    destruct (String.eqb l "positive") eqn:E3.
    { apply String.eqb_eq in E3. subst l. injection H as <-. auto 6. }
    exfalso. revert H E1 E2 E3. clear.
    repeat (destruct l as [|[[] [] [] [] [] [] [] []] l];
            try discriminate; simpl).
  - intros [[-> ->]|[[-> ->]|[-> ->]]]; reflexivity.
Qed.

Lemma label_of_polarity_map label :
  label_of label
  = match polarity_map label with
    | Some lab => Ok lab
    | None => Err (ValueError "Unknown label: None")
    end.
Proof.
  destruct label as [l|]; [|reflexivity]. unfold label_of.
  destruct (String.eqb l "negative") eqn:E1.
  { apply String.eqb_eq in E1. subst l. reflexivity. }
  destruct (String.eqb l "neutral") eqn:E2.
  { apply String.eqb_eq in E2. subst l. reflexivity. }
  destruct (String.eqb l "positive") eqn:E3.
  { apply String.eqb_eq in E3. subst l. reflexivity. }
  destruct (polarity_map (Some l)) as [lab|] eqn:E; [|reflexivity].
  apply polarity_map_spec in E.
  destruct E as [[[= ->] _]|[[[= ->] _]|[[= ->] _]]]; discriminate.
Qed.

Lemma get_data_tuple_unfold sptoks asp label :
  _get_data_tuple sptoks asp label
  = match position_info sptoks asp with
    | Err e => Err e
    | Ok pos =>
        match polarity_map label with
        | Some lab => Ok (pos, lab)
        | None => Err (ValueError "Unknown label: None")
        end
    end.
Proof.
  unfold _get_data_tuple.
  destruct (position_info sptoks asp) as [pos|e]; simpl; [|reflexivity].
  rewrite label_of_polarity_map.
  destruct (polarity_map label); reflexivity.
Qed.

(** C7, as stated, fails in one direction: the label "positive" is one of
    the three strings, yet for the sentence ["good"] and the aspect ["bad"]
    the call does not return: the aspect is not found and [min] of the empty
    list raises before the label is looked at. *)
Lemma known_label_raises_counterexample :
  polarity_map (Some "positive") = Some 1%Z
  /\ _get_data_tuple ["good"] ["bad"] (Some "positive")
     = Err (ValueError "min() arg is an empty sequence")
  /\ ~ (exists pos lab,
          _get_data_tuple ["good"] ["bad"] (Some "positive") = Ok (pos, lab)).
Proof.
  split; [reflexivity|]. split; [vm_compute; reflexivity|].
  intros (pos & lab & H). vm_compute in H. discriminate.
Qed.

(** C7 (amended): [_get_data_tuple] maps "negative" to -1, "neutral" to 0
    and "positive" to 1, and raises for every other polarity string (for
    example "mixed"); it returns normally if and only if the label is one of
    those three strings and the position features of lines 98-111 were
    computed without an exception, and then with the mapped label; when the
    positions are computed and the label is unknown, the exception is the
    [ValueError] of line 121. *)
Theorem get_data_tuple_label (sptoks asp : list string) (label : option string) :
  polarity_map (Some "negative") = Some (-1)%Z
  /\ polarity_map (Some "neutral") = Some 0%Z
  /\ polarity_map (Some "positive") = Some 1%Z
  /\ polarity_map (Some "mixed") = None
  /\ (forall pos lab,
        _get_data_tuple sptoks asp label = Ok (pos, lab) <->
        position_info sptoks asp = Ok pos /\ polarity_map label = Some lab)
  /\ (polarity_map label = None ->
        exists e, _get_data_tuple sptoks asp label = Err e)
  /\ (forall pos, position_info sptoks asp = Ok pos ->
        polarity_map label = None ->
        _get_data_tuple sptoks asp label
        = Err (ValueError "Unknown label: None")).
Proof.
  repeat (split; [reflexivity|]).
  rewrite get_data_tuple_unfold.
  split; [|split].
  - intros pos lab.
    destruct (position_info sptoks asp) as [pos'|e];
      destruct (polarity_map label) as [lab'|]; split;
      try (intros [H1 H2]); try intros H; try discriminate;
      try (injection H as <- <-; auto);
      try (injection H1 as <-; injection H2 as <-; reflexivity).
  - intros ->. destruct (position_info sptoks asp); eauto.
  - intros pos -> ->. reflexivity.
Qed.

(** ** _get_data_tuple: the positions *)

Lemma find_aspect_none t k groups i :
  (forall g, In g groups -> contains t (join " " (map lower g)) = false
                            /\ String.eqb t (join " " (map lower g)) = false) ->
  find_aspect t k groups i = [].
Proof.
  revert i. induction groups as [|g r IH]; intros i H; simpl; [reflexivity|].
  destruct (H g (or_introl eq_refl)) as [Hc He].
  rewrite He, Hc. apply IH. intros g' Hg'. apply H. right. exact Hg'.
Qed.

(** A non-empty answer of the window search comes from a window that equals
    or contains the aspect term, and lies inside the windows. *)
Lemma find_aspect_found t k groups i j :
  In j (find_aspect t k groups i) ->
  (exists g, In g groups
             /\ (t = join " " (map lower g)
                 \/ contains t (join " " (map lower g)) = true))
  /\ j < i + (List.length groups - 1) + k.
Proof.
  revert i. induction groups as [|g r IH]; intros i H; simpl in H; [contradiction|].
  destruct (String.eqb t (join " " (map lower g))) eqn:He.
  { apply in_seq in H. apply String.eqb_eq in He. split.
    - exists g. split; [now left | now left].
    - simpl. lia. }
  destruct (contains t (join " " (map lower g))) eqn:Hc.
  { apply in_seq in H. split.
    - exists g. split; [now left | now right].
    - simpl. lia. }
  destruct (IH _ H) as ((g' & Hin & Hg') & Hlt). split.
  - exists g'. split; [now right | exact Hg'].
  - simpl. destruct r; simpl in *; [contradiction|lia].
Qed.

Lemma window_rest_length {A} (win rest : list A) :
  List.length (window_rest win rest) = List.length rest.
Proof.
  revert win. induction rest as [|e r IH]; intros win; simpl; [reflexivity|].
  f_equal. apply IH.
Qed.

Lemma window_ok_length {A} (xs : list A) size groups :
  window xs size = Ok groups ->
  size <= List.length xs /\ List.length groups = S (List.length xs - size).
Proof.
  unfold window. destruct (List.length xs <? size) eqn:E; [discriminate|].
  apply Nat.ltb_ge in E. intros [= <-]. split; [exact E|].
  simpl. rewrite window_rest_length, length_skipn. reflexivity.
Qed.

Lemma fold_min_le_init xs x : fold_left Nat.min xs x <= x.
Proof.
  revert x. induction xs as [|z xs IH]; intros x; simpl; [lia|].
  etransitivity; [apply IH|]. lia.
Qed.

Lemma fold_min_le xs x y : In y (x :: xs) -> fold_left Nat.min xs x <= y.
Proof.
  revert x. induction xs as [|z xs IH]; intros x H; simpl.
  - destruct H as [->|[]]. lia.
  - destruct H as [E|[E|H]].
    + subst y. etransitivity; [apply fold_min_le_init|]. lia.
    + subst y. etransitivity; [apply fold_min_le_init|]. lia.
    + apply IH. now right.
Qed.

Lemma py_min_ok xs m :
  py_min xs = Ok m -> xs <> [] /\ forall y, In y xs -> m <= y.
Proof.
  destruct xs as [|x xs]; [discriminate|]. intros [= <-].
  split; [discriminate|]. intros y. apply fold_min_le.
Qed.

Lemma abs_diff_lt n a b : a < n -> b < n -> abs_diff a b < n.
Proof. unfold abs_diff. lia. Qed.

(** Every distance is smaller than the number of tokens. *)
Lemma position_info_ok sptoks asp pos :
  position_info sptoks asp = Ok pos ->
  List.length pos = List.length sptoks
  /\ Forall (fun d => d < List.length sptoks) pos.
Proof.
  unfold position_info. intros H.
  apply rbind_ok in H as (groups & Hw & H).
  apply window_ok_length in Hw as [Hk Hlen].
  split.
  - apply rmap_length in H. rewrite H. apply length_seq.
  - apply rmap_Forall2 in H.
    set (aspect_is := find_aspect _ _ groups 0) in *.
    assert (Hin : forall j, In j aspect_is -> j < List.length sptoks).
    { intros j Hj. apply find_aspect_found in Hj as [_ Hlt]. lia. }
    assert (Hseq : Forall (fun i => i < List.length sptoks)
                          (seq 0 (List.length sptoks))).
    { apply Forall_forall. intros i Hi. apply in_seq in Hi. lia. }
    revert Hseq. induction H as [|i d ixs ds Hd _ IH]; intros Hseq; constructor.
    + apply py_min_ok in Hd as [Hne Hle].
      destruct aspect_is as [|j js] eqn:Ea; [contradiction|].
      inversion Hseq; subst.
      specialize (Hle (abs_diff i j) (or_introl eq_refl)).
      assert (abs_diff i j < List.length sptoks).
      { apply abs_diff_lt; [assumption|]. apply Hin. now left. }
      lia.
    + apply IH. inversion Hseq; assumption.
Qed.

(** C9: [_get_data_tuple] is partial.  For the sentence ["good"] and the
    aspect ["bad"] no window equals or contains the aspect term, and the
    call raises the [ValueError] of [min] on an empty list; the same holds
    for every non-empty sentence whose windows all miss the aspect term.
    Whenever the call returns normally, some window of the sentence equals
    or contains the aspect term. *)
Theorem get_data_tuple_partial :
  (exists sptoks asp label,
      (forall groups g, window sptoks (List.length asp) = Ok groups ->
         In g groups ->
         contains (lower (join " " asp)) (join " " (map lower g)) = false
         /\ lower (join " " asp) <> join " " (map lower g))
      /\ _get_data_tuple sptoks asp label
         = Err (ValueError "min() arg is an empty sequence"))
  /\ (forall sptoks asp label groups,
        sptoks <> [] ->
        window sptoks (List.length asp) = Ok groups ->
        (forall g, In g groups ->
           contains (lower (join " " asp)) (join " " (map lower g)) = false
           /\ lower (join " " asp) <> join " " (map lower g)) ->
        _get_data_tuple sptoks asp label
        = Err (ValueError "min() arg is an empty sequence"))
  /\ (forall sptoks asp label pos lab,
        _get_data_tuple sptoks asp label = Ok (pos, lab) ->
        exists groups g,
          window sptoks (List.length asp) = Ok groups /\ In g groups
          /\ (lower (join " " asp) = join " " (map lower g)
              \/ contains (lower (join " " asp)) (join " " (map lower g)) = true)).
Proof.
  split; [|split].
  - exists ["good"], ["bad"], (Some "positive"). split.
    + intros groups g [= <-] [<-|[]]. split; [reflexivity|discriminate].
    + vm_compute. reflexivity.
  - intros sptoks asp label groups Hne Hw Hmiss.
    unfold _get_data_tuple, position_info. rewrite Hw. simpl.
    rewrite find_aspect_none.
    + destruct sptoks as [|t ts]; [contradiction|]. reflexivity.
    + intros g Hg. destruct (Hmiss g Hg) as [Hc Hn]. split; [exact Hc|].
      apply String.eqb_neq. exact Hn.
  - intros sptoks asp label pos lab H.
    rewrite get_data_tuple_unfold in H.
    destruct (position_info sptoks asp) as [pos'|e] eqn:Hp; [|discriminate].
    unfold position_info in Hp.
    apply rbind_ok in Hp as (groups & Hw & Hp).
    exists groups.
    destruct sptoks as [|t ts].
    + unfold window in Hw. simpl in Hw.
      destruct asp as [|a asp]; [|discriminate]. injection Hw as <-.
      exists []. split; [reflexivity|]. split; [now left|]. left. reflexivity.
    + simpl in Hp. apply rbind_ok in Hp as (d & Hd & _).
      apply py_min_ok in Hd as [Hne _].
      destruct (find_aspect (lower (join " " asp)) (List.length asp) groups 0)
        as [|j js] eqn:Ef; [contradiction|].
      destruct (find_aspect_found (lower (join " " asp)) (List.length asp)
                  groups 0 j) as ((g & Hin & Hg) & _).
      { rewrite Ef. now left. }
      exists g. auto.
Qed.

(** ** read_book_hotel: the returned tuple *)

Lemma distance_feature_range len q :
  distance_feature len q -> (0 <= q <= 1)%Q.
Proof.
  intros (d & Hd & ->).
  destruct len as [|n]; [lia|].
  assert (E : Z.of_nat (S n) = Z.pos (Pos.of_succ_nat n)) by lia.
  rewrite E.
  unfold Qle, Qminus, Qplus, Qopp, Qdiv, Qmult, Qinv, inject_Z.
  cbn [Qnum Qden]. rewrite !Pos2Z.inj_mul.
  split; nia.
Qed.

Lemma distance_list_of_positions n pos loc :
  rmap (fun i => rbind (py_div i n) (fun q => Ok (1 - q)%Q)) pos = Ok loc ->
  List.length pos = n ->
  Forall (fun d => d < n) pos ->
  distance_list loc.
Proof.
  intros Hr Hlen Hpos. unfold distance_list.
  rewrite (rmap_length _ _ _ Hr), Hlen.
  apply rmap_Forall2 in Hr. clear Hlen.
  induction Hr as [|i q pos' loc' Hq _ IH]; constructor.
  - inversion Hpos; subst. exists i. split; [assumption|].
    apply rbind_ok in Hq as (q' & Hdiv & [= <-]).
    unfold py_div in Hdiv. destruct (n =? 0); [discriminate|].
    injection Hdiv as <-. reflexivity.
  - apply IH. inversion Hpos; assumption.
Qed.

Section Preserves.
Context {St : Type} (Inv : St -> Prop).

Lemma preserves_ret {A} (a : A) : preserves Inv (ret a).
Proof. intros s r s' [= _ <-] H. exact H. Qed.

Lemma preserves_lift {A} (x : result A) : preserves Inv (lift x).
Proof. intros s r s' [= _ <-] H. exact H. Qed.

Lemma preserves_modify (f : St -> St) :
  (forall s, Inv s -> Inv (f s)) -> preserves Inv (modify f).
Proof. intros Hf s r s' [= _ <-] H. apply Hf, H. Qed.

Lemma preserves_bind {A B} (m : M St A) (k : A -> M St B) :
  preserves Inv m ->
  (forall a, (exists s s1, m s = (Ok a, s1)) -> preserves Inv (k a)) ->
  preserves Inv (bind m k).
Proof.
  intros Hm Hk s r s' H HI. unfold bind in H.
  destruct (m s) as [[a|e] s1] eqn:E.
  - apply (Hk a (ex_intro _ s (ex_intro _ s1 E)) s1 r s' H).
    apply (Hm s _ s1 E HI).
  - injection H as _ <-. apply (Hm s _ s1 E HI).
Qed.

Lemma preserves_bind_lift {A B} (x : result A) (k : A -> M St B) :
  (forall a, x = Ok a -> preserves Inv (k a)) ->
  preserves Inv (bind (lift x) k).
Proof.
  intros Hk. apply preserves_bind; [apply preserves_lift|].
  intros a (s & s1 & [= Hx _]). apply Hk, Hx.
Qed.

Lemma preserves_for_each {A} (xs : list A) (body : A -> M St unit) :
  (forall x, In x xs -> preserves Inv (body x)) ->
  preserves Inv (for_each xs body).
Proof.
  induction xs as [|x xs IH]; intros H; simpl.
  - apply preserves_ret.
  - apply preserves_bind; [apply H; now left|].
    intros _ _. apply IH. intros y Hy. apply H. now right.
Qed.
End Preserves.

Lemma bind_ok {St A B} (m : M St A) (k : A -> M St B) s b s' :
  bind m k s = (Ok b, s') ->
  exists a s1, m s = (Ok a, s1) /\ k a s1 = (Ok b, s').
Proof.
  unfold bind. destruct (m s) as [[a|e] s1]; [eauto|discriminate].
Qed.

Lemma max_if a b : (if a <? b then b else a) = Nat.max a b.
Proof. destruct (a <? b) eqn:E; [apply Nat.ltb_lt in E|apply Nat.ltb_ge in E]; lia. Qed.

(** A loop whose every round raises a counter to a maximum. *)
Lemma for_each_max {St A} (f : St -> nat) (g : A -> list nat)
      (body : A -> M St unit) xs :
  (forall x s u s', In x xs -> body x s = (Ok u, s') ->
                    f s' = Nat.max (f s) (list_max (g x))) ->
  forall s u s', for_each xs body s = (Ok u, s') ->
                 f s' = Nat.max (f s) (list_max (flat_map g xs)).
Proof.
  induction xs as [|x xs IH]; intros Hbody s u s' H; simpl in *.
  - injection H as _ <-. lia.
  - apply bind_ok in H as (u1 & s1 & H1 & H2).
    rewrite list_max_app.
    rewrite (IH (fun y t v t' Hy => Hbody y t v t' (or_intror Hy)) s1 u s' H2).
    rewrite (Hbody x s u1 s1 (or_introl eq_refl) H1). lia.
Qed.

Section RaisesOnly.
Context {St : Type} (Q : exn -> Prop).

Lemma raises_only_ret {A} (a : A) : raises_only (St := St) Q (ret a).
Proof. intros s e s' H. discriminate. Qed.

Lemma raises_only_modify (f : St -> St) : raises_only Q (modify f).
Proof. intros s e s' H. discriminate. Qed.

Lemma raises_only_bind {A B} (m : M St A) (k : A -> M St B) :
  raises_only Q m -> (forall a, raises_only Q (k a)) ->
  raises_only Q (bind m k).
Proof.
  intros Hm Hk s e s' H. unfold bind in H.
  destruct (m s) as [[a|e1] s1] eqn:E.
  - apply (Hk a s1 e s' H).
  - injection H as <- _. apply (Hm s e1 s1 E).
Qed.

Lemma raises_only_bind_lift {A B} (x : result A) (k : A -> M St B) :
  (forall e, x = Err e -> Q e) -> (forall a, raises_only Q (k a)) ->
  raises_only Q (bind (lift x) k).
Proof.
  intros Hx Hk. apply raises_only_bind; [|exact Hk].
  intros s e s' [= H _]. apply Hx, H.
Qed.

Lemma raises_only_for_each {A} (xs : list A) (body : A -> M St unit) :
  (forall x, raises_only Q (body x)) -> raises_only Q (for_each xs body).
Proof.
  intros H. induction xs as [|x xs IH]; simpl.
  - apply raises_only_ret.
  - apply raises_only_bind; [apply H|]. intros _. exact IH.
Qed.
End RaisesOnly.

Lemma rbind_err {A B} (r : result A) (k : A -> result B) e :
  rbind r k = Err e -> r = Err e \/ exists a, r = Ok a /\ k a = Err e.
Proof. destruct r as [a|e1]; simpl; [eauto|intros [= ->]; auto]. Qed.

Lemma rmap_err {A B} (f : A -> result B) xs e :
  rmap f xs = Err e -> exists x, In x xs /\ f x = Err e.
Proof.
  induction xs as [|x xs IH]; simpl; [discriminate|]. intros H.
  apply rbind_err in H as [H|(y & Hy & H)]; [exists x; auto|].
  apply rbind_err in H as [H|(ys & Hys & H)]; [|discriminate].
  destruct (IH H) as (x' & Hin & Hx'). exists x'. auto.
Qed.

(** The exceptions of the helpers are never the one of a raised string. *)
Lemma get_data_tuple_error sptoks asp label e :
  _get_data_tuple sptoks asp label = Err e -> e <> raise_str_error.
Proof.
  rewrite get_data_tuple_unfold.
  destruct (position_info sptoks asp) as [pos|e1] eqn:Hp.
  - destruct (polarity_map label); [discriminate|].
    intros [= <-]. discriminate.
  - intros [= <-]. unfold position_info in Hp.
    apply rbind_err in Hp as [Hp|(groups & _ & Hp)].
    + unfold window in Hp. destruct (_ <? _); [|discriminate].
      injection Hp as <-. discriminate.
    + apply rmap_err in Hp as (i & _ & Hi). unfold py_min in Hi.
      destruct (map _ _); [|discriminate]. injection Hi as <-. discriminate.
Qed.

Lemma replace_nth_occurrence_error sentence target replacement n e :
  replace_nth_occurrence sentence target replacement n = Err e ->
  e = IndexError.
Proof.
  unfold replace_nth_occurrence. destruct (_ <? _)%Z; [discriminate|].
  intros H. apply rbind_err in H as [H|(m & _ & H)].
  - unfold py_index in H. destruct (_ <? 0)%Z; [congruence|].
    destruct (nth_error _ _); congruence.
  - destruct m. discriminate.
Qed.

Section ReaderFacts.
Variable word_tokenize : string -> list string.
Variable ET_parse : string -> option element.
Variable py_int : string -> option Z.

Let Inv (s : pass2) : Prop := Forall distance_list (source_loc_data s).

Lemma out_write_preserves x : preserves Inv (out_write x).
Proof. apply preserves_modify. intros s H. exact H. Qed.

Lemma second_opinion_preserves phrase2idx sent sptoks idx opinion :
  List.length idx = List.length sptoks ->
  preserves Inv (second_opinion word_tokenize py_int phrase2idx sent sptoks
                                idx opinion).
Proof.
  intros Hidx. unfold second_opinion.
  destruct (is_conflict opinion); [apply preserves_ret|].
  destruct (explicit_target opinion) as [asp|]; [|apply preserves_ret].
  apply preserves_bind; [apply preserves_modify; intros s H; exact H|].
  intros _ _.
  apply preserves_bind_lift. intros n _.
  apply preserves_bind_lift. intros outputtext _.
  do 4 (apply preserves_bind; [apply out_write_preserves|]; intros _ _).
  apply preserves_bind_lift. intros [pos_info lab] Hpl.
  apply preserves_bind_lift. intros loc Hloc. simpl in Hloc.
  apply preserves_bind.
  { apply preserves_modify. intros s H. unfold Inv. simpl.
    apply Forall_app. split; [exact H|]. constructor; [|constructor].
    rewrite get_data_tuple_unfold in Hpl.
    destruct (position_info sptoks (word_tokenize (re_sub_spaces asp)))
      as [pos|e] eqn:Hp; [|discriminate].
    destruct (polarity_map (get "polarity" opinion)); [|discriminate].
    injection Hpl as -> _.
    apply position_info_ok in Hp as [Hlen Hlt].
    apply (distance_list_of_positions (List.length idx) pos_info loc Hloc).
    - congruence.
    - rewrite Hidx. exact Hlt. }
  intros _ _.
  apply preserves_bind_lift. intros t _.
  apply preserves_bind; [apply preserves_modify; intros s H; exact H|].
  intros _ _.
  apply preserves_bind; [apply preserves_modify; intros s H; exact H|].
  intros _ _.
  apply preserves_bind; [apply out_write_preserves|]. intros _ _.
  apply out_write_preserves.
Qed.

Lemma second_sentence_preserves word2idx phrase2idx sentence :
  preserves Inv (second_sentence word_tokenize py_int word2idx phrase2idx
                                 sentence).
Proof.
  unfold second_sentence.
  apply preserves_bind_lift. intros sent _.
  destruct (List.length (word_tokenize (re_sub_spaces sent)) =? 0);
    [apply preserves_ret|].
  apply preserves_bind_lift. intros idx Hidx.
  apply rmap_length in Hidx.
  apply preserves_for_each. intros opinions _.
  apply preserves_for_each. intros opinion _.
  apply second_opinion_preserves. exact Hidx.
Qed.

(** *** The maxima of the first pass *)

Lemma first_opinion_max opinion s u s' :
  first_opinion word_tokenize opinion s = (Ok u, s') ->
  max_sent_len s' = max_sent_len s
  /\ max_target_len s'
     = Nat.max (max_target_len s)
               (list_max (opinion_target_lengths word_tokenize opinion)).
Proof.
  unfold first_opinion, opinion_target_lengths.
  destruct (is_conflict opinion).
  { intros [= _ <-]. simpl. split; [reflexivity|lia]. }
  destruct (explicit_target opinion) as [asp|].
  - intros [= _ <-]. simpl. rewrite max_if. split; [reflexivity|lia].
  - intros [= _ <-]. simpl. split; [reflexivity|lia].
Qed.

Lemma first_opinions_max sentence s u s' :
  for_each (iter "Opinions" sentence)
           (fun opinions =>
              for_each (findall "Opinion" opinions) (first_opinion word_tokenize))
           s = (Ok u, s') ->
  max_sent_len s' = max_sent_len s
  /\ max_target_len s'
     = Nat.max (max_target_len s)
               (list_max (sentence_target_lengths word_tokenize sentence)).
Proof.
  intros H. split.
  - assert (Hp : preserves (fun t => max_sent_len s = max_sent_len t)
                   (for_each (iter "Opinions" sentence)
                      (fun opinions =>
                         for_each (findall "Opinion" opinions)
                                  (first_opinion word_tokenize)))).
    { apply preserves_for_each. intros opinions _.
      apply preserves_for_each. intros opinion _ t r t' Ht ->.
      unfold first_opinion in Ht.
      destruct (is_conflict opinion); [injection Ht as _ <-; reflexivity|].
      destruct (explicit_target opinion); injection Ht as _ <-; reflexivity. }
    symmetry. exact (Hp s _ s' H eq_refl).
  - unfold sentence_target_lengths.
    eapply (for_each_max max_target_len
              (fun opinions => flat_map (opinion_target_lengths word_tokenize)
                                        (findall "Opinion" opinions)));
      [|exact H].
    intros opinions t v t' _.
    apply (for_each_max max_target_len (opinion_target_lengths word_tokenize)).
    intros opinion t1 v1 t1' _ H1. apply (first_opinion_max _ _ _ _ H1).
Qed.

Lemma first_sentence_max sentence s u s' :
  first_sentence word_tokenize sentence s = (Ok u, s') ->
  max_sent_len s'
  = Nat.max (max_sent_len s)
            (list_max match sentence_text sentence with
                      | Ok sent => [List.length (word_tokenize (re_sub_spaces sent))]
                      | Err _ => []
                      end)
  /\ max_target_len s'
     = Nat.max (max_target_len s)
               (list_max (sentence_target_lengths word_tokenize sentence)).
Proof.
  unfold first_sentence. intros H.
  apply bind_ok in H as (sent & s1 & H1 & H).
  injection H1 as H1 <-. rewrite H1.
  apply bind_ok in H as ([] & s2 & H2 & H).
  injection H2 as <-.
  apply first_opinions_max in H as [Hs Ht]. simpl in Hs, Ht.
  rewrite Hs, Ht, max_if. simpl. split; lia.
Qed.

Lemma first_pass_max root p1 :
  for_each (iter "sentence" root) (first_sentence word_tokenize) pass1_init
  = (Ok tt, p1) ->
  max_sent_len p1 = list_max (sentence_lengths word_tokenize root)
  /\ max_target_len p1 = list_max (target_lengths word_tokenize root).
Proof.
  intros H. split.
  - apply (for_each_max max_sent_len
             (fun sentence =>
                match sentence_text sentence with
                | Ok sent => [List.length (word_tokenize (re_sub_spaces sent))]
                | Err _ => []
                end)) in H; [exact H|].
    intros x s u s' _ Hx. apply (first_sentence_max _ _ _ _ Hx).
  - apply (for_each_max max_target_len
             (sentence_target_lengths word_tokenize)) in H; [exact H|].
    intros x s u s' _ Hx. apply (first_sentence_max _ _ _ _ Hx).
Qed.

(** *** The exceptions of the two passes *)

Let not_raise_str (e : exn) : Prop := e <> raise_str_error.

Lemma sentence_text_error sentence e :
  sentence_text sentence = Err e -> not_raise_str e.
Proof.
  unfold sentence_text. destruct (find "text" sentence) as [t|].
  - destruct (text_of t); [discriminate|]. intros [= <-]. discriminate.
  - intros [= <-]. discriminate.
Qed.

Lemma first_sentence_raises sentence :
  raises_only not_raise_str (first_sentence word_tokenize sentence).
Proof.
  unfold first_sentence.
  apply raises_only_bind_lift; [apply sentence_text_error|]. intros sent.
  apply raises_only_bind; [apply raises_only_modify|]. intros _.
  apply raises_only_for_each. intros opinions.
  apply raises_only_for_each. intros opinion. unfold first_opinion.
  destruct (is_conflict opinion); [apply raises_only_modify|].
  destruct (explicit_target opinion); apply raises_only_modify.
Qed.

Lemma second_opinion_raises phrase2idx sent sptoks idx opinion :
  raises_only not_raise_str
    (second_opinion word_tokenize py_int phrase2idx sent sptoks idx opinion).
Proof.
  unfold second_opinion.
  destruct (is_conflict opinion); [apply raises_only_ret|].
  destruct (explicit_target opinion) as [asp|]; [|apply raises_only_ret].
  apply raises_only_bind; [apply raises_only_modify|]. intros _.
  apply raises_only_bind_lift.
  { unfold occurrence_of. intros e.
    destruct (get "occurrence" opinion) as [o|];
      [destruct (py_int o)|]; intros [= <-]; discriminate. }
  intros n. apply raises_only_bind_lift.
  { intros e He. apply replace_nth_occurrence_error in He. subst e.
    discriminate. }
  intros outputtext.
  do 4 (apply raises_only_bind; [apply raises_only_modify|]; intros _).
  apply raises_only_bind_lift; [intros e; apply get_data_tuple_error|].
  intros pl. apply raises_only_bind_lift.
  { intros e He. apply rmap_err in He as (i & _ & Hi).
    apply rbind_err in Hi as [Hi|(q & _ & Hi)]; [|discriminate].
    unfold py_div in Hi. destruct (_ =? 0); [|discriminate].
    injection Hi as <-. discriminate. }
  intros loc. apply raises_only_bind; [apply raises_only_modify|]. intros _.
  apply raises_only_bind_lift.
  { unfold dict_get. intros e. destruct (assoc _ _); [discriminate|].
    intros [= <-]. discriminate. }
  intros t.
  do 3 (apply raises_only_bind; [apply raises_only_modify|]; intros _).
  apply raises_only_modify.
Qed.

Lemma second_sentence_raises word2idx phrase2idx sentence :
  raises_only not_raise_str
    (second_sentence word_tokenize py_int word2idx phrase2idx sentence).
Proof.
  unfold second_sentence.
  apply raises_only_bind_lift; [apply sentence_text_error|]. intros sent.
  destruct (List.length (word_tokenize (re_sub_spaces sent)) =? 0);
    [apply raises_only_ret|].
  apply raises_only_bind_lift.
  { intros e He. apply rmap_err in He as (x & _ & Hx). unfold dict_get in Hx.
    destruct (assoc _ _); [discriminate|]. injection Hx as <-. discriminate. }
  intros idx. apply raises_only_for_each. intros opinions.
  apply raises_only_for_each. intros opinion. apply second_opinion_raises.
Qed.

(** *** The guard of lines 146-147 *)

Lemma read_book_hotel_guard in_file source_count source_word2idx target_count
      target_phrase2idx out_file w :
  isfile w in_file = false ->
  read_book_hotel word_tokenize ET_parse py_int in_file source_count
                  source_word2idx target_count target_phrase2idx out_file w
  = (Err raise_str_error, w).
Proof. intros H. unfold read_book_hotel. rewrite H. reflexivity. Qed.

Lemma read_book_hotel_guard_passed in_file source_count source_word2idx
      target_count target_phrase2idx out_file w :
  isfile w in_file = true ->
  fst (read_book_hotel word_tokenize ET_parse py_int in_file source_count
                       source_word2idx target_count target_phrase2idx out_file w)
  <> Err raise_str_error.
Proof.
  intros H. unfold read_book_hotel. rewrite H. simpl negb. cbv iota.
  unfold ET_parse_file. unfold isfile in H.
  destruct (w in_file) as [content|]; [|discriminate].
  destruct (ET_parse content) as [root|]; [|discriminate].
  destruct (for_each (iter "sentence" root) (first_sentence word_tokenize)
                     pass1_init) as [[[]|e] p1] eqn:E1.
  - match goal with
    | |- context [for_each ?xs ?body pass2_init] =>
        destruct (for_each xs body pass2_init) as [[[]|e] p2] eqn:E2
    end.
    + unfold report.
      destruct (_ =? 0); [discriminate|].
      destruct (_ =? 0); discriminate.
    + simpl. intros [= ->].
      apply (raises_only_for_each not_raise_str _ _
               (second_sentence_raises _ _) _ _ _ E2). reflexivity.
  - simpl. intros [= ->].
    apply (raises_only_for_each not_raise_str _ _
             first_sentence_raises _ _ _ E1). reflexivity.
Qed.

(** C8 at the failing input: with no file at "missing.xml", the guard of
    lines 146-147 raises a string, which Python turns into a [TypeError];
    the call aborts before parsing and the file system is unchanged (no
    output file), but the exception neither is a file-not-found error nor
    carries the path.  That [TypeError] is raised exactly when the path
    names no file. *)
Theorem read_book_hotel_missing_file :
  isfile empty_fs "missing.xml" = false
  /\ read_book_hotel word_tokenize ET_parse py_int "missing.xml" [] [] [] []
                     "out.txt" empty_fs
     = (Err (TypeError "exceptions must derive from BaseException"), empty_fs)
  /\ fst (read_book_hotel word_tokenize ET_parse py_int "missing.xml" [] [] [] []
                          "out.txt" empty_fs)
     <> Err (FileNotFoundError "missing.xml")
  /\ isfile (snd (read_book_hotel word_tokenize ET_parse py_int "missing.xml"
                                  [] [] [] [] "out.txt" empty_fs)) "out.txt"
     = false
  /\ (forall in_file source_count source_word2idx target_count
             target_phrase2idx out_file w,
        fst (read_book_hotel word_tokenize ET_parse py_int in_file source_count
                             source_word2idx target_count target_phrase2idx
                             out_file w)
        = Err (TypeError "exceptions must derive from BaseException")
        <-> isfile w in_file = false).
Proof.
  rewrite read_book_hotel_guard by reflexivity.
  split; [reflexivity|]. split; [reflexivity|]. split; [discriminate|].
  split; [reflexivity|].
  intros in_file sc sw tc tp out_file w. split.
  - intros H. destruct (isfile w in_file) eqn:E; [|reflexivity].
    exfalso. exact (read_book_hotel_guard_passed _ _ _ _ _ _ _ E H).
  - intros H. rewrite read_book_hotel_guard by exact H. reflexivity.
Qed.

(** C10: when [read_book_hotel] returns normally, the 2nd and the 6th
    component of its tuple are the same list [source_loc_data], the 5th
    is the [max_sent_len] and the 7th the [max_target_len] that the first
    pass over the corpus left (the largest token count of a sentence and
    of an explicit, conflict-free target); every element of [source_loc_data] is a
    list with one value [1 - d / len] per token, where [len] is the
    length of that list (the sentence length) and [d < len], so every
    distance feature lies between 0 and 1. *)
Theorem read_book_hotel_tuple
        (in_file out_file : string)
        (source_count target_count : list (string * nat))
        (source_word2idx target_phrase2idx : dict) (w w' : fs)
        (sd : list (list nat)) (loc2 loc6 : list (list Q))
        (td : list nat) (tl : list Z) (len5 len7 : nat) :
  read_book_hotel word_tokenize ET_parse py_int in_file source_count
                  source_word2idx target_count target_phrase2idx out_file w
  = (Ok (sd, loc2, td, tl, len5, loc6, len7), w') ->
  loc6 = loc2
  /\ (exists root p1,
        ET_parse_file ET_parse w in_file = Ok root
        /\ for_each (iter "sentence" root) (first_sentence word_tokenize)
                    pass1_init = (Ok tt, p1)
        /\ len5 = max_sent_len p1 /\ len7 = max_target_len p1
        /\ len5 = list_max (sentence_lengths word_tokenize root)
        /\ len7 = list_max (target_lengths word_tokenize root))
  /\ Forall distance_list loc2
  /\ Forall (Forall (fun q => (0 <= q <= 1)%Q)) loc2.
Proof.
  unfold read_book_hotel. intros H.
  destruct (negb (isfile w in_file)); [discriminate|].
  destruct (ET_parse_file ET_parse w in_file) as [root|e]; [|discriminate].
  destruct (for_each (iter "sentence" root) (first_sentence word_tokenize)
                     pass1_init) as [[[]|e] p1] eqn:E1; [|discriminate].
  match type of H with
  | context [for_each ?xs ?body pass2_init] =>
      destruct (for_each xs body pass2_init) as [[[]|e] p2] eqn:E2;
        [|discriminate]
  end.
  destruct (report p1 p2); [|discriminate].
  injection H as <- <- <- <- <- <- <- _.
  assert (HI : Inv p2).
  { apply (preserves_for_each Inv _ _
             (fun x _ => second_sentence_preserves _ _ x) _ _ _ E2).
    constructor. }
  split; [reflexivity|]. split; [|split].
  - exists root, p1. destruct (first_pass_max root p1 E1) as [H5 H7]. auto 6.
  - exact HI.
  - eapply Forall_impl; [|exact HI].
    intros loc Hloc. eapply Forall_impl; [|exact Hloc].
    intros q. apply distance_feature_range.
Qed.
End ReaderFacts.

Lemma read_book_hotel_tuple_witness :
  exists w',
    read_book_hotel tokenize_spaces (fun _ => Some coffee_corpus) int_digit
                    "book.xml" [] [] [] [] "out.txt" coffee_fs
    = (Ok coffee_result, w')
    /\ w' "out.txt"
       = Some ("the coffee was great and the $T$ was hot" ++ newline
               ++ "coffee" ++ newline ++ "1" ++ newline)%string
    /\ Forall distance_list coffee_loc
    /\ Forall (Forall (fun q => (0 <= q <= 1)%Q)) coffee_loc.
Proof.
  set (r := read_book_hotel tokenize_spaces (fun _ => Some coffee_corpus)
                            int_digit "book.xml" [] [] [] [] "out.txt"
                            coffee_fs).
  assert (E : r = (Ok coffee_result, snd r)) by (vm_compute; reflexivity).
  exists (snd r). split; [exact E|]. split; [vm_compute; reflexivity|].
  exact (proj2 (proj2 (read_book_hotel_tuple tokenize_spaces
                         (fun _ => Some coffee_corpus) int_digit
                         "book.xml" "out.txt" [] [] [] [] coffee_fs (snd r)
                         _ _ _ _ _ _ _ E))).
Defined.

(* ------------------------------------------------------------------ *)
(** ** Further properties: strings *)

Lemma length_append s1 s2 :
  length (s1 ++ s2)%string = length s1 + length s2.
Proof. induction s1 as [|c s1 IH]; simpl; [reflexivity|]. now rewrite IH. Qed.

Lemma length_substring n m s :
  n + m <= length s -> length (substring n m s) = m.
Proof.
  revert n m. induction s as [|c s IH]; intros n m H; simpl in H.
  - assert (n = 0) by lia. assert (m = 0) by lia. subst. reflexivity.
  - destruct n as [|n]; simpl.
    + destruct m as [|m]; [reflexivity|]. simpl. f_equal. apply IH. lia.
    + apply IH. lia.
Qed.

Lemma substring_zero n s : substring n 0 s = "".
Proof.
  revert n. induction s as [|c s IH]; intros [|n]; simpl; auto.
Qed.

(** [s[:a] + s[a:a+l] + s[a+l:]] is [s]. *)
Lemma substring_three a l s :
  a + l <= length s ->
  (slice_to s a ++ substring a l s ++ slice_from s (a + l))%string = s.
Proof.
  unfold slice_to, slice_from.
  revert a l. induction s as [|c s IH]; intros a l H; simpl in H.
  - assert (a = 0) by lia. assert (l = 0) by lia. subst. reflexivity.
  - destruct a as [|a].
    + simpl. destruct l as [|l].
      * simpl. f_equal.
        specialize (IH 0 0 ltac:(lia)). simpl in IH.
        rewrite !substring_zero in IH. simpl in IH.
        rewrite Nat.sub_0_r in IH. exact IH.
      * simpl. f_equal.
        specialize (IH 0 l ltac:(lia)). simpl in IH.
        rewrite substring_zero in IH. simpl in IH. exact IH.
    + simpl. f_equal. apply IH. lia.
Qed.

Lemma length_slice_to s a : a <= length s -> length (slice_to s a) = a.
Proof. intros H. unfold slice_to. apply length_substring. lia. Qed.

Lemma length_slice_from s a :
  a <= length s -> length (slice_from s a) = length s - a.
Proof. intros H. unfold slice_from. apply length_substring. lia. Qed.

Lemma prefix_length t s : prefix t s = true -> length t <= length s.
Proof.
  revert s. induction t as [|a t IH]; intros s H; simpl; [lia|].
  destruct s as [|b s]; simpl in H; [discriminate|].
  destruct (ascii_dec a b); [|discriminate].
  simpl. apply IH in H. lia.
Qed.

(** ** window *)

Lemma firstn_snoc {A} s (l : list A) e r :
  skipn s l = e :: r -> firstn s l ++ [e] = firstn (S s) l.
Proof.
  revert l. induction s as [|s IH]; intros l H.
  - simpl in H. subst l. reflexivity.
  - destruct l as [|a l]; [discriminate|]. simpl in H.
    change (firstn (S s) (a :: l)) with (a :: firstn s l).
    change (firstn (S (S s)) (a :: l)) with (a :: firstn (S s) l).
    simpl. f_equal. apply IH. exact H.
Qed.

Lemma skipn_tail {A} s (l : list A) e r :
  skipn s l = e :: r -> skipn (S s) l = r.
Proof.
  revert l. induction s as [|s IH]; intros l H.
  - simpl in H. subst l. reflexivity.
  - destruct l as [|a l]; [discriminate|]. simpl in H. simpl. apply IH, H.
Qed.

Lemma window_rest_nth {A} s (l : list A) i :
  i < List.length (skipn (S s) l) ->
  nth_error (window_rest (firstn (S s) l) (skipn (S s) l)) i
  = Some (firstn (S s) (skipn (S i) l)).
Proof.
  revert l. induction i as [|i IH]; intros l Hi.
  - destruct l as [|a l]; [simpl in Hi; lia|].
    change (skipn (S s) (a :: l)) with (skipn s l) in *.
    destruct (skipn s l) as [|e r] eqn:E; [simpl in Hi; lia|].
    change (firstn (S s) (a :: l)) with (a :: firstn s l).
    simpl. rewrite (firstn_snoc s l e r E). reflexivity.
  - destruct l as [|a l]; [simpl in Hi; lia|].
    change (skipn (S s) (a :: l)) with (skipn s l) in *.
    destruct (skipn s l) as [|e r] eqn:E; [simpl in Hi; lia|].
    change (firstn (S s) (a :: l)) with (a :: firstn s l).
    cbn [window_rest tl nth_error]. rewrite (firstn_snoc s l e r E).
    rewrite <- (skipn_tail s l e r E).
    change (skipn (S (S i)) (a :: l)) with (skipn (S i) l).
    apply IH. rewrite (skipn_tail s l e r E). simpl in Hi. lia.
Qed.

Lemma window_rest_nil {A} (l : list A) :
  window_rest [] l = map (fun e => [e]) l.
Proof.
  assert (H : forall win, List.length win <= 1 ->
                          window_rest win l = map (fun e => [e]) l).
  { induction l as [|e r IH]; intros win Hw; simpl; [reflexivity|].
    destruct win as [|x [|y win]]; simpl in *; try lia;
      f_equal; apply IH; simpl; lia. }
  apply H. simpl. lia.
Qed.

(** X11: [window] raises exactly when the list is shorter than the window
    size.  Otherwise it yields [len - size + 1] windows; for a size of at
    least 1 the [i]-th window is the slice [xs[i : i + size]], and for
    size 0 it yields the empty list followed by one singleton per item. *)
Theorem window_slices {A} (xs : list A) (size : nat) :
  (List.length xs < size ->
   window xs size = Err (RuntimeError "generator raised StopIteration"))
  /\ (size <= List.length xs ->
      exists groups,
        window xs size = Ok groups
        /\ List.length groups = List.length xs - size + 1
        /\ (1 <= size ->
            forall i, i <= List.length xs - size ->
                      nth_error groups i = Some (firstn size (skipn i xs)))
        /\ (size = 0 -> groups = [] :: map (fun e => [e]) xs)).
Proof.
  unfold window. split.
  - intros H. apply Nat.ltb_lt in H. rewrite H. reflexivity.
  - intros H. pose proof H as H'. apply Nat.ltb_ge in H'. rewrite H'.
    eexists. split; [reflexivity|]. split; [|split].
    + simpl. rewrite window_rest_length, length_skipn. lia.
    + intros H1 [|i] Hi; [reflexivity|].
      destruct size as [|s]; [lia|]. cbn [nth_error].
      apply window_rest_nth. rewrite length_skipn. lia.
    + intros ->. simpl. rewrite window_rest_nil. reflexivity.
Qed.

(** ** finditer *)

Lemma match_here_prefix target prev s :
  match_here target prev s = true ->
  substring 0 (length target) s = target /\ length target <= length s.
Proof.
  unfold match_here. intros H.
  apply andb_prop in H as [H _]. apply andb_prop in H as [H _].
  split; [apply prefix_correct, H | apply prefix_length, H].
Qed.

(** Every span the scan of the suffix [s] at offset [i] yields starts at or
    after [i + skip], covers an occurrence of the target, and the spans
    come in text order without overlap. *)
Lemma scan_spans target s :
  forall prev i skip,
    Forall (fun sp => i + skip <= fst sp
                      /\ snd sp = fst sp + length target
                      /\ (fst sp - i) + length target <= length s
                      /\ substring (fst sp - i) (length target) s = target)
           (scan target prev s i skip)
    /\ StronglySorted span_before (scan target prev s i skip).
Proof.
  induction s as [|c r IH]; intros prev i skip.
  - cbn [scan]. destruct skip as [|skip]; [|split; constructor].
    destruct (match_here target prev "") eqn:E; [|split; constructor].
    apply match_here_prefix in E as [E1 E2]. split.
    + constructor; [|constructor]. cbn [fst snd].
      rewrite Nat.sub_diag. repeat split; try lia. exact E1.
    + constructor; constructor.
  - cbn [scan].
    set (here := match skip with
                 | 0 => match_here target prev (String c r)
                 | S _ => false
                 end).
    assert (Hskip : here = true -> skip = 0).
    { unfold here. destruct skip; [reflexivity|discriminate]. }
    destruct (IH (is_word c) (S i)
                 (if here then length target - 1 else skip - 1))
      as [IH1 IH2].
    assert (Hrest : Forall (fun sp =>
                i + skip <= fst sp
                /\ snd sp = fst sp + length target
                /\ (fst sp - i) + length target <= length (String c r)
                /\ substring (fst sp - i) (length target) (String c r) = target)
              (scan target (is_word c) r (S i)
                    (if here then length target - 1 else skip - 1))).
    { eapply Forall_impl; [|exact IH1]. intros [a e] (H1 & H2 & H3 & H4).
      cbn [fst snd] in *. repeat split.
      - destruct here; [rewrite (Hskip eq_refl)|]; lia.
      - exact H2.
      - simpl. lia.
      - replace (a - i) with (S (a - S i)) by lia. exact H4. }
    destruct here eqn:Eh.
    + pose proof (Hskip eq_refl) as Hs. subst skip. unfold here in Eh.
      apply match_here_prefix in Eh as [E1 E2]. split.
      * cbn [app]. constructor; [|exact Hrest]. cbn [fst snd].
        rewrite Nat.sub_diag. repeat split; try lia. exact E1.
      * cbn [app]. constructor; [exact IH2|].
        eapply Forall_impl; [|exact IH1]. intros [a e] (H1 & _).
        unfold span_before. cbn [fst snd] in *. lia.
    + split; [exact Hrest | exact IH2].
Qed.

(** X12: every span that [finditer] reports has the length of the target,
    lies inside the sentence and covers exactly the target text; the spans
    are listed from left to right and never overlap. *)
Theorem finditer_spans (target sentence : string) :
  Forall (fun sp => snd sp = fst sp + length target
                    /\ snd sp <= length sentence
                    /\ substring (fst sp) (length target) sentence = target)
         (finditer target sentence)
  /\ StronglySorted span_before (finditer target sentence).
Proof.
  unfold finditer.
  destruct (scan_spans target sentence false 0 0) as [H1 H2].
  split; [|exact H2].
  eapply Forall_impl; [|exact H1]. intros [a e] (_ & E1 & E2 & E3).
  cbn [fst snd] in *. rewrite Nat.sub_0_r in *. repeat split; try lia.
  exact E3.
Qed.

(** ** replace_nth_occurrence *)

Lemma finditer_nth target sentence i a e :
  nth_error (finditer target sentence) i = Some (a, e) ->
  e = a + length target /\ e <= length sentence
  /\ substring a (length target) sentence = target.
Proof.
  intros H. apply nth_error_In in H.
  destruct (scan_spans target sentence false 0 0) as [H1 _].
  rewrite Forall_forall in H1. specialize (H1 _ H).
  cbn [fst snd] in H1. rewrite Nat.sub_0_r in H1.
  destruct H1 as (_ & E1 & E2 & E3). repeat split; try lia. exact E3.
Qed.

(** X13: when the sentence has at least [n >= 1] whole-word matches of the
    target, [replace_nth_occurrence] rewrites exactly the [n]-th of them:
    the result is the text before the match, the replacement, and the text
    after the match; the text it removes is the target; the length changes
    by the difference of replacement and target; and replacing the target
    by itself gives the sentence back. *)
Theorem replace_nth_occurrence_match
        (sentence target replacement : string) (n : Z) :
  (1 <= n <= Z.of_nat (List.length (finditer target sentence)))%Z ->
  exists start,
    nth_error (finditer target sentence) (Z.to_nat (n - 1))
    = Some (start, start + length target)
    /\ substring start (length target) sentence = target
    /\ replace_nth_occurrence sentence target replacement n
       = Ok (slice_to sentence start ++ replacement
             ++ slice_from sentence (start + length target))%string
    /\ length (slice_to sentence start ++ replacement
               ++ slice_from sentence (start + length target))%string
       + length target
       = length sentence + length replacement
    /\ replace_nth_occurrence sentence target target n = Ok sentence.
Proof.
  intros Hn.
  destruct (nth_error (finditer target sentence) (Z.to_nat (n - 1)))
    as [[a e]|] eqn:E.
  2:{ apply nth_error_None in E. lia. }
  destruct (finditer_nth target sentence _ a e E) as (He & Hle & Hsub).
  subst e. exists a.
  assert (Hrun : forall r,
            replace_nth_occurrence sentence target r n
            = Ok (slice_to sentence a ++ r
                  ++ slice_from sentence (a + length target))%string).
  { intros r. unfold replace_nth_occurrence.
    replace (Z.of_nat (List.length (finditer target sentence)) <? n)%Z
      with false by (symmetry; apply Z.ltb_ge; lia).
    assert (Hlt : (n - 1 <? 0)%Z = false) by (apply Z.ltb_ge; lia).
    unfold py_index. cbv zeta. rewrite !Hlt, E. reflexivity. }
  split; [reflexivity|]. split; [exact Hsub|]. split; [apply Hrun|]. split.
  - rewrite !length_append, length_slice_to, length_slice_from by lia. lia.
  - rewrite Hrun. f_equal.
    pose proof (substring_three a (length target) sentence Hle) as H3.
    rewrite Hsub in H3. exact H3.
Qed.

Lemma replace_nth_occurrence_match_witness :
  (1 <= 1 <= Z.of_nat (List.length (finditer "hot" "the hot hot tea")))%Z
  /\ replace_nth_occurrence "the hot hot tea" "hot" "hot" 1
     = Ok "the hot hot tea".
Proof.
  assert (H : (1 <= 1 <= Z.of_nat (List.length
                                     (finditer "hot" "the hot hot tea")))%Z)
    by (vm_compute; split; discriminate).
  split; [exact H|].
  destruct (replace_nth_occurrence_match "the hot hot tea" "hot" "$T$" 1 H)
    as (start & _ & _ & _ & _ & Hid).
  exact Hid.
Defined.

(** X14: [replace_nth_occurrence] raises only an [IndexError], and exactly
    when [n <= 0] and the sentence has fewer than [1 - n] whole-word
    matches; for [n >= 1] it always returns.  With [n <= 0] and enough
    matches it counts from the end of the match list ([n = 0] rewrites the
    last match). *)
Theorem replace_nth_occurrence_errors
        (sentence target replacement : string) (n : Z) :
  let matches := finditer target sentence in
  (forall e, replace_nth_occurrence sentence target replacement n = Err e ->
             e = IndexError)
  /\ (replace_nth_occurrence sentence target replacement n = Err IndexError
      <-> (n <= 0 /\ Z.of_nat (List.length matches) < 1 - n)%Z)
  /\ ((n <= 0)%Z -> (1 - n <= Z.of_nat (List.length matches))%Z ->
      exists start end_,
        nth_error matches (Z.to_nat (Z.of_nat (List.length matches) + n - 1))
        = Some (start, end_)
        /\ replace_nth_occurrence sentence target replacement n
           = Ok (slice_to sentence start ++ replacement
                 ++ slice_from sentence end_)%string).
Proof.
  intros matches. split; [|split].
  - intros e. apply replace_nth_occurrence_error.
  - unfold replace_nth_occurrence. fold matches.
    destruct (Z.of_nat (List.length matches) <? n)%Z eqn:E.
    { apply Z.ltb_lt in E. split; [discriminate|lia]. }
    apply Z.ltb_ge in E. unfold py_index. cbv zeta.
    destruct (n - 1 <? 0)%Z eqn:E1.
    + apply Z.ltb_lt in E1.
      destruct (Z.of_nat (List.length matches) + (n - 1) <? 0)%Z eqn:E2.
      * apply Z.ltb_lt in E2. cbn [rbind]. split; [intros _; lia|reflexivity].
      * apply Z.ltb_ge in E2.
        destruct (nth_error matches _) as [[a e]|] eqn:E3.
        -- cbn [rbind]. split; [discriminate|lia].
        -- apply nth_error_None in E3. lia.
    + rewrite E1. apply Z.ltb_ge in E1.
      destruct (nth_error matches (Z.to_nat (n - 1))) as [[a e]|] eqn:E3.
      * cbn [rbind]. split; [discriminate|lia].
      * apply nth_error_None in E3. lia.
  - intros Hn Hlen. unfold replace_nth_occurrence. fold matches.
    replace (Z.of_nat (List.length matches) <? n)%Z with false
      by (symmetry; apply Z.ltb_ge; lia).
    unfold py_index. cbv zeta.
    replace (n - 1 <? 0)%Z with true by (symmetry; apply Z.ltb_lt; lia).
    replace (Z.of_nat (List.length matches) + (n - 1) <? 0)%Z with false
      by (symmetry; apply Z.ltb_ge; lia).
    replace (Z.of_nat (List.length matches) + (n - 1))%Z
      with (Z.of_nat (List.length matches) + n - 1)%Z by lia.
    destruct (nth_error matches _) as [[a e]|] eqn:E3.
    + exists a, e. split; reflexivity.
    + apply nth_error_None in E3. lia.
Qed.

(** ** replace_nth_occurrence2 *)

Lemma index_ge n s1 s2 m : index n s1 s2 = Some m -> n <= m.
Proof.
  revert n m. induction s2 as [|c s2 IH]; intros n m H; simpl in H.
  - destruct n; [lia|discriminate].
  - destruct n as [|n]; [lia|].
    destruct (index n s1 s2) as [k|] eqn:E; [|discriminate].
    injection H as <-. apply IH in E. lia.
Qed.

Lemma find_nth_found sentence2 old_phrase remaining :
  forall start found,
    1 <= remaining ->
    find_nth sentence2 old_phrase start remaining = Some found ->
    start <= found
    /\ substring found (length old_phrase) sentence2 = old_phrase.
Proof.
  induction remaining as [|r IH]; intros start found Hr H; [lia|].
  cbn [find_nth] in H. unfold py_find in H.
  destruct (index start old_phrase sentence2) as [start'|] eqn:E;
    [|discriminate].
  destruct r as [|r'].
  - injection H as <-. split; [apply (index_ge _ _ _ _ E)|].
    apply (index_correct1 _ _ _ _ E).
  - apply IH in H as [H1 H2]; [|lia]. apply index_ge in E. split; [lia|exact H2].
Qed.

(** X15: for [n >= 1], [replace_nth_occurrence2] either returns the
    sentence unchanged or rewrites one region of the length of the phrase,
    and at that region the lower-cased sentence reads the phrase (the
    search ignores the case of the sentence and word boundaries).  It
    returns the sentence unchanged when the phrase does not occur in the
    lower-cased sentence, and for [n = 1] it rewrites the first occurrence. *)
Theorem replace_nth_occurrence2_region
        (sentence old_phrase new_phrase : string) (n : Z) :
  (1 <= n)%Z ->
  (replace_nth_occurrence2 sentence old_phrase new_phrase n = sentence
   \/ exists start,
        substring start (length old_phrase) (lower sentence) = old_phrase
        /\ replace_nth_occurrence2 sentence old_phrase new_phrase n
           = (slice_to sentence start ++ new_phrase
              ++ slice_from sentence (start + length old_phrase))%string)
  /\ (index 0 old_phrase (lower sentence) = None ->
      replace_nth_occurrence2 sentence old_phrase new_phrase n = sentence)
  /\ (n = 1%Z ->
      forall start, index 0 old_phrase (lower sentence) = Some start ->
        replace_nth_occurrence2 sentence old_phrase new_phrase n
        = (slice_to sentence start ++ new_phrase
           ++ slice_from sentence (start + length old_phrase))%string).
Proof.
  intros Hn. unfold replace_nth_occurrence2.
  destruct (Z.to_nat n) as [|r] eqn:En; [lia|].
  split; [|split].
  - destruct (find_nth (lower sentence) old_phrase 0 (S r)) as [start|] eqn:E;
      [|now left].
    right. exists start. split; [|reflexivity].
    assert (Hr : 1 <= S r) by lia.
    apply (find_nth_found (lower sentence) old_phrase (S r) 0 start Hr E).
  - intros Hnone. cbn [find_nth]. unfold py_find. rewrite Hnone. reflexivity.
  - intros Hn1 start Hs. assert (r = 0) by lia. subst r.
    cbn [find_nth]. unfold py_find. rewrite Hs. reflexivity.
Qed.

Lemma replace_nth_occurrence2_region_witness :
  (1 <= 1)%Z
  /\ replace_nth_occurrence2 "The Coffeepot" "coffee" "$T$" 1 = "The $T$pot".
Proof.
  split; [lia|].
  apply (proj2 (proj2 (replace_nth_occurrence2_region
                         "The Coffeepot" "coffee" "$T$" 1 ltac:(lia)))
               eq_refl 4).
  vm_compute. reflexivity.
Defined.

(** ** position_info: the distances *)

Lemma find_aspect_first t k groups :
  forall i0 i g,
    nth_error groups i = Some g ->
    window_matches t g = true ->
    (forall j g', j < i -> nth_error groups j = Some g' ->
                  window_matches t g' = false) ->
    find_aspect t k groups i0 = seq (i0 + i) k.
Proof.
  induction groups as [|g0 r IH]; intros i0 i g Hn Hm Hfirst.
  - destruct i; discriminate.
  - destruct i as [|i].
    + injection Hn as ->. cbn [find_aspect]. unfold window_matches in Hm.
      rewrite Nat.add_0_r.
      destruct (String.eqb t (join " " (map lower g))); [reflexivity|].
      simpl in Hm. rewrite Hm. reflexivity.
    + cbn [find_aspect].
      pose proof (Hfirst 0 g0 ltac:(lia) eq_refl) as H0.
      unfold window_matches in H0. apply orb_false_elim in H0 as [H1 H2].
      rewrite H1, H2.
      rewrite (IH (S i0) i g Hn Hm).
      * f_equal. lia.
      * intros j g' Hj Hg'. apply (Hfirst (S j) g'); [lia|exact Hg'].
Qed.

Lemma fold_min_in xs x : In (fold_left Nat.min xs x) (x :: xs).
Proof.
  revert x. induction xs as [|y xs IH]; intros x; simpl; [now left|].
  destruct (IH (Nat.min x y)) as [H|H]; [|right; right; exact H].
  rewrite <- H. destruct (Nat.min_dec x y) as [E|E]; rewrite E; auto.
Qed.

Lemma py_min_interval i k j :
  1 <= k ->
  py_min (map (fun x => abs_diff j x) (seq i k)) = Ok (aspect_distance i k j).
Proof.
  intros Hk.
  destruct (py_min (map (fun x => abs_diff j x) (seq i k))) as [m|e] eqn:E.
  2:{ destruct k; [lia|]. discriminate. }
  f_equal. pose proof (py_min_ok _ _ E) as [_ Hle].
  assert (Hin : In m (map (fun x => abs_diff j x) (seq i k))).
  { unfold py_min in E. destruct (map _ _) as [|x xs]; [discriminate|].
    injection E as <-. apply fold_min_in. }
  apply in_map_iff in Hin as (x & Hx & Hxin). apply in_seq in Hxin.
  assert (Hlow : aspect_distance i k j <= m).
  { subst m. unfold aspect_distance, abs_diff.
    destruct (j <? i) eqn:E1; [apply Nat.ltb_lt in E1; lia|].
    apply Nat.ltb_ge in E1.
    destruct (j <? i + k) eqn:E2; [lia|]. apply Nat.ltb_ge in E2. lia. }
  assert (Hup : m <= aspect_distance i k j).
  { unfold aspect_distance.
    destruct (j <? i) eqn:E1.
    - apply Nat.ltb_lt in E1.
      replace (i - j) with (abs_diff j i) by (unfold abs_diff; lia).
      apply Hle, in_map, in_seq. lia.
    - apply Nat.ltb_ge in E1. destruct (j <? i + k) eqn:E2.
      + apply Nat.ltb_lt in E2.
        replace 0 with (abs_diff j j) by (unfold abs_diff; lia).
        apply Hle, in_map, in_seq. lia.
      + apply Nat.ltb_ge in E2.
        replace (j - (i + k - 1)) with (abs_diff j (i + k - 1))
          by (unfold abs_diff; lia).
        apply Hle, in_map, in_seq. lia. }
  lia.
Qed.

Lemma rmap_ok_map {A B} (f : A -> result B) (g : A -> B) xs :
  (forall x, In x xs -> f x = Ok (g x)) -> rmap f xs = Ok (map g xs).
Proof.
  induction xs as [|x xs IH]; intros H; simpl; [reflexivity|].
  rewrite (H x (or_introl eq_refl)). simpl.
  rewrite IH by (intros y Hy; apply H; now right). reflexivity.
Qed.

(** X16: when the aspect has at least one token and the first window that
    equals or contains the aspect term is the [i]-th, the position feature
    of token [j] is its distance to the token range [i .. i + k - 1]:
    [i - j] before the range, 0 inside it, [j - (i + k - 1)] after it. *)
Theorem position_info_distances
        (sptoks asp : list string) (groups : list (list string))
        (i : nat) (g : list string) :
  1 <= List.length asp ->
  window sptoks (List.length asp) = Ok groups ->
  nth_error groups i = Some g ->
  window_matches (lower (join " " asp)) g = true ->
  (forall j g', j < i -> nth_error groups j = Some g' ->
                window_matches (lower (join " " asp)) g' = false) ->
  position_info sptoks asp
  = Ok (map (aspect_distance i (List.length asp))
            (seq 0 (List.length sptoks))).
Proof.
  intros Hk Hw Hn Hm Hfirst. unfold position_info. rewrite Hw. cbn [rbind].
  rewrite (find_aspect_first _ _ groups 0 i g Hn Hm Hfirst).
  apply rmap_ok_map. intros j _. apply py_min_interval. exact Hk.
Qed.

Lemma position_info_distances_witness :
  1 <= List.length ["coffee"]
  /\ window ["the"; "Coffee"; "was"; "hot"] (List.length ["coffee"])
     = Ok [["the"]; ["Coffee"]; ["was"]; ["hot"]]
  /\ position_info ["the"; "Coffee"; "was"; "hot"] ["coffee"]
     = Ok [1; 0; 1; 2].
Proof.
  assert (H1 : 1 <= List.length ["coffee"]) by (simpl; lia).
  assert (H2 : window ["the"; "Coffee"; "was"; "hot"] (List.length ["coffee"])
               = Ok [["the"]; ["Coffee"]; ["was"]; ["hot"]]) by reflexivity.
  split; [exact H1|]. split; [exact H2|].
  apply (position_info_distances ["the"; "Coffee"; "was"; "hot"] ["coffee"]
           [["the"]; ["Coffee"]; ["was"]; ["hot"]] 1 ["Coffee"] H1 H2).
  - reflexivity.
  - vm_compute. reflexivity.
  - intros [|j] g' Hj Hg'; [|lia]. injection Hg' as <-. vm_compute. reflexivity.
Defined.

(** ** position_info: the case of the tokens *)

Lemma lower_ascii_idem c : lower_ascii (lower_ascii c) = lower_ascii c.
Proof. destruct c as [[] [] [] [] [] [] [] []]; reflexivity. Qed.

Lemma lower_idem s : lower (lower s) = lower s.
Proof.
  induction s as [|c s IH]; simpl; [reflexivity|].
  now rewrite lower_ascii_idem, IH.
Qed.

Lemma lower_append s1 s2 : lower (s1 ++ s2) = (lower s1 ++ lower s2)%string.
Proof. induction s1 as [|c s1 IH]; simpl; [reflexivity|]. now rewrite IH. Qed.

Lemma lower_join xs : lower (join " " xs) = join " " (map lower xs).
Proof.
  unfold join. induction xs as [|x xs IH]; [reflexivity|].
  destruct xs as [|y xs]; [reflexivity|].
  change (concat " " (x :: y :: xs)) with (x ++ " " ++ concat " " (y :: xs))%string.
  change (concat " " (map lower (x :: y :: xs)))
    with (lower x ++ " " ++ concat " " (map lower (y :: xs)))%string.
  rewrite !lower_append, IH. reflexivity.
Qed.

Lemma map_lower_idem xs : map lower (map lower xs) = map lower xs.
Proof.
  rewrite map_map. apply map_ext. intros x. apply lower_idem.
Qed.

Lemma window_rest_map {A B} (f : A -> B) win rest :
  window_rest (map f win) (map f rest) = map (map f) (window_rest win rest).
Proof.
  revert win. induction rest as [|e r IH]; intros win; simpl; [reflexivity|].
  assert (E : tl (map f win) ++ [f e] = map f (tl win ++ [e])).
  { rewrite map_app. destruct win; reflexivity. }
  rewrite E, IH. reflexivity.
Qed.

Lemma window_map {A B} (f : A -> B) xs size :
  window (map f xs) size
  = match window xs size with
    | Ok groups => Ok (map (map f) groups)
    | Err e => Err e
    end.
Proof.
  unfold window. rewrite length_map.
  destruct (List.length xs <? size); [reflexivity|].
  rewrite firstn_map, skipn_map, window_rest_map. reflexivity.
Qed.

Lemma find_aspect_lowered t k groups i :
  find_aspect t k (map (map lower) groups) i = find_aspect t k groups i.
Proof.
  revert i. induction groups as [|g r IH]; intros i; simpl; [reflexivity|].
  rewrite map_lower_idem, IH. reflexivity.
Qed.

(** X17: the position features and the whole result of [_get_data_tuple]
    do not depend on the letter case of the sentence tokens or of the
    aspect tokens: lower-casing either list beforehand changes nothing,
    neither the values nor the exception. *)
Theorem get_data_tuple_case_insensitive
        (sptoks asp : list string) (label : option string) :
  position_info (map lower sptoks) asp = position_info sptoks asp
  /\ position_info sptoks (map lower asp) = position_info sptoks asp
  /\ _get_data_tuple (map lower sptoks) (map lower asp) label
     = _get_data_tuple sptoks asp label.
Proof.
  assert (H1 : forall a, position_info (map lower sptoks) a
                         = position_info sptoks a).
  { intros a. unfold position_info. rewrite window_map, length_map.
    destruct (window sptoks (List.length a)) as [groups|e]; [|reflexivity].
    cbn [rbind]. rewrite find_aspect_lowered. reflexivity. }
  assert (H2 : forall t, position_info t (map lower asp) = position_info t asp).
  { intros t. unfold position_info.
    rewrite length_map, <- lower_join, lower_idem. reflexivity. }
  split; [apply H1|]. split; [apply H2|].
  unfold _get_data_tuple. rewrite H1, H2. reflexivity.
Qed.

(** ** read_book_hotel: runs that return *)

Lemma lift_ok {St A} (r : result A) (s : St) a s' :
  lift r s = (Ok a, s') -> r = Ok a /\ s' = s.
Proof. unfold lift. intros [= -> ->]. auto. Qed.

Lemma modify_ok {St} (f : St -> St) s u s' :
  modify f s = (Ok u, s') -> s' = f s.
Proof. unfold modify. intros [= _ <-]. reflexivity. Qed.

Lemma Forall2_map_right_and {A B C} (P : A -> Prop) (R : A -> C -> Prop)
      (f : B -> C) os rows :
  Forall P os ->
  Forall2 (fun o r => R o (f r)) os rows ->
  Forall2 (fun o c => P o /\ R o c) os (map f rows).
Proof.
  intros HP HR. induction HR as [|o r os rows Hr _ IH]; simpl; constructor.
  - inversion HP; subst. split; assumption.
  - apply IH. inversion HP; assumption.
Qed.

Section ReaderRuns.
Variable word_tokenize : string -> list string.
Variable ET_parse : string -> option element.
Variable py_int : string -> option Z.

(** What a returning round of lines 212-236 did to the four lists. *)
Lemma second_opinion_ok phrase2idx sent sptoks idx opinion s u s' :
  second_opinion word_tokenize py_int phrase2idx sent sptoks idx opinion s
  = (Ok u, s') ->
  (is_example opinion = false /\ s' = s)
  \/ (is_example opinion = true
      /\ exists asp pos lab loc t,
           explicit_target opinion = Some asp
           /\ _get_data_tuple sptoks (word_tokenize (re_sub_spaces asp))
                              (get "polarity" opinion) = Ok (pos, lab)
           /\ rmap (fun i => rbind (py_div i (List.length idx))
                                   (fun q => Ok (1 - q)%Q)) pos = Ok loc
           /\ source_data s' = source_data s ++ [idx]
           /\ source_loc_data s' = source_loc_data s ++ [loc]
           /\ target_data s' = target_data s ++ [t]
           /\ target_label s' = target_label s ++ [lab]).
Proof.
  unfold second_opinion, is_example.
  destruct (is_conflict opinion); [intros [= _ <-]; left; auto|].
  destruct (explicit_target opinion) as [asp|]; [|intros [= _ <-]; left; auto].
  intros H. right. split; [reflexivity|].
  apply bind_ok in H as (u1 & s1 & H1 & H). apply modify_ok in H1.
  apply bind_ok in H as (n & s2 & H2 & H). apply lift_ok in H2 as [_ ->].
  apply bind_ok in H as (txt & s3 & H3 & H). apply lift_ok in H3 as [_ ->].
  apply bind_ok in H as (u4 & s4 & H4 & H). apply modify_ok in H4.
  apply bind_ok in H as (u5 & s5 & H5 & H). apply modify_ok in H5.
  apply bind_ok in H as (u6 & s6 & H6 & H). apply modify_ok in H6.
  apply bind_ok in H as (u7 & s7 & H7 & H). apply modify_ok in H7.
  apply bind_ok in H as ([pos lab] & s8 & H8 & H). apply lift_ok in H8 as [H8 ->].
  apply bind_ok in H as (loc & s9 & H9 & H). apply lift_ok in H9 as [H9 ->].
  apply bind_ok in H as (u10 & s10 & H10 & H). apply modify_ok in H10.
  apply bind_ok in H as (t & s11 & H11 & H). apply lift_ok in H11 as [_ ->].
  apply bind_ok in H as (u12 & s12 & H12 & H). apply modify_ok in H12.
  apply bind_ok in H as (u13 & s13 & H13 & H). apply modify_ok in H13.
  apply bind_ok in H as (u14 & s14 & H14 & H). apply modify_ok in H14.
  apply modify_ok in H.
  exists asp, pos, lab, loc, t.
  split; [reflexivity|]. split; [exact H8|]. split; [exact H9|].
  repeat split;
    rewrite H; cbn [source_data source_loc_data target_data target_label];
    rewrite H14; cbn [source_data source_loc_data target_data target_label];
    rewrite H13; cbn [source_data source_loc_data target_data target_label];
    rewrite H12; cbn [source_data source_loc_data target_data target_label];
    rewrite H10; cbn [source_data source_loc_data target_data target_label];
    rewrite H7; cbn [source_data source_loc_data target_data target_label];
    rewrite H6; cbn [source_data source_loc_data target_data target_label];
    rewrite H5; cbn [source_data source_loc_data target_data target_label];
    rewrite H4; cbn [source_data source_loc_data target_data target_label];
    rewrite H1; cbn [source_data source_loc_data target_data target_label];
    reflexivity.
Qed.

Lemma get_data_tuple_ok sptoks asp label pos lab :
  _get_data_tuple sptoks asp label = Ok (pos, lab) ->
  List.length pos = List.length sptoks /\ polarity_map label = Some lab.
Proof.
  rewrite get_data_tuple_unfold.
  destruct (position_info sptoks asp) as [pos'|e] eqn:Hp; [|discriminate].
  destruct (polarity_map label) as [lab'|]; [|discriminate].
  intros [= <- <-]. split; [|reflexivity].
  apply (proj1 (position_info_ok _ _ _ Hp)).
Qed.

(** What a returning round of lines 203-236 did to the four lists. *)
Lemma second_sentence_ok word2idx phrase2idx sentence s u s' :
  second_sentence word_tokenize py_int word2idx phrase2idx sentence s
  = (Ok u, s') ->
  exists sent rows,
    sentence_text sentence = Ok sent
    /\ source_data s' = source_data s ++ map (fun r => fst (fst (fst r))) rows
    /\ source_loc_data s'
       = source_loc_data s ++ map (fun r => snd (fst (fst r))) rows
    /\ target_data s' = target_data s ++ map (fun r => snd (fst r)) rows
    /\ target_label s' = target_label s ++ map snd rows
    /\ Forall (fun r =>
                 List.length (fst (fst (fst r)))
                 = List.length (word_tokenize (re_sub_spaces sent))
                 /\ List.length (snd (fst (fst r)))
                    = List.length (word_tokenize (re_sub_spaces sent))
                 /\ 1 <= List.length (word_tokenize (re_sub_spaces sent)))
              rows
    /\ Forall2 (fun o r => polarity_map (get "polarity" o) = Some (snd r))
               (sentence_examples word_tokenize sentence) rows.
Proof.
  unfold second_sentence, sentence_examples. intros H.
  apply bind_ok in H as (sent & s1 & H1 & H). apply lift_ok in H1 as [H1 ->].
  exists sent. rewrite H1.
  set (sptoks := word_tokenize (re_sub_spaces sent)) in *.
  destruct (List.length sptoks =? 0) eqn:El.
  { injection H as _ <-. exists []. simpl. rewrite !app_nil_r.
    repeat split; constructor. }
  apply Nat.eqb_neq in El.
  apply bind_ok in H as (idx & s2 & H2 & H). apply lift_ok in H2 as [H2 ->].
  apply rmap_length in H2.
  set (I := fun (os : list element) (t t' : pass2) =>
    exists rows : list (list nat * list Q * nat * Z),
      source_data t' = source_data t ++ map (fun r => fst (fst (fst r))) rows
      /\ source_loc_data t'
         = source_loc_data t ++ map (fun r => snd (fst (fst r))) rows
      /\ target_data t' = target_data t ++ map (fun r => snd (fst r)) rows
      /\ target_label t' = target_label t ++ map snd rows
      /\ Forall (fun r => List.length (fst (fst (fst r))) = List.length sptoks
                          /\ List.length (snd (fst (fst r))) = List.length sptoks
                          /\ 1 <= List.length sptoks) rows
      /\ Forall2 (fun o r => polarity_map (get "polarity" o) = Some (snd r))
                 os rows).
  assert (Hloop : forall A (g : A -> list element) (body : A -> M pass2 unit) xs,
            (forall x t v t', body x t = (Ok v, t') -> I (g x) t t') ->
            forall t v t', for_each xs body t = (Ok v, t') ->
                           I (flat_map g xs) t t').
  { intros A g body xs Hbody. induction xs as [|x xs IH]; intros t v t' Hrun;
      simpl in Hrun.
    - injection Hrun as _ <-. exists []. simpl. rewrite !app_nil_r.
      repeat split; constructor.
    - apply bind_ok in Hrun as (v1 & t1 & Hr1 & Hr2).
      destruct (Hbody x t v1 t1 Hr1) as (r1 & A1 & A2 & A3 & A4 & A5 & A6).
      destruct (IH t1 v t' Hr2) as (r2 & B1 & B2 & B3 & B4 & B5 & B6).
      exists (r1 ++ r2). rewrite B1, B2, B3, B4, A1, A2, A3, A4.
      rewrite !map_app, !app_assoc. repeat split; try reflexivity.
      + apply Forall_app. split; assumption.
      + simpl. apply Forall2_app; assumption. }
  assert (HI : I (flat_map (fun opinions =>
                              filter is_example (findall "Opinion" opinions))
                           (iter "Opinions" sentence)) s s').
  2:{ destruct HI as (rows & HI). exists rows. split; [reflexivity|exact HI]. }
  refine (Hloop element
                (fun opinions => filter is_example (findall "Opinion" opinions))
                _ _ _ _ _ _ H).
  intros opinions t v t' Hrun.
  assert (Hf : forall os, filter is_example os
                          = flat_map (fun o => if is_example o then [o] else [])
                                     os).
  { induction os as [|o os IHo]; simpl; [reflexivity|].
    rewrite IHo. destruct (is_example o); reflexivity. }
  rewrite Hf.
  refine (Hloop element (fun o => if is_example o then [o] else [])
                _ _ _ _ _ _ Hrun).
  intros o t0 v0 t0' Ho.
  apply second_opinion_ok in Ho
    as [[E ->]|(E & asp & pos & lab & loc & tg & _ & Hg & Hl & D1 & D2 & D3 & D4)];
    rewrite E.
  - exists []. simpl. rewrite !app_nil_r. repeat split; constructor.
  - exists [(idx, loc, tg, lab)]. simpl.
    apply get_data_tuple_ok in Hg as [Hp Hlab]. apply rmap_length in Hl.
    repeat split; try assumption; try lia.
    + constructor; [|constructor]. simpl. repeat split; lia.
    + constructor; [exact Hlab|constructor].
Qed.

Lemma sentence_length_bound root sentence sent :
  In sentence (iter "sentence" root) ->
  sentence_text sentence = Ok sent ->
  List.length (word_tokenize (re_sub_spaces sent))
  <= list_max (sentence_lengths word_tokenize root).
Proof.
  intros Hin Ht.
  assert (H : Forall (fun k => k <= list_max (sentence_lengths word_tokenize root))
                     (sentence_lengths word_tokenize root))
    by (apply list_max_le; lia).
  rewrite Forall_forall in H. apply H.
  unfold sentence_lengths. apply in_flat_map. exists sentence.
  split; [exact Hin|]. rewrite Ht. now left.
Qed.

(** The rows a returning second pass collected. *)
Lemma second_pass_ok word2idx phrase2idx root u p2 :
  for_each (iter "sentence" root)
           (second_sentence word_tokenize py_int word2idx phrase2idx)
           pass2_init = (Ok u, p2) ->
  exists rows : list (list nat * list Q * nat * Z),
    source_data p2 = map (fun r => fst (fst (fst r))) rows
    /\ source_loc_data p2 = map (fun r => snd (fst (fst r))) rows
    /\ target_data p2 = map (fun r => snd (fst r)) rows
    /\ target_label p2 = map snd rows
    /\ Forall (fun r =>
                 List.length (fst (fst (fst r))) = List.length (snd (fst (fst r)))
                 /\ 1 <= List.length (fst (fst (fst r)))
                    <= list_max (sentence_lengths word_tokenize root))
              rows
    /\ Forall2 (fun o r => polarity_map (get "polarity" o) = Some (snd r))
               (corpus_examples word_tokenize root) rows.
Proof.
  unfold corpus_examples.
  assert (H : forall xs, incl xs (iter "sentence" root) ->
            forall t v t',
              for_each xs (second_sentence word_tokenize py_int word2idx
                                           phrase2idx) t = (Ok v, t') ->
              exists rows : list (list nat * list Q * nat * Z),
                source_data t'
                = source_data t ++ map (fun r => fst (fst (fst r))) rows
                /\ source_loc_data t'
                   = source_loc_data t ++ map (fun r => snd (fst (fst r))) rows
                /\ target_data t' = target_data t ++ map (fun r => snd (fst r)) rows
                /\ target_label t' = target_label t ++ map snd rows
                /\ Forall (fun r =>
                     List.length (fst (fst (fst r)))
                     = List.length (snd (fst (fst r)))
                     /\ 1 <= List.length (fst (fst (fst r)))
                        <= list_max (sentence_lengths word_tokenize root))
                   rows
                /\ Forall2 (fun o r =>
                              polarity_map (get "polarity" o) = Some (snd r))
                           (flat_map (sentence_examples word_tokenize) xs) rows).
  { induction xs as [|x xs IH]; intros Hincl t v t' Hrun; simpl in Hrun.
    - injection Hrun as _ <-. exists []. simpl. rewrite !app_nil_r.
      repeat split; constructor.
    - apply bind_ok in Hrun as (v1 & t1 & Hr1 & Hr2).
      apply second_sentence_ok in Hr1
        as (sent & r1 & Ht & A1 & A2 & A3 & A4 & A5 & A6).
      destruct (IH (fun y Hy => Hincl y (or_intror Hy)) t1 v t' Hr2)
        as (r2 & B1 & B2 & B3 & B4 & B5 & B6).
      pose proof (sentence_length_bound root x sent
                    (Hincl x (or_introl eq_refl)) Ht) as Hb.
      exists (r1 ++ r2). rewrite B1, B2, B3, B4, A1, A2, A3, A4.
      rewrite !map_app, !app_assoc. repeat split; try reflexivity.
      + apply Forall_app. split; [|exact B5].
        eapply Forall_impl; [|exact A5]. intros r (E1 & E2 & E3). lia.
      + simpl. apply Forall2_app; assumption. }
  intros Hrun.
  destruct (H _ (incl_refl _) _ _ _ Hrun) as (rows & E1 & E2 & E3 & E4 & E5 & E6).
  exists rows. simpl in E1, E2, E3, E4. auto 7.
Qed.

(** How a returning call is put together. *)
Lemma read_book_hotel_ok in_file source_count source_word2idx target_count
      target_phrase2idx out_file w w' sd loc2 td tl len5 loc6 len7 :
  read_book_hotel word_tokenize ET_parse py_int in_file source_count
                  source_word2idx target_count target_phrase2idx out_file w
  = (Ok (sd, loc2, td, tl, len5, loc6, len7), w') ->
  exists root p1 p2 word2idx phrase2idx,
    ET_parse_file ET_parse w in_file = Ok root
    /\ for_each (iter "sentence" root) (first_sentence word_tokenize) pass1_init
       = (Ok tt, p1)
    /\ for_each (iter "sentence" root)
                (second_sentence word_tokenize py_int word2idx phrase2idx)
                pass2_init = (Ok tt, p2)
    /\ List.length (target_label p2) <> 0
    /\ sd = source_data p2 /\ loc2 = source_loc_data p2
    /\ td = target_data p2 /\ tl = target_label p2
    /\ len5 = max_sent_len p1.
Proof.
  unfold read_book_hotel. intros H.
  destruct (negb (isfile w in_file)); [discriminate|].
  destruct (ET_parse_file ET_parse w in_file) as [root|e]; [|discriminate].
  destruct (for_each (iter "sentence" root) (first_sentence word_tokenize)
                     pass1_init) as [[[]|e] p1] eqn:E1; [|discriminate].
  match type of H with
  | context [for_each ?xs (second_sentence _ _ ?d1 ?d2) pass2_init] =>
      destruct (for_each xs (second_sentence word_tokenize py_int d1 d2)
                         pass2_init) as [[[]|e] p2] eqn:E2; [|discriminate];
      exists root, p1, p2, d1, d2
  end.
  unfold report in H.
  destruct (_ =? 0); [discriminate|].
  destruct (List.length (target_label p2) =? 0) eqn:El; [discriminate|].
  apply Nat.eqb_neq in El.
  injection H as <- <- <- <- <- <- <- _. auto 10.
Qed.

(** X18: on every normal return of [read_book_hotel] the four lists
    [source_data], [source_loc_data], [target_data] and [target_label] have
    the same length, which is at least 1 (a corpus without an example ends
    in the division by zero of the report); the [i]-th index list and the
    [i]-th distance list have the same length, between 1 and
    [max_sent_len]; and every label is -1, 0 or 1. *)
Theorem read_book_hotel_shape
        (in_file out_file : string)
        (source_count target_count : list (string * nat))
        (source_word2idx target_phrase2idx : dict) (w w' : fs)
        (sd : list (list nat)) (loc2 loc6 : list (list Q))
        (td : list nat) (tl : list Z) (len5 len7 : nat) :
  read_book_hotel word_tokenize ET_parse py_int in_file source_count
                  source_word2idx target_count target_phrase2idx out_file w
  = (Ok (sd, loc2, td, tl, len5, loc6, len7), w') ->
  List.length loc2 = List.length sd
  /\ List.length td = List.length sd
  /\ List.length tl = List.length sd
  /\ 1 <= List.length sd
  /\ Forall2 (fun idx loc => List.length idx = List.length loc
                             /\ 1 <= List.length idx <= len5) sd loc2
  /\ Forall label_ok tl.
Proof.
  intros H.
  apply read_book_hotel_ok in H
    as (root & p1 & p2 & d1 & d2 & _ & E1 & E2 & Hne & -> & -> & -> & -> & ->).
  destruct (first_pass_max word_tokenize root p1 E1) as [Hmax _].
  apply second_pass_ok in E2 as (rows & R1 & R2 & R3 & R4 & R5 & R6).
  rewrite R1, R2, R3, R4 in *. rewrite !length_map in *.
  repeat split; try lia.
  - rewrite Hmax. clear -R5. induction R5 as [|r rows Hr _ IH]; simpl;
      constructor; [exact Hr|exact IH].
  - clear -R6. induction R6 as [|o r os rows Hp _ IH]; simpl; constructor;
      [|exact IH].
    apply polarity_map_spec in Hp as [[_ ->]|[[_ ->]|[_ ->]]];
      unfold label_ok; auto.
Qed.

(** X19: on every normal return the labels of [target_label] are, in
    document order, the mapped polarities of the opinions that are no
    conflict and have an explicit target, taken from the sentences that
    have at least one token: conflict opinions and implicit ("NULL" or
    missing) targets contribute no example. *)
Theorem read_book_hotel_examples
        (in_file out_file : string)
        (source_count target_count : list (string * nat))
        (source_word2idx target_phrase2idx : dict) (w w' : fs)
        (sd : list (list nat)) (loc2 loc6 : list (list Q))
        (td : list nat) (tl : list Z) (len5 len7 : nat) :
  read_book_hotel word_tokenize ET_parse py_int in_file source_count
                  source_word2idx target_count target_phrase2idx out_file w
  = (Ok (sd, loc2, td, tl, len5, loc6, len7), w') ->
  exists root,
    ET_parse_file ET_parse w in_file = Ok root
    /\ Forall2 (fun o lab => is_example o = true
                             /\ polarity_map (get "polarity" o) = Some lab)
               (corpus_examples word_tokenize root) tl
    /\ List.length tl = List.length (corpus_examples word_tokenize root).
Proof.
  intros H.
  apply read_book_hotel_ok in H
    as (root & p1 & p2 & d1 & d2 & Hp & _ & E2 & _ & _ & _ & _ & -> & _).
  exists root. split; [exact Hp|].
  apply second_pass_ok in E2 as (rows & _ & _ & _ & R4 & _ & R6).
  rewrite R4.
  assert (Hex : Forall (fun o => is_example o = true)
                       (corpus_examples word_tokenize root)).
  { apply Forall_forall. intros o Ho. unfold corpus_examples in Ho.
    apply in_flat_map in Ho as (sentence & _ & Ho).
    unfold sentence_examples in Ho.
    destruct (sentence_text sentence) as [sent|]; [|contradiction].
    destruct (_ =? 0); [contradiction|].
    apply in_flat_map in Ho as (opinions & _ & Ho).
    apply filter_In in Ho as [_ Ho]. exact Ho. }
  split.
  - apply Forall2_map_right_and; assumption.
  - rewrite length_map. symmetry. apply (Forall2_length R6).
Qed.

(** X20: whatever the outcome, [read_book_hotel] leaves every file other
    than [out_file] as it was: the only path whose content can change is
    the output path. *)
Theorem read_book_hotel_frame
        (in_file out_file : string)
        (source_count target_count : list (string * nat))
        (source_word2idx target_phrase2idx : dict) (w : fs) (path : string) :
  path <> out_file ->
  snd (read_book_hotel word_tokenize ET_parse py_int in_file source_count
                       source_word2idx target_count target_phrase2idx
                       out_file w) path
  = w path.
Proof.
  intros Hp. apply String.eqb_neq in Hp.
  assert (Hw : forall w0 c, write_file w0 out_file c path = w0 path).
  { intros w0 c. unfold write_file. rewrite Hp. reflexivity. }
  unfold read_book_hotel.
  destruct (negb (isfile w in_file)); [reflexivity|].
  destruct (ET_parse_file ET_parse w in_file) as [root|e]; [|reflexivity].
  destruct (for_each (iter "sentence" root) (first_sentence word_tokenize)
                     pass1_init) as [[[]|e] p1]; [|simpl; apply Hw].
  match goal with
  | |- context [for_each ?xs ?body pass2_init] =>
      destruct (for_each xs body pass2_init) as [[[]|e] p2]
  end; [|simpl; rewrite !Hw; reflexivity].
  destruct (report p1 p2); simpl; rewrite !Hw; reflexivity.
Qed.

End ReaderRuns.

(** ** read_book_hotel: the vocabulary covers every lookup *)

Lemma assoc_app_some {V} key (d : list (string * V)) extra :
  assoc key d <> None -> assoc key (d ++ extra) <> None.
Proof.
  induction d as [|[k v] d IH]; simpl; [contradiction|].
  destruct (String.eqb k key); [discriminate|exact IH].
Qed.

Lemma add_key_keeps d key key' :
  assoc key d <> None -> assoc key (add_key d key') <> None.
Proof.
  intros H. unfold add_key. destruct (assoc key' d); [exact H|].
  apply assoc_app_some, H.
Qed.

Lemma assoc_app_new {V} key (d : list (string * V)) v :
  assoc key (d ++ [(key, v)]) <> None.
Proof.
  induction d as [|[k v0] d IH]; simpl.
  - rewrite String.eqb_refl. discriminate.
  - destruct (String.eqb k key); [discriminate|exact IH].
Qed.

Lemma add_key_adds d key : assoc key (add_key d key) <> None.
Proof.
  unfold add_key. destruct (assoc key d) eqn:E; [rewrite E; discriminate|].
  apply assoc_app_new.
Qed.

Lemma fold_add_key_keeps keys d key :
  assoc key d <> None -> assoc key (fold_left add_key keys d) <> None.
Proof.
  revert d. induction keys as [|k keys IH]; intros d H; simpl; [exact H|].
  apply IH, add_key_keeps, H.
Qed.

Lemma fold_add_key_adds keys d key :
  In key keys -> assoc key (fold_left add_key keys d) <> None.
Proof.
  revert d. induction keys as [|k keys IH]; intros d H; simpl; [contradiction|].
  destruct H as [->|H]; [apply fold_add_key_keeps, add_key_adds|apply IH, H].
Qed.

Lemma count_add_keys key c k :
  In k (map fst (count_add key c)) <-> k = key \/ In k (map fst c).
Proof.
  induction c as [|[k0 n] c IH]; simpl.
  - split; intros [H|H]; auto.
  - destruct (String.eqb k0 key) eqn:E; simpl.
    + apply String.eqb_eq in E. subst. split; intros H; [auto|].
      destruct H as [->|H]; auto.
    + rewrite IH. split; intros H; tauto.
Qed.

Lemma Counter_keys xs x : In x xs -> In x (map fst (Counter xs)).
Proof.
  unfold Counter.
  assert (H : forall c, In x xs \/ In x (map fst c) ->
                        In x (map fst (fold_left (fun c y => count_add y c) xs c))).
  { induction xs as [|y xs IH]; intros c Hc; simpl.
    - destruct Hc as [[]|Hc]. exact Hc.
    - apply IH. destruct Hc as [[->|Hc]|Hc]; auto;
        right; apply count_add_keys; auto. }
  intros Hx. apply H. auto.
Qed.

Lemma insert_by_count_in x l y :
  In y (insert_by_count x l) <-> y = x \/ In y l.
Proof.
  induction l as [|z l IH]; simpl.
  - split; intros [H|H]; auto.
  - destruct (snd x <=? snd z); simpl; [rewrite IH|]; split; intros H;
      repeat (destruct H as [H|H]); auto.
Qed.

Lemma most_common_in c y : In y c -> In y (most_common c).
Proof.
  unfold most_common.
  assert (H : forall acc, In y c \/ In y acc ->
                In y (fold_left (fun acc x => insert_by_count x acc) c acc)).
  { induction c as [|x c IH]; intros acc Hy; simpl.
    - destruct Hy as [[]|Hy]. exact Hy.
    - apply IH. destruct Hy as [[->|Hy]|Hy]; auto;
        right; apply insert_by_count_in; auto. }
  intros Hy. apply H. auto.
Qed.

Lemma most_common_keys xs x :
  In x xs -> In x (map fst (most_common (Counter xs))).
Proof.
  intros H. apply Counter_keys in H. apply in_map_iff in H as ([k n] & E & H).
  apply in_map_iff. exists (k, n). split; [exact E|]. apply most_common_in, H.
Qed.

Lemma build_source_word2idx_covers source_count d p1 key :
  In key (source_words p1) ->
  assoc key (build_source_word2idx source_count d p1) <> None.
Proof.
  intros H. unfold build_source_word2idx. apply fold_add_key_adds.
  rewrite map_app. apply in_or_app. right.
  apply most_common_keys. apply in_or_app. left. exact H.
Qed.

Lemma build_target_phrase2idx_covers target_count d p1 key :
  In key (target_phrases p1) ->
  assoc key (build_target_phrase2idx target_count d p1) <> None.
Proof.
  intros H. unfold build_target_phrase2idx. apply fold_add_key_adds.
  rewrite map_app. apply in_or_app. right. apply most_common_keys, H.
Qed.

(** A loop that returns has given every item its round, and what a round
    established stays. *)
Lemma for_each_collect {St A} (P : A -> St -> Prop) (body : A -> M St unit) xs :
  (forall x s u s', In x xs -> body x s = (Ok u, s') -> P x s') ->
  (forall x y s u s', body x s = (Ok u, s') -> P y s -> P y s') ->
  forall s u s', for_each xs body s = (Ok u, s') ->
                 forall x, In x xs -> P x s'.
Proof.
  intros Hest Hkeep.
  assert (Hk : forall ys s u s' y, for_each ys body s = (Ok u, s') ->
                                   P y s -> P y s').
  { induction ys as [|z ys IH]; intros s u s' y H Hy; simpl in H.
    - injection H as _ <-. exact Hy.
    - apply bind_ok in H as (u1 & s1 & H1 & H2).
      apply (IH s1 u s' y H2). apply (Hkeep z y s u1 s1 H1 Hy). }
  induction xs as [|z xs IH]; intros s u s' H x Hx; [contradiction|].
  simpl in H. apply bind_ok in H as (u1 & s1 & H1 & H2).
  destruct Hx as [->|Hx].
  - apply (Hk xs s1 u s' x H2). apply (Hest x s u1 s1 (or_introl eq_refl) H1).
  - apply (IH (fun y t v t' Hy => Hest y t v t' (or_intror Hy)) s1 u s' H2 x Hx).
Qed.

Lemma raises_only_for_each_in {St A} (Q : exn -> Prop) (xs : list A)
      (body : A -> M St unit) :
  (forall x, In x xs -> raises_only Q (body x)) ->
  raises_only Q (for_each xs body).
Proof.
  induction xs as [|x xs IH]; intros H; simpl.
  - apply raises_only_ret.
  - apply raises_only_bind; [apply H; now left|].
    intros _. apply IH. intros y Hy. apply H. now right.
Qed.

Lemma raises_only_bind_lift_ok {St A B} (Q : exn -> Prop) (x : result A)
      (k : A -> M St B) :
  (forall e, x = Err e -> Q e) ->
  (forall a, x = Ok a -> raises_only Q (k a)) ->
  raises_only Q (bind (lift x) k).
Proof.
  intros Hx Hk s e s' H. unfold bind, lift in H.
  destruct x as [a|e0].
  - apply (Hk a eq_refl s e s' H).
  - injection H as <- _. apply Hx. reflexivity.
Qed.

Section ReaderVocabulary.
Variable word_tokenize : string -> list string.
Variable ET_parse : string -> option element.
Variable py_int : string -> option Z.

Let phrase_of (asp : string) : string :=
  lower (join " " (word_tokenize (re_sub_spaces asp))).

Lemma first_opinion_grows opinion s u s' :
  first_opinion word_tokenize opinion s = (Ok u, s') ->
  source_words s' = source_words s
  /\ incl (target_phrases s) (target_phrases s')
  /\ (forall asp, is_conflict opinion = false ->
                  explicit_target opinion = Some asp ->
                  In (phrase_of asp) (target_phrases s')).
Proof.
  unfold first_opinion.
  destruct (is_conflict opinion).
  { intros [= _ <-]. simpl. split; [reflexivity|].
    split; [apply incl_refl|discriminate]. }
  destruct (explicit_target opinion) as [asp|].
  - intros [= _ <-]. simpl. split; [reflexivity|]. split.
    + apply incl_appl, incl_refl.
    + intros asp' _ [= <-]. apply in_or_app. right. now left.
  - intros [= _ <-]. simpl. split; [reflexivity|].
    split; [apply incl_refl|discriminate].
Qed.

Lemma first_opinions_grow sentence s u s' :
  for_each (iter "Opinions" sentence)
           (fun opinions =>
              for_each (findall "Opinion" opinions) (first_opinion word_tokenize))
           s = (Ok u, s') ->
  source_words s' = source_words s
  /\ incl (target_phrases s) (target_phrases s')
  /\ (forall opinions opinion asp,
        In opinions (iter "Opinions" sentence) ->
        In opinion (findall "Opinion" opinions) ->
        is_conflict opinion = false ->
        explicit_target opinion = Some asp ->
        In (phrase_of asp) (target_phrases s')).
Proof.
  intros H.
  assert (Hin : forall os t v t',
            for_each os (first_opinion word_tokenize) t = (Ok v, t') ->
            source_words t' = source_words t
            /\ incl (target_phrases t) (target_phrases t')).
  { induction os as [|o os IH]; intros t v t' Hr; simpl in Hr.
    - injection Hr as _ <-. split; [reflexivity|apply incl_refl].
    - apply bind_ok in Hr as (v1 & t1 & Hr1 & Hr2).
      apply first_opinion_grows in Hr1 as (A1 & A2 & _).
      apply IH in Hr2 as (B1 & B2). split; [congruence|].
      eapply incl_tran; eassumption. }
  assert (Hout : forall oss t v t',
            for_each oss (fun opinions =>
                            for_each (findall "Opinion" opinions)
                                     (first_opinion word_tokenize)) t
            = (Ok v, t') ->
            source_words t' = source_words t
            /\ incl (target_phrases t) (target_phrases t')).
  { induction oss as [|o oss IH]; intros t v t' Hr; simpl in Hr.
    - injection Hr as _ <-. split; [reflexivity|apply incl_refl].
    - apply bind_ok in Hr as (v1 & t1 & Hr1 & Hr2).
      apply Hin in Hr1 as (A1 & A2). apply IH in Hr2 as (B1 & B2).
      split; [congruence|]. eapply incl_tran; eassumption. }
  destruct (Hout _ _ _ _ H) as [H1 H2]. split; [exact H1|]. split; [exact H2|].
  set (Pin := fun (o : element) (t : pass1) =>
                forall a, is_conflict o = false ->
                          explicit_target o = Some a ->
                          In (phrase_of a) (target_phrases t)).
  set (Pout := fun (opinions : element) (t : pass1) =>
                 forall o, In o (findall "Opinion" opinions) -> Pin o t).
  assert (HP : forall opinions, In opinions (iter "Opinions" sentence) ->
                                Pout opinions s').
  { refine (for_each_collect Pout _ _ _ _ _ _ _ H).
    - intros ops t v t' _ Hr.
      refine (for_each_collect Pin _ _ _ _ _ _ _ Hr).
      + intros o' t0 v0 t0' _ Hr0.
        exact (proj2 (proj2 (first_opinion_grows _ _ _ _ Hr0))).
      + intros o1 o2 t0 v0 t0' Hr0 Hp a Hc2 He2.
        apply first_opinion_grows in Hr0 as (_ & Hincl & _).
        apply Hincl, Hp; assumption.
    - intros o1 o2 t v t' Hr Hp o Ho a Hc2 He2.
      apply Hin in Hr as [_ Hincl]. apply Hincl. apply (Hp o Ho a); assumption. }
  intros opinions opinion asp Hops Hop Hc He.
  apply (HP opinions Hops opinion Hop asp Hc He).
Qed.

Lemma first_sentence_grows sentence s u s' :
  first_sentence word_tokenize sentence s = (Ok u, s') ->
  incl (source_words s) (source_words s')
  /\ incl (target_phrases s) (target_phrases s')
  /\ (forall sent, sentence_text sentence = Ok sent ->
        incl (map lower (word_tokenize (re_sub_spaces sent))) (source_words s'))
  /\ (forall opinions opinion asp,
        In opinions (iter "Opinions" sentence) ->
        In opinion (findall "Opinion" opinions) ->
        is_conflict opinion = false ->
        explicit_target opinion = Some asp ->
        In (phrase_of asp) (target_phrases s')).
Proof.
  unfold first_sentence. intros H.
  apply bind_ok in H as (sent & s1 & H1 & H). apply lift_ok in H1 as [H1 ->].
  apply bind_ok in H as (u2 & s2 & H2 & H). apply modify_ok in H2. subst s2.
  apply first_opinions_grow in H as (A1 & A2 & A3). simpl in A1, A2.
  rewrite A1. split; [apply incl_appl, incl_refl|]. split; [exact A2|].
  split; [|exact A3].
  intros sent' Hs. rewrite H1 in Hs. injection Hs as <-.
  apply incl_appr, incl_refl.
Qed.

Lemma first_pass_covers root u p1 :
  for_each (iter "sentence" root) (first_sentence word_tokenize) pass1_init
  = (Ok u, p1) ->
  forall sentence, In sentence (iter "sentence" root) ->
    (forall sent, sentence_text sentence = Ok sent ->
       incl (map lower (word_tokenize (re_sub_spaces sent))) (source_words p1))
    /\ (forall opinions opinion asp,
          In opinions (iter "Opinions" sentence) ->
          In opinion (findall "Opinion" opinions) ->
          is_conflict opinion = false ->
          explicit_target opinion = Some asp ->
          In (phrase_of asp) (target_phrases p1)).
Proof.
  intros H.
  refine (for_each_collect
            (fun sentence t =>
               (forall sent, sentence_text sentence = Ok sent ->
                  incl (map lower (word_tokenize (re_sub_spaces sent)))
                       (source_words t))
               /\ (forall opinions opinion asp,
                     In opinions (iter "Opinions" sentence) ->
                     In opinion (findall "Opinion" opinions) ->
                     is_conflict opinion = false ->
                     explicit_target opinion = Some asp ->
                     In (phrase_of asp) (target_phrases t)))
            _ _ _ _ _ _ _ H).
  - intros x t v t' _ Hr.
    apply first_sentence_grows in Hr as (_ & _ & A3 & A4). split; assumption.
  - intros x y t v t' Hr [P1 P2].
    apply first_sentence_grows in Hr as (I1 & I2 & _ & _). split.
    + intros sent Hs. eapply incl_tran; [apply P1, Hs|exact I1].
    + intros ops o a Hops Ho Hc He. apply I2. apply (P2 ops o a); assumption.
Qed.

Let no_key_error (e : exn) : Prop := forall key, e <> KeyError key.

Lemma get_data_tuple_no_key_error sptoks asp label e :
  _get_data_tuple sptoks asp label = Err e -> no_key_error e.
Proof.
  rewrite get_data_tuple_unfold. intros H key.
  destruct (position_info sptoks asp) as [pos|e1] eqn:Hp.
  - destruct (polarity_map label); [discriminate|].
    injection H as <-. discriminate.
  - injection H as <-. unfold position_info in Hp.
    apply rbind_err in Hp as [Hp|(groups & _ & Hp)].
    + unfold window in Hp. destruct (_ <? _); [|discriminate].
      injection Hp as <-. discriminate.
    + apply rmap_err in Hp as (i & _ & Hi). unfold py_min in Hi.
      destruct (map _ _); [|discriminate]. injection Hi as <-. discriminate.
Qed.

Lemma second_opinion_no_key_error phrase2idx sent sptoks idx opinion :
  (forall asp, is_conflict opinion = false ->
               explicit_target opinion = Some asp ->
               assoc (phrase_of asp) phrase2idx <> None) ->
  raises_only no_key_error
    (second_opinion word_tokenize py_int phrase2idx sent sptoks idx opinion).
Proof.
  intros Hcov. unfold second_opinion.
  destruct (is_conflict opinion) eqn:Ec; [apply raises_only_ret|].
  destruct (explicit_target opinion) as [asp|] eqn:Ea; [|apply raises_only_ret].
  apply raises_only_bind; [apply raises_only_modify|]. intros _.
  apply raises_only_bind_lift.
  { unfold occurrence_of. intros e.
    destruct (get "occurrence" opinion) as [o|];
      [destruct (py_int o)|]; intros [= <-] key; discriminate. }
  intros n. apply raises_only_bind_lift.
  { intros e He key. apply replace_nth_occurrence_error in He. subst e.
    discriminate. }
  intros outputtext.
  do 4 (apply raises_only_bind; [apply raises_only_modify|]; intros _).
  apply raises_only_bind_lift; [intros e; apply get_data_tuple_no_key_error|].
  intros pl. apply raises_only_bind_lift.
  { intros e He key. apply rmap_err in He as (i & _ & Hi).
    apply rbind_err in Hi as [Hi|(q & _ & Hi)]; [|discriminate].
    unfold py_div in Hi. destruct (_ =? 0); [|discriminate].
    injection Hi as <-. discriminate. }
  intros loc. apply raises_only_bind; [apply raises_only_modify|]. intros _.
  apply raises_only_bind_lift.
  { unfold dict_get. intros e He. exfalso.
    specialize (Hcov asp eq_refl eq_refl). unfold phrase_of in Hcov.
    destruct (assoc _ phrase2idx); [discriminate|contradiction]. }
  intros t.
  do 3 (apply raises_only_bind; [apply raises_only_modify|]; intros _).
  apply raises_only_modify.
Qed.

Lemma second_sentence_no_key_error word2idx phrase2idx sentence :
  (forall sent tok, sentence_text sentence = Ok sent ->
                    In tok (word_tokenize (re_sub_spaces sent)) ->
                    assoc (lower tok) word2idx <> None) ->
  (forall opinions opinion asp,
     In opinions (iter "Opinions" sentence) ->
     In opinion (findall "Opinion" opinions) ->
     is_conflict opinion = false ->
     explicit_target opinion = Some asp ->
     assoc (phrase_of asp) phrase2idx <> None) ->
  raises_only no_key_error
    (second_sentence word_tokenize py_int word2idx phrase2idx sentence).
Proof.
  intros Hw Hp. unfold second_sentence.
  apply raises_only_bind_lift_ok.
  { intros e He key. unfold sentence_text in He.
    destruct (find "text" sentence) as [t|]; [destruct (text_of t)|];
      try discriminate; injection He as <-; discriminate. }
  intros sent Ht.
  destruct (List.length (word_tokenize (re_sub_spaces sent)) =? 0);
    [apply raises_only_ret|].
  apply raises_only_bind_lift.
  { intros e He. exfalso. apply rmap_err in He as (tok & Hin & Hx).
    unfold dict_get in Hx. specialize (Hw sent tok Ht Hin).
    destruct (assoc (lower tok) word2idx); [discriminate|contradiction]. }
  intros idx. apply raises_only_for_each_in. intros opinions Hops.
  apply raises_only_for_each_in. intros opinion Hop.
  apply second_opinion_no_key_error.
  intros asp Hc He. apply (Hp opinions opinion asp Hops Hop Hc He).
Qed.

(** X21: [read_book_hotel] never raises a [KeyError]: whatever counts and
    dictionaries it is given, the vocabularies it builds in lines 187-198
    hold every lower-cased token and every target phrase that the second
    pass looks up. *)
Theorem read_book_hotel_no_key_error
        (in_file out_file : string)
        (source_count target_count : list (string * nat))
        (source_word2idx target_phrase2idx : dict) (w : fs) (key : string) :
  fst (read_book_hotel word_tokenize ET_parse py_int in_file source_count
                       source_word2idx target_count target_phrase2idx
                       out_file w)
  <> Err (KeyError key).
Proof.
  unfold read_book_hotel.
  destruct (negb (isfile w in_file)); [discriminate|].
  unfold ET_parse_file.
  destruct (w in_file) as [content|]; [|discriminate].
  destruct (ET_parse content) as [root|]; [|discriminate].
  destruct (for_each (iter "sentence" root) (first_sentence word_tokenize)
                     pass1_init) as [[[]|e] p1] eqn:E1.
  2:{ simpl. intros [= ->].
      assert (Hr : raises_only no_key_error
                     (for_each (iter "sentence" root)
                               (first_sentence word_tokenize))).
      { apply raises_only_for_each. intros sentence. unfold first_sentence.
        apply raises_only_bind_lift.
        - intros e He k. unfold sentence_text in He.
          destruct (find "text" sentence) as [t|]; [destruct (text_of t)|];
            try discriminate; injection He as <-; discriminate.
        - intros sent. apply raises_only_bind; [apply raises_only_modify|].
          intros _. apply raises_only_for_each. intros opinions.
          apply raises_only_for_each. intros opinion. unfold first_opinion.
          destruct (is_conflict opinion); [apply raises_only_modify|].
          destruct (explicit_target opinion); apply raises_only_modify. }
      apply (Hr _ _ _ E1 key). reflexivity. }
  pose proof (first_pass_covers root tt p1 E1) as Hcov.
  match goal with
  | |- context [for_each ?xs (second_sentence _ _ ?d1 ?d2) pass2_init] =>
      destruct (for_each xs (second_sentence word_tokenize py_int d1 d2)
                         pass2_init) as [[[]|e] p2] eqn:E2;
        [|assert (Hr : raises_only no_key_error
                         (for_each xs (second_sentence word_tokenize py_int
                                                       d1 d2)))]
  end.
  - unfold report. destruct (_ =? 0); [discriminate|].
    destruct (_ =? 0); discriminate.
  - apply raises_only_for_each_in. intros sentence Hin.
    destruct (Hcov sentence Hin) as [Hc1 Hc2].
    apply second_sentence_no_key_error.
    + intros sent tok Ht Htok. apply build_source_word2idx_covers.
      apply (Hc1 sent Ht). apply in_map. exact Htok.
    + intros opinions opinion asp Hops Hop Hc He.
      apply build_target_phrase2idx_covers.
      apply (Hc2 opinions opinion asp Hops Hop Hc He).
  - simpl. intros [= ->]. apply (Hr _ _ _ E2 key). reflexivity.
Qed.

End ReaderVocabulary.

(** ** Runs on the coffee corpus *)

Lemma coffee_run :
  read_book_hotel tokenize_spaces (fun _ => Some coffee_corpus) int_digit
                  "book.xml" [] [] [] [] "out.txt" coffee_fs
  = (Ok coffee_result,
     snd (read_book_hotel tokenize_spaces (fun _ => Some coffee_corpus)
                          int_digit "book.xml" [] [] [] [] "out.txt" coffee_fs)).
Proof. vm_compute. reflexivity. Qed.

Lemma read_book_hotel_shape_witness :
  exists w',
    read_book_hotel tokenize_spaces (fun _ => Some coffee_corpus) int_digit
                    "book.xml" [] [] [] [] "out.txt" coffee_fs
    = (Ok coffee_result, w')
    /\ Forall2 (fun idx loc => List.length idx = List.length loc
                               /\ 1 <= List.length idx <= 9)
               [[2; 1; 3; 4; 5; 2; 1; 3; 6]] coffee_loc
    /\ Forall label_ok [1%Z].
Proof.
  eexists. split; [exact coffee_run|].
  destruct (read_book_hotel_shape tokenize_spaces (fun _ => Some coffee_corpus)
              int_digit "book.xml" "out.txt" [] [] [] [] coffee_fs _
              _ _ _ _ _ _ _ coffee_run) as (_ & _ & _ & _ & H5 & H6).
  split; [exact H5 | exact H6].
Defined.

Lemma read_book_hotel_examples_witness :
  exists w',
    read_book_hotel tokenize_spaces (fun _ => Some coffee_corpus) int_digit
                    "book.xml" [] [] [] [] "out.txt" coffee_fs
    = (Ok coffee_result, w')
    /\ exists root,
         ET_parse_file (fun _ => Some coffee_corpus) coffee_fs "book.xml" = Ok root
         /\ List.length [1%Z] = List.length (corpus_examples tokenize_spaces root).
Proof.
  eexists. split; [exact coffee_run|].
  destruct (read_book_hotel_examples tokenize_spaces
              (fun _ => Some coffee_corpus) int_digit "book.xml" "out.txt"
              [] [] [] [] coffee_fs _ _ _ _ _ _ _ _ coffee_run)
    as (root & Hp & _ & Hlen).
  exists root. split; [exact Hp | exact Hlen].
Defined.

Lemma read_book_hotel_frame_witness :
  "book.xml" <> "out.txt"
  /\ snd (read_book_hotel tokenize_spaces (fun _ => Some coffee_corpus) int_digit
                          "book.xml" [] [] [] [] "out.txt" coffee_fs) "book.xml"
     = Some "<sentences/>".
Proof.
  assert (H : "book.xml" <> "out.txt") by discriminate.
  split; [exact H|].
  exact (read_book_hotel_frame tokenize_spaces (fun _ => Some coffee_corpus)
           int_digit "book.xml" "out.txt" [] [] [] [] coffee_fs "book.xml" H).
Defined.

End DataBookHotelFacts.
